(** * scrypt (dchest/scrypt): the Go sources embedded in Rocq

    The repository holds three style variants of one Go package:
    - [ScryptGo]    : src/scrypt.go (salsa on sixteen local words),
    - [ArrayVariant]: src/unnamed/part_000, lines 1-258 (salsa on a
                      [*[64]byte] with a temporary [u]),
    - [RotVariant]  : src/unnamed/part_000, lines 259-431 (salsa on two
                      word arrays with the [rot] helper).

    Go values are modelled as follows.
    - [int] is a [Z] wrapped to the width of the platform ([IntSize]),
      [uint32]/[uint64]/[byte] are [Z] wrapped to 32/64/8 bits.
    - A byte slice is a view (array, offset, len, cap) into a heap of byte
      arrays; functions that read or write slices run in the monad [M]
      (state = heap, failure = run-time panic).
    - Local arrays ([[16]uint32], [[64]byte]) are Go values and are
      threaded explicitly as lists. *)

From Stdlib Require Import ZArith Zbitwise Lia.
From stdpp Require Import base decidable option list strings.

Local Open Scope Z_scope.

(** ** Machine integers *)

Inductive IntSize := Int32 | Int64.

Definition int_bits (sz : IntSize) : Z :=
  match sz with Int32 => 32 | Int64 => 64 end.

(** Two's-complement wrap-around to [bits] bits. *)
Definition wrap_signed (bits x : Z) : Z :=
  (x + 2 ^ (bits - 1)) mod 2 ^ bits - 2 ^ (bits - 1).

Definition max_int (sz : IntSize) : Z := 2 ^ (int_bits sz - 1) - 1.
Definition min_int (sz : IntSize) : Z := - 2 ^ (int_bits sz - 1).

Definition int_wrap (sz : IntSize) (x : Z) : Z := wrap_signed (int_bits sz) x.
Definition int_add (sz : IntSize) (a b : Z) : Z := int_wrap sz (a + b).
Definition int_sub (sz : IntSize) (a b : Z) : Z := int_wrap sz (a - b).
Definition int_mul (sz : IntSize) (a b : Z) : Z := int_wrap sz (a * b).

(** Go's [/] on [int]: truncation toward zero; a zero divisor panics. *)
Definition int_quot (sz : IntSize) (a b : Z) : option Z :=
  if decide (b = 0) then None else Some (int_wrap sz (Z.quot a b)).

(** [uint64] conversion and multiplication. *)
Definition to_uint64 (x : Z) : Z := x mod 2 ^ 64.
Definition u64_mul (a b : Z) : Z := (a * b) mod 2 ^ 64.

(** [uint32] arithmetic. *)
Definition u32_add (a b : Z) : Z := (a + b) mod 2 ^ 32.
Definition u32_shl (a k : Z) : Z := Z.shiftl a k mod 2 ^ 32.
Definition u32_shr (a k : Z) : Z := Z.shiftr a k.

(** [byte(v)] for an unsigned [v]. *)
Definition to_byte (v : Z) : Z := v mod 2 ^ 8.

(** ** Heap, slices and the panic/state monad *)

Record slice := Slice {
  s_arr : nat;   (* underlying array *)
  s_off : nat;   (* first element of the view *)
  s_len : nat;
  s_cap : nat
}.

Abbreviation heap := (list (list Z)).

Definition M (A : Type) : Type := heap -> option (A * heap).

Definition ret {A} (a : A) : M A := fun h => Some (a, h).
Definition panic {A} : M A := fun _ => None.
Definition bind {A B} (c : M A) (k : A -> M B) : M B :=
  fun h => match c h with
           | Some (a, h') => k a h'
           | None => None
           end.

Notation "'let*' x ':=' c 'in' k" := (bind c (fun x => k))
  (at level 10, x name, c at level 100, k at level 200).
Notation "c ;;; k" := (bind c (fun _ => k))
  (at level 100, k at level 200, right associativity).

(** [for i := lo; i < hi; i++ { s = body i s }]. *)
Fixpoint for_loop {S} (n : nat) (i : Z) (body : Z -> S -> M S) (s : S) : M S :=
  match n with
  | O => ret s
  | Datatypes.S n' => let* s' := body i s in for_loop n' (i + 1) body s'
  end.

Definition for_state {S} (lo hi : Z) (body : Z -> S -> M S) (s : S) : M S :=
  for_loop (Z.to_nat (hi - lo)) lo body s.

Definition for_range (lo hi : Z) (body : Z -> M unit) : M unit :=
  for_state lo hi (fun i _ => body i) tt.

(** [for i, v := range a { s = body i v s }] over an array value [a]. *)
Fixpoint range_array {A S} (a : list A) (i : Z) (body : Z -> A -> S -> M S)
    (s : S) : M S :=
  match a with
  | [] => ret s
  | v :: a' => let* s' := body i v s in range_array a' (i + 1) body s'
  end.

(** [make([]byte, n)]: a fresh zeroed array; a negative length panics. *)
Definition make_bytes (n : Z) : M slice :=
  fun h =>
    if decide (0 <= n) then
      Some (Slice (length h) 0 (Z.to_nat n) (Z.to_nat n),
            h ++ [replicate (Z.to_nat n) 0])
    else None.

(** [s[i]] as an r-value: panics unless [0 <= i < len(s)]. *)
Definition index_get (s : slice) (i : Z) : M Z :=
  fun h =>
    if decide (0 <= i < Z.of_nat (s_len s)) then
      match h !! s_arr s with
      | Some a =>
          match a !! (s_off s + Z.to_nat i)%nat with
          | Some v => Some (v, h)
          | None => None
          end
      | None => None
      end
    else None.

(** [s[i] = v]. *)
Definition index_set (s : slice) (i v : Z) : M unit :=
  fun h =>
    if decide (0 <= i < Z.of_nat (s_len s)) then
      match h !! s_arr s with
      | Some a =>
          if decide (s_off s + Z.to_nat i < length a)%nat then
            Some (tt, <[s_arr s := <[(s_off s + Z.to_nat i)%nat := v]> a]> h)
          else None
      | None => None
      end
    else None.

(** [s[i:]]: panics unless [0 <= i <= len(s)]. *)
Definition slice_from (s : slice) (i : Z) : M slice :=
  if decide (0 <= i <= Z.of_nat (s_len s)) then
    ret (Slice (s_arr s) (s_off s + Z.to_nat i)
               (s_len s - Z.to_nat i) (s_cap s - Z.to_nat i))
  else panic.

(** [s[:n]]: panics unless [0 <= n <= cap(s)]. *)
Definition slice_to (s : slice) (n : Z) : M slice :=
  if decide (0 <= n <= Z.of_nat (s_cap s)) then
    ret (Slice (s_arr s) (s_off s) (Z.to_nat n) (s_cap s))
  else panic.

(** The bytes a slice denotes. *)
Definition slice_bytes (s : slice) : M (list Z) :=
  fun h =>
    match h !! s_arr s with
    | Some a =>
        if decide (s_off s + s_len s <= length a)%nat then
          Some (take (s_len s) (drop (s_off s) a), h)
        else None
    | None => None
    end.

(** Overwrite [a] from position [off] with [d]. *)
Definition splice (off : nat) (d a : list Z) : list Z :=
  take off a ++ d ++ drop (off + length d) a.

(** [binary.LittleEndian.Uint32], [PutUint32] and [Uint64] of the Go
    standard library (encoding/binary). *)
Definition LittleEndian_Uint32 (b : slice) : M Z :=
  let* _ := index_get b 3 in
  let* b0 := index_get b 0 in
  let* b1 := index_get b 1 in
  let* b2 := index_get b 2 in
  let* b3 := index_get b 3 in
  ret (Z.lor (Z.lor (Z.lor b0 (u32_shl b1 8)) (u32_shl b2 16)) (u32_shl b3 24)).

Definition LittleEndian_PutUint32 (b : slice) (v : Z) : M unit :=
  let* _ := index_get b 3 in
  index_set b 0 (to_byte v) ;;;
  index_set b 1 (to_byte (u32_shr v 8)) ;;;
  index_set b 2 (to_byte (u32_shr v 16)) ;;;
  index_set b 3 (to_byte (u32_shr v 24)).

Definition u64_shl (a k : Z) : Z := Z.shiftl a k mod 2 ^ 64.

Definition LittleEndian_Uint64 (b : slice) : M Z :=
  let* _ := index_get b 7 in
  let* b0 := index_get b 0 in
  let* b1 := index_get b 1 in
  let* b2 := index_get b 2 in
  let* b3 := index_get b 3 in
  let* b4 := index_get b 4 in
  let* b5 := index_get b 5 in
  let* b6 := index_get b 6 in
  let* b7 := index_get b 7 in
  ret (Z.lor (Z.lor (Z.lor (Z.lor (Z.lor (Z.lor (Z.lor
         b0 (u64_shl b1 8)) (u64_shl b2 16)) (u64_shl b3 24))
         (u64_shl b4 32)) (u64_shl b5 40)) (u64_shl b6 48)) (u64_shl b7 56)).

(** ** Code shared verbatim by the three variants *)

(** [const maxInt = 1<<31 - 1]. *)
Definition maxInt : Z := Z.shiftl 1 31 - 1.

(** Sixteen [uint32] locals [x0 .. x15]. *)
Definition words16 : Type := (Z * Z * Z * Z * Z * Z * Z * Z * Z * Z * Z * Z * Z * Z * Z * Z)%type.

(** Writing a byte list through a slice: the destination side of [copy]. *)
Definition write_bytes (dst : slice) (d : list Z) : M Z :=
  fun h =>
    let n := Nat.min (s_len dst) (length d) in
    match h !! s_arr dst with
    | Some a =>
        if decide (s_off dst + n <= length a)%nat then
          Some (Z.of_nat n, <[s_arr dst := splice (s_off dst) (take n d) a]> h)
        else None
    | None => None
    end.

(** The built-in [copy(dst, src)] on two slices: [min(len(dst), len(src))]
    bytes, as if [src] were read before [dst] is written. *)
Definition copy (dst src : slice) : M Z :=
  let* d := slice_bytes src in
  write_bytes dst d.

(** [copy(dst[:], src)] into an array value. *)
Definition copy_to_array (dst : list Z) (src : slice) : M (list Z) :=
  let* d := slice_bytes src in
  let n := Nat.min (length dst) (s_len src) in
  ret (take n d ++ drop n dst).

(** blockCopy copies n bytes from src into dst. *)
Definition blockCopy (dst src : slice) (n : Z) : M unit :=
  let* s := slice_to src n in
  let* _ := copy dst s in
  ret tt.

(** blockXOR XORs bytes from dst with n bytes from src. *)
Definition blockXOR (dst src : slice) (n : Z) : M unit :=
  let* s := slice_to src n in
  for_range 0 (Z.of_nat (s_len s)) (fun i =>
    let* v := index_get s i in
    let* d := index_get dst i in
    index_set dst i (Z.lxor d v)).

Section Shared.
Variable isz : IntSize.

Definition integerify (b : slice) (r : Z) : M Z :=
  let* s := slice_from b (int_mul isz (int_sub isz (int_mul isz 2 r) 1) 64) in
  LittleEndian_Uint64 s.

(** [blockMix] of src/scrypt.go (l.115) and of part_000 (l.354): the same
    text, calling the [salsa] of its own file. *)
Section BlockMix.
Variable salsa : slice -> M unit.

Definition blockMix_with (b y : slice) (r : Z) : M unit :=
  let* x := make_bytes 64 in
  let* bl := slice_from b (int_mul isz (int_sub isz (int_mul isz 2 r) 1) 64) in
  blockCopy x bl 64 ;;;
  for_range 0 (int_mul isz 2 r) (fun i =>
    let* bi := slice_from b (int_mul isz i 64) in
    blockXOR x bi 64 ;;;
    salsa x ;;;
    let* yi := slice_from y (int_mul isz i 64) in
    blockCopy yi x 64) ;;;
  for_range 0 r (fun i =>
    let* bi := slice_from b (int_mul isz i 64) in
    let* yi := slice_from y (int_mul isz (int_mul isz i 2) 64) in
    blockCopy bi yi 64) ;;;
  for_range 0 r (fun i =>
    let* bi := slice_from b (int_mul isz (int_add isz i r) 64) in
    let* yi := slice_from y (int_mul isz (int_add isz (int_mul isz i 2) 1) 64) in
    blockCopy bi yi 64).
End BlockMix.

(** [smix] and [Key]: the same text in the three files, up to the first
    guard of [Key] ([N <= 1] in scrypt.go l.176 and part_000 l.242,
    [N <= 0] in part_000 l.415), here [N <= Nmin]. *)
Section SMix.
Variable blockMix : slice -> slice -> Z -> M unit.

Definition smix_with (b : slice) (r N : Z) (v xy : slice) : M unit :=
  let x := xy in
  let* y := slice_from xy (int_mul isz 128 r) in
  blockCopy x b (int_mul isz 128 r) ;;;
  for_range 0 N (fun i =>
    let* vi := slice_from v (int_mul isz i (int_mul isz 128 r)) in
    blockCopy vi x (int_mul isz 128 r) ;;;
    blockMix x y r) ;;;
  for_range 0 N (fun i =>
    let* k := integerify x r in
    let j := int_wrap isz (Z.land k (to_uint64 (int_sub isz N 1))) in
    let* vj := slice_from v (int_mul isz j (int_mul isz 128 r)) in
    blockXOR x vj (int_mul isz 128 r) ;;;
    blockMix x y r) ;;;
  blockCopy b x (int_mul isz 128 r).

(** The external [pbkdf2.Key(password, salt, iter, keyLen, sha256.New)];
    [None] is a panic inside the primitive. *)
Variable pbkdf2_Key : list Z -> list Z -> Z -> Z -> option (list Z).

(** A call whose result is used as a slice: the primitive returns a
    freshly allocated slice. *)
Definition pbkdf2_alloc (password salt : list Z) (iter keyLen : Z) : M slice :=
  fun h =>
    match pbkdf2_Key password salt iter keyLen with
    | Some d => Some (Slice (length h) 0 (length d) (length d), h ++ [d])
    | None => None
    end.

(** The second guard of [Key], evaluated left to right with Go's
    short-circuit [||]; the divisions panic on a zero divisor. *)
Definition too_large (N r p : Z) : M bool :=
  if decide (u64_mul (to_uint64 r) (to_uint64 p) >= Z.shiftl 1 30) then ret true
  else
    match int_quot isz (Z.quot maxInt 128) p with
    | None => panic
    | Some q =>
        if decide (r > q) then ret true
        else if decide (r > Z.quot maxInt 256) then ret true
        else
          match int_quot isz (Z.quot maxInt 128) r with
          | None => panic
          | Some q' => ret (bool_decide (N > q'))
          end
    end.

Definition err_N : string := "scrypt: N must be > 1 and a power of 2".
Definition err_large : string := "scrypt: parameters are too large".

(** The result pair [([]byte, error)]: [None] is [nil]. *)
Definition Key_with (Nmin : Z) (password salt : list Z) (N r p keyLen : Z)
    : M (option (list Z) * option string) :=
  if decide (N <= Nmin \/ Z.land N (int_sub isz N 1) <> 0) then
    ret (None, Some err_N)
  else
    let* big := too_large N r p in
    if big then ret (None, Some err_large)
    else
      let* xy := make_bytes (int_mul isz 256 r) in
      let* v := make_bytes (int_mul isz (int_mul isz 128 r) N) in
      let* b := pbkdf2_alloc password salt 1 (int_mul isz (int_mul isz p 128) r) in
      for_range 0 p (fun i =>
        let* bi := slice_from b (int_mul isz (int_mul isz i 128) r) in
        smix_with bi r N v xy) ;;;
      let* salt2 := slice_bytes b in
      match pbkdf2_Key password salt2 1 keyLen with
      | Some k => ret (Some k, None)
      | None => panic
      end.
End SMix.
End Shared.

(** ** src/scrypt.go *)
Module ScryptGo.
Section WithInt.
Variable isz : IntSize.

(** Body of [for i := 0; i < 8; i += 2] in [salsa]. *)
Definition salsa_loop_body (x : words16) : words16 :=
let '(x0, x1, x2, x3, x4, x5, x6, x7, x8, x9, x10, x11, x12, x13, x14, x15) := x in
let x4 := Z.lxor x4 (Z.lor (u32_shl (u32_add x0 x12) 7) (u32_shr (u32_add x0 x12) (32 - 7))) in
let x8 := Z.lxor x8 (Z.lor (u32_shl (u32_add x4 x0) 9) (u32_shr (u32_add x4 x0) (32 - 9))) in
let x12 := Z.lxor x12 (Z.lor (u32_shl (u32_add x8 x4) 13) (u32_shr (u32_add x8 x4) (32 - 13))) in
let x0 := Z.lxor x0 (Z.lor (u32_shl (u32_add x12 x8) 18) (u32_shr (u32_add x12 x8) (32 - 18))) in

let x9 := Z.lxor x9 (Z.lor (u32_shl (u32_add x5 x1) 7) (u32_shr (u32_add x5 x1) (32 - 7))) in
let x13 := Z.lxor x13 (Z.lor (u32_shl (u32_add x9 x5) 9) (u32_shr (u32_add x9 x5) (32 - 9))) in
let x1 := Z.lxor x1 (Z.lor (u32_shl (u32_add x13 x9) 13) (u32_shr (u32_add x13 x9) (32 - 13))) in
let x5 := Z.lxor x5 (Z.lor (u32_shl (u32_add x1 x13) 18) (u32_shr (u32_add x1 x13) (32 - 18))) in

let x14 := Z.lxor x14 (Z.lor (u32_shl (u32_add x10 x6) 7) (u32_shr (u32_add x10 x6) (32 - 7))) in
let x2 := Z.lxor x2 (Z.lor (u32_shl (u32_add x14 x10) 9) (u32_shr (u32_add x14 x10) (32 - 9))) in
let x6 := Z.lxor x6 (Z.lor (u32_shl (u32_add x2 x14) 13) (u32_shr (u32_add x2 x14) (32 - 13))) in
let x10 := Z.lxor x10 (Z.lor (u32_shl (u32_add x6 x2) 18) (u32_shr (u32_add x6 x2) (32 - 18))) in

let x3 := Z.lxor x3 (Z.lor (u32_shl (u32_add x15 x11) 7) (u32_shr (u32_add x15 x11) (32 - 7))) in
let x7 := Z.lxor x7 (Z.lor (u32_shl (u32_add x3 x15) 9) (u32_shr (u32_add x3 x15) (32 - 9))) in
let x11 := Z.lxor x11 (Z.lor (u32_shl (u32_add x7 x3) 13) (u32_shr (u32_add x7 x3) (32 - 13))) in
let x15 := Z.lxor x15 (Z.lor (u32_shl (u32_add x11 x7) 18) (u32_shr (u32_add x11 x7) (32 - 18))) in

(* Operate on rows. *)
let x1 := Z.lxor x1 (Z.lor (u32_shl (u32_add x0 x3) 7) (u32_shr (u32_add x0 x3) (32 - 7))) in
let x2 := Z.lxor x2 (Z.lor (u32_shl (u32_add x1 x0) 9) (u32_shr (u32_add x1 x0) (32 - 9))) in
let x3 := Z.lxor x3 (Z.lor (u32_shl (u32_add x2 x1) 13) (u32_shr (u32_add x2 x1) (32 - 13))) in
let x0 := Z.lxor x0 (Z.lor (u32_shl (u32_add x3 x2) 18) (u32_shr (u32_add x3 x2) (32 - 18))) in

let x6 := Z.lxor x6 (Z.lor (u32_shl (u32_add x5 x4) 7) (u32_shr (u32_add x5 x4) (32 - 7))) in
let x7 := Z.lxor x7 (Z.lor (u32_shl (u32_add x6 x5) 9) (u32_shr (u32_add x6 x5) (32 - 9))) in
let x4 := Z.lxor x4 (Z.lor (u32_shl (u32_add x7 x6) 13) (u32_shr (u32_add x7 x6) (32 - 13))) in
let x5 := Z.lxor x5 (Z.lor (u32_shl (u32_add x4 x7) 18) (u32_shr (u32_add x4 x7) (32 - 18))) in

let x11 := Z.lxor x11 (Z.lor (u32_shl (u32_add x10 x9) 7) (u32_shr (u32_add x10 x9) (32 - 7))) in
let x8 := Z.lxor x8 (Z.lor (u32_shl (u32_add x11 x10) 9) (u32_shr (u32_add x11 x10) (32 - 9))) in
let x9 := Z.lxor x9 (Z.lor (u32_shl (u32_add x8 x11) 13) (u32_shr (u32_add x8 x11) (32 - 13))) in
let x10 := Z.lxor x10 (Z.lor (u32_shl (u32_add x9 x8) 18) (u32_shr (u32_add x9 x8) (32 - 18))) in

let x12 := Z.lxor x12 (Z.lor (u32_shl (u32_add x15 x14) 7) (u32_shr (u32_add x15 x14) (32 - 7))) in
let x13 := Z.lxor x13 (Z.lor (u32_shl (u32_add x12 x15) 9) (u32_shr (u32_add x12 x15) (32 - 9))) in
let x14 := Z.lxor x14 (Z.lor (u32_shl (u32_add x13 x12) 13) (u32_shr (u32_add x13 x12) (32 - 13))) in
let x15 := Z.lxor x15 (Z.lor (u32_shl (u32_add x14 x13) 18) (u32_shr (u32_add x14 x13) (32 - 18))) in
(x0, x1, x2, x3, x4, x5, x6, x7, x8, x9, x10, x11, x12, x13, x14, x15).

(** [w[0] += x0; ...; w[15] += x15] (lines 88-103). *)
Definition salsa_add_back (w : list Z) (x : words16) : list Z :=
let '(x0, x1, x2, x3, x4, x5, x6, x7, x8, x9, x10, x11, x12, x13, x14, x15) := x in
let w := <[0%nat := u32_add (w !!! 0%nat) x0]> w in
let w := <[1%nat := u32_add (w !!! 1%nat) x1]> w in
let w := <[2%nat := u32_add (w !!! 2%nat) x2]> w in
let w := <[3%nat := u32_add (w !!! 3%nat) x3]> w in
let w := <[4%nat := u32_add (w !!! 4%nat) x4]> w in
let w := <[5%nat := u32_add (w !!! 5%nat) x5]> w in
let w := <[6%nat := u32_add (w !!! 6%nat) x6]> w in
let w := <[7%nat := u32_add (w !!! 7%nat) x7]> w in
let w := <[8%nat := u32_add (w !!! 8%nat) x8]> w in
let w := <[9%nat := u32_add (w !!! 9%nat) x9]> w in
let w := <[10%nat := u32_add (w !!! 10%nat) x10]> w in
let w := <[11%nat := u32_add (w !!! 11%nat) x11]> w in
let w := <[12%nat := u32_add (w !!! 12%nat) x12]> w in
let w := <[13%nat := u32_add (w !!! 13%nat) x13]> w in
let w := <[14%nat := u32_add (w !!! 14%nat) x14]> w in
let w := <[15%nat := u32_add (w !!! 15%nat) x15]> w in
w.

(** salsa applies Salsa20/8 to the given 64-byte slice. *)
Definition salsa (b : slice) : M unit :=
let* w := for_state 0 16 (fun i w =>
    let j := int_mul isz i 4 in
    let* b0 := index_get b j in
    let* b1 := index_get b (int_add isz j 1) in
    let* b2 := index_get b (int_add isz j 2) in
    let* b3 := index_get b (int_add isz j 3) in
    ret (<[Z.to_nat i :=
           Z.lor (Z.lor (Z.lor b0 (u32_shl b1 8)) (u32_shl b2 16)) (u32_shl b3 24)]> w))
  (replicate 16 0) in
let x := (w !!! 0%nat, w !!! 1%nat, w !!! 2%nat, w !!! 3%nat, w !!! 4%nat, w !!! 5%nat, w !!! 6%nat, w !!! 7%nat, w !!! 8%nat, w !!! 9%nat, w !!! 10%nat, w !!! 11%nat, w !!! 12%nat, w !!! 13%nat, w !!! 14%nat, w !!! 15%nat) in
let x := Nat.iter 4 salsa_loop_body x in
let w := salsa_add_back w x in
let* _ := range_array w 0 (fun _ v j =>
    index_set b (int_add isz j 0) (to_byte (u32_shr v 0)) ;;;
    index_set b (int_add isz j 1) (to_byte (u32_shr v 8)) ;;;
    index_set b (int_add isz j 2) (to_byte (u32_shr v 16)) ;;;
    index_set b (int_add isz j 3) (to_byte (u32_shr v 24)) ;;;
    ret (int_add isz j 4)) 0 in
ret tt.

Definition blockMix := blockMix_with isz salsa.
Definition smix := smix_with isz blockMix.
Definition Key pbkdf2_Key := Key_with isz blockMix pbkdf2_Key 1.
End WithInt.
End ScryptGo.

(** ** src/unnamed/part_000, first file (lines 1-258) *)
Module ArrayVariant.
Section WithInt.
Variable isz : IntSize.

(** blockCopyFromArr copies 64 bytes from src array into dst slice. *)
Definition blockCopyFromArr (dst : slice) (src : list Z) : M unit :=
let* _ := write_bytes dst src in
ret tt.

(** blockCopyToArr copies 64 bytes from src slice into dst array. *)
Definition blockCopyToArr (dst : list Z) (src : slice) : M (list Z) :=
copy_to_array dst src.

(** blockXORToArr XORs 64 bytes from src slice into dst array. *)
Definition blockXORToArr (dst : list Z) (src : slice) : M (list Z) :=
let* s := slice_to src 64 in
for_state 0 (Z.of_nat (s_len s)) (fun i dst =>
  let* v := index_get s i in
  ret (<[Z.to_nat i := Z.lxor (dst !!! Z.to_nat i) v]> dst)) dst.

Definition salsa_loop_body (x : words16) : words16 :=
let '(x0, x1, x2, x3, x4, x5, x6, x7, x8, x9, x10, x11, x12, x13, x14, x15) := x in
let u := u32_add x0 x12 in
let x4 := Z.lxor x4 (Z.lor (u32_shl u 7) (u32_shr u (32 - 7))) in
let u := u32_add x4 x0 in
let x8 := Z.lxor x8 (Z.lor (u32_shl u 9) (u32_shr u (32 - 9))) in
let u := u32_add x8 x4 in
let x12 := Z.lxor x12 (Z.lor (u32_shl u 13) (u32_shr u (32 - 13))) in
let u := u32_add x12 x8 in
let x0 := Z.lxor x0 (Z.lor (u32_shl u 18) (u32_shr u (32 - 18))) in

let u := u32_add x5 x1 in
let x9 := Z.lxor x9 (Z.lor (u32_shl u 7) (u32_shr u (32 - 7))) in
let u := u32_add x9 x5 in
let x13 := Z.lxor x13 (Z.lor (u32_shl u 9) (u32_shr u (32 - 9))) in
let u := u32_add x13 x9 in
let x1 := Z.lxor x1 (Z.lor (u32_shl u 13) (u32_shr u (32 - 13))) in
let u := u32_add x1 x13 in
let x5 := Z.lxor x5 (Z.lor (u32_shl u 18) (u32_shr u (32 - 18))) in

let u := u32_add x10 x6 in
let x14 := Z.lxor x14 (Z.lor (u32_shl u 7) (u32_shr u (32 - 7))) in
let u := u32_add x14 x10 in
let x2 := Z.lxor x2 (Z.lor (u32_shl u 9) (u32_shr u (32 - 9))) in
let u := u32_add x2 x14 in
let x6 := Z.lxor x6 (Z.lor (u32_shl u 13) (u32_shr u (32 - 13))) in
let u := u32_add x6 x2 in
let x10 := Z.lxor x10 (Z.lor (u32_shl u 18) (u32_shr u (32 - 18))) in

let u := u32_add x15 x11 in
let x3 := Z.lxor x3 (Z.lor (u32_shl u 7) (u32_shr u (32 - 7))) in
let u := u32_add x3 x15 in
let x7 := Z.lxor x7 (Z.lor (u32_shl u 9) (u32_shr u (32 - 9))) in
let u := u32_add x7 x3 in
let x11 := Z.lxor x11 (Z.lor (u32_shl u 13) (u32_shr u (32 - 13))) in
let u := u32_add x11 x7 in
let x15 := Z.lxor x15 (Z.lor (u32_shl u 18) (u32_shr u (32 - 18))) in

let u := u32_add x0 x3 in
let x1 := Z.lxor x1 (Z.lor (u32_shl u 7) (u32_shr u (32 - 7))) in
let u := u32_add x1 x0 in
let x2 := Z.lxor x2 (Z.lor (u32_shl u 9) (u32_shr u (32 - 9))) in
let u := u32_add x2 x1 in
let x3 := Z.lxor x3 (Z.lor (u32_shl u 13) (u32_shr u (32 - 13))) in
let u := u32_add x3 x2 in
let x0 := Z.lxor x0 (Z.lor (u32_shl u 18) (u32_shr u (32 - 18))) in

let u := u32_add x5 x4 in
let x6 := Z.lxor x6 (Z.lor (u32_shl u 7) (u32_shr u (32 - 7))) in
let u := u32_add x6 x5 in
let x7 := Z.lxor x7 (Z.lor (u32_shl u 9) (u32_shr u (32 - 9))) in
let u := u32_add x7 x6 in
let x4 := Z.lxor x4 (Z.lor (u32_shl u 13) (u32_shr u (32 - 13))) in
let u := u32_add x4 x7 in
let x5 := Z.lxor x5 (Z.lor (u32_shl u 18) (u32_shr u (32 - 18))) in

let u := u32_add x10 x9 in
let x11 := Z.lxor x11 (Z.lor (u32_shl u 7) (u32_shr u (32 - 7))) in
let u := u32_add x11 x10 in
let x8 := Z.lxor x8 (Z.lor (u32_shl u 9) (u32_shr u (32 - 9))) in
let u := u32_add x8 x11 in
let x9 := Z.lxor x9 (Z.lor (u32_shl u 13) (u32_shr u (32 - 13))) in
let u := u32_add x9 x8 in
let x10 := Z.lxor x10 (Z.lor (u32_shl u 18) (u32_shr u (32 - 18))) in

let u := u32_add x15 x14 in
let x12 := Z.lxor x12 (Z.lor (u32_shl u 7) (u32_shr u (32 - 7))) in
let u := u32_add x12 x15 in
let x13 := Z.lxor x13 (Z.lor (u32_shl u 9) (u32_shr u (32 - 9))) in
let u := u32_add x13 x12 in
let x14 := Z.lxor x14 (Z.lor (u32_shl u 13) (u32_shr u (32 - 13))) in
let u := u32_add x14 x13 in
let x15 := Z.lxor x15 (Z.lor (u32_shl u 18) (u32_shr u (32 - 18))) in
(x0, x1, x2, x3, x4, x5, x6, x7, x8, x9, x10, x11, x12, x13, x14, x15).

(** salsa applies Salsa20/8 to the 64-byte array behind the pointer;
  the array is threaded as a value. *)
Definition salsa (b : list Z) : list Z :=
let w0 := Z.lor (Z.lor (Z.lor (b !!! 0%nat) (u32_shl (b !!! 1%nat) 8)) (u32_shl (b !!! 2%nat) 16)) (u32_shl (b !!! 3%nat) 24) in
let w1 := Z.lor (Z.lor (Z.lor (b !!! 4%nat) (u32_shl (b !!! 5%nat) 8)) (u32_shl (b !!! 6%nat) 16)) (u32_shl (b !!! 7%nat) 24) in
let w2 := Z.lor (Z.lor (Z.lor (b !!! 8%nat) (u32_shl (b !!! 9%nat) 8)) (u32_shl (b !!! 10%nat) 16)) (u32_shl (b !!! 11%nat) 24) in
let w3 := Z.lor (Z.lor (Z.lor (b !!! 12%nat) (u32_shl (b !!! 13%nat) 8)) (u32_shl (b !!! 14%nat) 16)) (u32_shl (b !!! 15%nat) 24) in
let w4 := Z.lor (Z.lor (Z.lor (b !!! 16%nat) (u32_shl (b !!! 17%nat) 8)) (u32_shl (b !!! 18%nat) 16)) (u32_shl (b !!! 19%nat) 24) in
let w5 := Z.lor (Z.lor (Z.lor (b !!! 20%nat) (u32_shl (b !!! 21%nat) 8)) (u32_shl (b !!! 22%nat) 16)) (u32_shl (b !!! 23%nat) 24) in
let w6 := Z.lor (Z.lor (Z.lor (b !!! 24%nat) (u32_shl (b !!! 25%nat) 8)) (u32_shl (b !!! 26%nat) 16)) (u32_shl (b !!! 27%nat) 24) in
let w7 := Z.lor (Z.lor (Z.lor (b !!! 28%nat) (u32_shl (b !!! 29%nat) 8)) (u32_shl (b !!! 30%nat) 16)) (u32_shl (b !!! 31%nat) 24) in
let w8 := Z.lor (Z.lor (Z.lor (b !!! 32%nat) (u32_shl (b !!! 33%nat) 8)) (u32_shl (b !!! 34%nat) 16)) (u32_shl (b !!! 35%nat) 24) in
let w9 := Z.lor (Z.lor (Z.lor (b !!! 36%nat) (u32_shl (b !!! 37%nat) 8)) (u32_shl (b !!! 38%nat) 16)) (u32_shl (b !!! 39%nat) 24) in
let w10 := Z.lor (Z.lor (Z.lor (b !!! 40%nat) (u32_shl (b !!! 41%nat) 8)) (u32_shl (b !!! 42%nat) 16)) (u32_shl (b !!! 43%nat) 24) in
let w11 := Z.lor (Z.lor (Z.lor (b !!! 44%nat) (u32_shl (b !!! 45%nat) 8)) (u32_shl (b !!! 46%nat) 16)) (u32_shl (b !!! 47%nat) 24) in
let w12 := Z.lor (Z.lor (Z.lor (b !!! 48%nat) (u32_shl (b !!! 49%nat) 8)) (u32_shl (b !!! 50%nat) 16)) (u32_shl (b !!! 51%nat) 24) in
let w13 := Z.lor (Z.lor (Z.lor (b !!! 52%nat) (u32_shl (b !!! 53%nat) 8)) (u32_shl (b !!! 54%nat) 16)) (u32_shl (b !!! 55%nat) 24) in
let w14 := Z.lor (Z.lor (Z.lor (b !!! 56%nat) (u32_shl (b !!! 57%nat) 8)) (u32_shl (b !!! 58%nat) 16)) (u32_shl (b !!! 59%nat) 24) in
let w15 := Z.lor (Z.lor (Z.lor (b !!! 60%nat) (u32_shl (b !!! 61%nat) 8)) (u32_shl (b !!! 62%nat) 16)) (u32_shl (b !!! 63%nat) 24) in
let '(x0, x1, x2, x3, x4, x5, x6, x7, x8, x9, x10, x11, x12, x13, x14, x15) :=
  Nat.iter 4 salsa_loop_body
    (w0, w1, w2, w3, w4, w5, w6, w7, w8, w9, w10, w11, w12, w13, w14, w15) in
let x0 := u32_add x0 w0 in
let x1 := u32_add x1 w1 in
let x2 := u32_add x2 w2 in
let x3 := u32_add x3 w3 in
let x4 := u32_add x4 w4 in
let x5 := u32_add x5 w5 in
let x6 := u32_add x6 w6 in
let x7 := u32_add x7 w7 in
let x8 := u32_add x8 w8 in
let x9 := u32_add x9 w9 in
let x10 := u32_add x10 w10 in
let x11 := u32_add x11 w11 in
let x12 := u32_add x12 w12 in
let x13 := u32_add x13 w13 in
let x14 := u32_add x14 w14 in
let x15 := u32_add x15 w15 in
let b := <[3%nat := to_byte (u32_shr x0 24)]> (<[2%nat := to_byte (u32_shr x0 16)]> (<[1%nat := to_byte (u32_shr x0 8)]> (<[0%nat := to_byte x0]> b))) in
let b := <[7%nat := to_byte (u32_shr x1 24)]> (<[6%nat := to_byte (u32_shr x1 16)]> (<[5%nat := to_byte (u32_shr x1 8)]> (<[4%nat := to_byte x1]> b))) in
let b := <[11%nat := to_byte (u32_shr x2 24)]> (<[10%nat := to_byte (u32_shr x2 16)]> (<[9%nat := to_byte (u32_shr x2 8)]> (<[8%nat := to_byte x2]> b))) in
let b := <[15%nat := to_byte (u32_shr x3 24)]> (<[14%nat := to_byte (u32_shr x3 16)]> (<[13%nat := to_byte (u32_shr x3 8)]> (<[12%nat := to_byte x3]> b))) in
let b := <[19%nat := to_byte (u32_shr x4 24)]> (<[18%nat := to_byte (u32_shr x4 16)]> (<[17%nat := to_byte (u32_shr x4 8)]> (<[16%nat := to_byte x4]> b))) in
let b := <[23%nat := to_byte (u32_shr x5 24)]> (<[22%nat := to_byte (u32_shr x5 16)]> (<[21%nat := to_byte (u32_shr x5 8)]> (<[20%nat := to_byte x5]> b))) in
let b := <[27%nat := to_byte (u32_shr x6 24)]> (<[26%nat := to_byte (u32_shr x6 16)]> (<[25%nat := to_byte (u32_shr x6 8)]> (<[24%nat := to_byte x6]> b))) in
let b := <[31%nat := to_byte (u32_shr x7 24)]> (<[30%nat := to_byte (u32_shr x7 16)]> (<[29%nat := to_byte (u32_shr x7 8)]> (<[28%nat := to_byte x7]> b))) in
let b := <[35%nat := to_byte (u32_shr x8 24)]> (<[34%nat := to_byte (u32_shr x8 16)]> (<[33%nat := to_byte (u32_shr x8 8)]> (<[32%nat := to_byte x8]> b))) in
let b := <[39%nat := to_byte (u32_shr x9 24)]> (<[38%nat := to_byte (u32_shr x9 16)]> (<[37%nat := to_byte (u32_shr x9 8)]> (<[36%nat := to_byte x9]> b))) in
let b := <[43%nat := to_byte (u32_shr x10 24)]> (<[42%nat := to_byte (u32_shr x10 16)]> (<[41%nat := to_byte (u32_shr x10 8)]> (<[40%nat := to_byte x10]> b))) in
let b := <[47%nat := to_byte (u32_shr x11 24)]> (<[46%nat := to_byte (u32_shr x11 16)]> (<[45%nat := to_byte (u32_shr x11 8)]> (<[44%nat := to_byte x11]> b))) in
let b := <[51%nat := to_byte (u32_shr x12 24)]> (<[50%nat := to_byte (u32_shr x12 16)]> (<[49%nat := to_byte (u32_shr x12 8)]> (<[48%nat := to_byte x12]> b))) in
let b := <[55%nat := to_byte (u32_shr x13 24)]> (<[54%nat := to_byte (u32_shr x13 16)]> (<[53%nat := to_byte (u32_shr x13 8)]> (<[52%nat := to_byte x13]> b))) in
let b := <[59%nat := to_byte (u32_shr x14 24)]> (<[58%nat := to_byte (u32_shr x14 16)]> (<[57%nat := to_byte (u32_shr x14 8)]> (<[56%nat := to_byte x14]> b))) in
let b := <[63%nat := to_byte (u32_shr x15 24)]> (<[62%nat := to_byte (u32_shr x15 16)]> (<[61%nat := to_byte (u32_shr x15 8)]> (<[60%nat := to_byte x15]> b))) in
b.

Definition blockMix (b y : slice) (r : Z) : M unit :=
let x := replicate 64 0 in
let* bl := slice_from b (int_mul isz (int_sub isz (int_mul isz 2 r) 1) 64) in
let* x := blockCopyToArr x bl in
let* x := for_state 0 (int_mul isz 2 r) (fun i x =>
    let* bi := slice_from b (int_mul isz i 64) in
    let* x := blockXORToArr x bi in
    let x := salsa x in
    let* yi := slice_from y (int_mul isz i 64) in
    blockCopyFromArr yi x ;;;
    ret x) x in
for_range 0 r (fun i =>
  let* bi := slice_from b (int_mul isz i 64) in
  let* yi := slice_from y (int_mul isz (int_mul isz i 2) 64) in
  blockCopy bi yi 64) ;;;
for_range 0 r (fun i =>
  let* bi := slice_from b (int_mul isz (int_add isz i r) 64) in
  let* yi := slice_from y (int_mul isz (int_add isz (int_mul isz i 2) 1) 64) in
  blockCopy bi yi 64).

Definition smix := smix_with isz blockMix.
Definition Key pbkdf2_Key := Key_with isz blockMix pbkdf2_Key 1.
End WithInt.
End ArrayVariant.

(** ** src/unnamed/part_000, second file (lines 259-431) *)
Module RotVariant.
Section WithInt.
Variable isz : IntSize.

Definition rot (a b : Z) : Z := Z.lor (u32_shl a b) (u32_shr a (32 - b)).

Definition salsa_loop_body (x : list Z) : list Z :=
(* Operate on columns. *)
let x := <[4%nat := Z.lxor (x !!! 4%nat) (rot (u32_add (x !!! 0%nat) (x !!! 12%nat)) 7)]> x in
let x := <[8%nat := Z.lxor (x !!! 8%nat) (rot (u32_add (x !!! 4%nat) (x !!! 0%nat)) 9)]> x in
let x := <[12%nat := Z.lxor (x !!! 12%nat) (rot (u32_add (x !!! 8%nat) (x !!! 4%nat)) 13)]> x in
let x := <[0%nat := Z.lxor (x !!! 0%nat) (rot (u32_add (x !!! 12%nat) (x !!! 8%nat)) 18)]> x in

let x := <[9%nat := Z.lxor (x !!! 9%nat) (rot (u32_add (x !!! 5%nat) (x !!! 1%nat)) 7)]> x in
let x := <[13%nat := Z.lxor (x !!! 13%nat) (rot (u32_add (x !!! 9%nat) (x !!! 5%nat)) 9)]> x in
let x := <[1%nat := Z.lxor (x !!! 1%nat) (rot (u32_add (x !!! 13%nat) (x !!! 9%nat)) 13)]> x in
let x := <[5%nat := Z.lxor (x !!! 5%nat) (rot (u32_add (x !!! 1%nat) (x !!! 13%nat)) 18)]> x in

let x := <[14%nat := Z.lxor (x !!! 14%nat) (rot (u32_add (x !!! 10%nat) (x !!! 6%nat)) 7)]> x in
let x := <[2%nat := Z.lxor (x !!! 2%nat) (rot (u32_add (x !!! 14%nat) (x !!! 10%nat)) 9)]> x in
let x := <[6%nat := Z.lxor (x !!! 6%nat) (rot (u32_add (x !!! 2%nat) (x !!! 14%nat)) 13)]> x in
let x := <[10%nat := Z.lxor (x !!! 10%nat) (rot (u32_add (x !!! 6%nat) (x !!! 2%nat)) 18)]> x in

let x := <[3%nat := Z.lxor (x !!! 3%nat) (rot (u32_add (x !!! 15%nat) (x !!! 11%nat)) 7)]> x in
let x := <[7%nat := Z.lxor (x !!! 7%nat) (rot (u32_add (x !!! 3%nat) (x !!! 15%nat)) 9)]> x in
let x := <[11%nat := Z.lxor (x !!! 11%nat) (rot (u32_add (x !!! 7%nat) (x !!! 3%nat)) 13)]> x in
let x := <[15%nat := Z.lxor (x !!! 15%nat) (rot (u32_add (x !!! 11%nat) (x !!! 7%nat)) 18)]> x in

(* Operate on rows. *)
let x := <[1%nat := Z.lxor (x !!! 1%nat) (rot (u32_add (x !!! 0%nat) (x !!! 3%nat)) 7)]> x in
let x := <[2%nat := Z.lxor (x !!! 2%nat) (rot (u32_add (x !!! 1%nat) (x !!! 0%nat)) 9)]> x in
let x := <[3%nat := Z.lxor (x !!! 3%nat) (rot (u32_add (x !!! 2%nat) (x !!! 1%nat)) 13)]> x in
let x := <[0%nat := Z.lxor (x !!! 0%nat) (rot (u32_add (x !!! 3%nat) (x !!! 2%nat)) 18)]> x in

let x := <[6%nat := Z.lxor (x !!! 6%nat) (rot (u32_add (x !!! 5%nat) (x !!! 4%nat)) 7)]> x in
let x := <[7%nat := Z.lxor (x !!! 7%nat) (rot (u32_add (x !!! 6%nat) (x !!! 5%nat)) 9)]> x in
let x := <[4%nat := Z.lxor (x !!! 4%nat) (rot (u32_add (x !!! 7%nat) (x !!! 6%nat)) 13)]> x in
let x := <[5%nat := Z.lxor (x !!! 5%nat) (rot (u32_add (x !!! 4%nat) (x !!! 7%nat)) 18)]> x in

let x := <[11%nat := Z.lxor (x !!! 11%nat) (rot (u32_add (x !!! 10%nat) (x !!! 9%nat)) 7)]> x in
let x := <[8%nat := Z.lxor (x !!! 8%nat) (rot (u32_add (x !!! 11%nat) (x !!! 10%nat)) 9)]> x in
let x := <[9%nat := Z.lxor (x !!! 9%nat) (rot (u32_add (x !!! 8%nat) (x !!! 11%nat)) 13)]> x in
let x := <[10%nat := Z.lxor (x !!! 10%nat) (rot (u32_add (x !!! 9%nat) (x !!! 8%nat)) 18)]> x in

let x := <[12%nat := Z.lxor (x !!! 12%nat) (rot (u32_add (x !!! 15%nat) (x !!! 14%nat)) 7)]> x in
let x := <[13%nat := Z.lxor (x !!! 13%nat) (rot (u32_add (x !!! 12%nat) (x !!! 15%nat)) 9)]> x in
let x := <[14%nat := Z.lxor (x !!! 14%nat) (rot (u32_add (x !!! 13%nat) (x !!! 12%nat)) 13)]> x in
let x := <[15%nat := Z.lxor (x !!! 15%nat) (rot (u32_add (x !!! 14%nat) (x !!! 13%nat)) 18)]> x in
x.

(** salsa applies Salsa20/8 to the given 64-byte slice. *)
Definition salsa (b : slice) : M unit :=
let* w := for_state 0 16 (fun i w =>
    let* s := slice_from b (int_mul isz i 4) in
    let* v := LittleEndian_Uint32 s in
    ret (<[Z.to_nat i := v]> w)) (replicate 16 0) in
let x := w in
let x := Nat.iter 4 salsa_loop_body x in
range_array w 0 (fun i v _ =>
    let* s := slice_from b (int_mul isz i 4) in
    LittleEndian_PutUint32 s (u32_add v (x !!! Z.to_nat i))) tt.

Definition blockMix := blockMix_with isz salsa.
Definition smix := smix_with isz blockMix.
Definition Key pbkdf2_Key := Key_with isz blockMix pbkdf2_Key 0.
End WithInt.
End RotVariant.

(** ** The specification, written from spec.md

    These definitions follow the prose of the specification (sections 3,
    4.A-4.F); they are pure functions on byte lists and are compared with
    the embedded code below. *)
Module Spec.

(** Section 3: a byte, and the little-endian reading of a byte string. *)
Definition is_byte (b : Z) : Prop := 0 <= b < 256.

Fixpoint le_decode (bs : list Z) : Z :=
  match bs with
  | [] => 0
  | b :: bs' => b + 256 * le_decode bs'
  end.

Fixpoint le_encode (n : nat) (v : Z) : list Z :=
  match n with
  | O => []
  | S n' => v mod 256 :: le_encode n' (v / 256)
  end.

(** Section 3: Word arithmetic is modulo 2^32; rotations are 32-bit
    left-rotations. *)
Definition add32 (a b : Z) : Z := (a + b) mod 2 ^ 32.
Definition rotl32 (w k : Z) : Z := (w * 2 ^ k) mod 2 ^ 32 + w / 2 ^ (32 - k).

(** Section 4.A, step 1 and step 4. *)
Definition words_of_block (b : list Z) : list Z :=
  map (fun i => le_decode (take 4 (drop (4 * i) b))) (seq 0 16).

Definition block_of_words (x : list Z) : list Z :=
  concat (map (le_encode 4) x).

(** Section 4.A, step 2: the quarter-round pattern on indices (a,b,c,d). *)
Definition quarter_round (x : list Z) (q : nat * nat * nat * nat) : list Z :=
  let '(a, b, c, d) := q in
  let x := <[b := Z.lxor (x !!! b) (rotl32 (add32 (x !!! a) (x !!! d)) 7)]> x in
  let x := <[c := Z.lxor (x !!! c) (rotl32 (add32 (x !!! b) (x !!! a)) 9)]> x in
  let x := <[d := Z.lxor (x !!! d) (rotl32 (add32 (x !!! c) (x !!! b)) 13)]> x in
  <[a := Z.lxor (x !!! a) (rotl32 (add32 (x !!! d) (x !!! c)) 18)]> x.

Definition column_schedule : list (nat * nat * nat * nat) :=
  [(0, 4, 8, 12); (5, 9, 13, 1); (10, 14, 2, 6); (15, 3, 7, 11)]%nat.

Definition row_schedule : list (nat * nat * nat * nat) :=
  [(0, 1, 2, 3); (5, 6, 7, 4); (10, 11, 8, 9); (15, 12, 13, 14)]%nat.

Definition double_round (x : list Z) : list Z :=
  foldl quarter_round (foldl quarter_round x column_schedule) row_schedule.

(** Section 4.A: Salsa20/8 of a 64-byte block. *)
Definition Salsa20_8 (b : list Z) : list Z :=
  let w := words_of_block b in
  let x := Nat.iter 4 double_round w in
  block_of_words (zip_with add32 x w).

Definition xor_bytes (a b : list Z) : list Z := zip_with Z.lxor a b.

(** The i-th 64-byte sub-block and the i-th mix block of a buffer. *)
Definition sub_block (B : list Z) (i : nat) : list Z :=
  take 64 (drop (64 * i) B).

Definition mix_block (r : nat) (B : list Z) (i : nat) : list Z :=
  take (128 * r) (drop (i * (128 * r)) B).

Section Mixing.
(** The 64-byte permutation (Salsa20/8) and Integerify are parameters
    of the mixing layers, so that the same construction can be read
    with the specification's primitives or with the code's. *)
Variable H : list Z -> list Z.
Variable Int : nat -> list Z -> Z.

(** Section 4.B, step 2: the feedback chain; returns Y[0], Y[1], ... *)
Fixpoint chain (X : list Z) (blocks : list (list Z)) : list (list Z) :=
  match blocks with
  | [] => []
  | Bi :: rest =>
      let X' := H (xor_bytes X Bi) in
      X' :: chain X' rest
  end.

(** Section 4.B: BlockMix. *)
Definition BlockMix_of (r : nat) (B : list Z) : list Z :=
  let X := sub_block B (2 * r - 1) in
  let Y := chain X (map (sub_block B) (seq 0 (2 * r))) in
  concat (map (fun i => Y !!! (2 * i)%nat) (seq 0 r)) ++
  concat (map (fun i => Y !!! (2 * i + 1)%nat) (seq 0 r)).

(** Section 4.D, step 2: the table V after the fill phase. *)
Fixpoint fill_table (r n : nat) (X : list Z) : list (list Z) :=
  match n with
  | O => []
  | S n' => X :: fill_table r n' (BlockMix_of r X)
  end.

(** Section 4.D, step 3: one iteration of the mix phase. *)
Definition mix_step (r : nat) (N : Z) (V : list (list Z)) (X : list Z)
    : list Z :=
  let j := Z.land (Int r X) (N - 1) in
  BlockMix_of r (xor_bytes X (V !!! Z.to_nat j)).

(** Section 4.D: SMix. *)
Definition SMix_of (r : nat) (N : Z) (B : list Z) : list Z :=
  let V := fill_table r (Z.to_nat N) B in
  let X := Nat.iter (Z.to_nat N) (BlockMix_of r) B in
  Nat.iter (Z.to_nat N) (mix_step r N V) X.

(** Section 4.F, step 4: SMix on each of the p mix blocks of B. *)
Definition mix_all (r : nat) (N : Z) (p : nat) (B : list Z) : list Z :=
  concat (map (fun i => SMix_of r N (mix_block r B i)) (seq 0 p)).
End Mixing.

(** Section 4.C: Integerify. *)
Definition Integerify (r : nat) (B : list Z) : Z :=
  le_decode (take 8 (drop ((2 * r - 1) * 64) B)).

Definition BlockMix : nat -> list Z -> list Z := BlockMix_of Salsa20_8.
Definition SMix : nat -> Z -> list Z -> list Z := SMix_of Salsa20_8 Integerify.

(** Section 4.E: the validator's conditions. *)
Definition power_of_two (N : Z) : Prop := exists k, 0 <= k /\ N = 2 ^ k.

(** Section 4.F: derive_key on validated parameters, over the external
    PBKDF2-HMAC-SHA256 primitive. *)
Definition derive_key (pbkdf2 : list Z -> list Z -> Z -> Z -> option (list Z))
    (password salt : list Z) (N r p keyLen : Z) : option (list Z) :=
  match pbkdf2 password salt 1 (p * 128 * r) with
  | Some B =>
      pbkdf2 password
        (mix_all Salsa20_8 Integerify (Z.to_nat r) N (Z.to_nat p) B) 1 keyLen
  | None => None
  end.
End Spec.

(** ** Vocabulary of the proofs *)

(** The [n] bytes of array [a] from offset [off], and of a slice. *)
Definition bytes_at (h : heap) (a off n : nat) : list Z :=
  take n (drop off (h !!! a)).

Definition view (h : heap) (s : slice) (n : nat) : list Z :=
  bytes_at h (s_arr s) (s_off s) n.

(** The heap after writing [d] into array [a] from offset [off]. *)
Definition put (h : heap) (a off : nat) (d : list Z) : heap :=
  <[a := splice off d (h !!! a)]> h.

(** A slice is well formed in a heap: its array exists and holds its
    capacity. *)
Definition slice_ok (h : heap) (s : slice) : Prop :=
  (s_arr s < length h)%nat /\
  (s_len s <= s_cap s)%nat /\
  (s_off s + s_cap s <= length (h !!! s_arr s))%nat.

(** The slices [s[i:]] and [s[:n]]. *)
Definition sfrom (s : slice) (i : nat) : slice :=
  Slice (s_arr s) (s_off s + i) (s_len s - i) (s_cap s - i).

Definition sto (s : slice) (n : nat) : slice :=
  Slice (s_arr s) (s_off s) n (s_cap s).

(** Two slices do not overlap on their first [n1], [n2] bytes. *)
Definition sep (s1 : slice) (n1 : nat) (s2 : slice) (n2 : nat) : Prop :=
  s_arr s1 <> s_arr s2 \/
  (s_off s1 + n1 <= s_off s2)%nat \/ (s_off s2 + n2 <= s_off s1)%nat.

(** Locations [(array, index)] and the footprint of the first [n] bytes of
    a slice. *)
Definition loc_set : Type := nat -> nat -> Prop.

Definition span (s : slice) (n : nat) : loc_set :=
  fun a i => a = s_arr s /\ (s_off s <= i < s_off s + n)%nat.

Definition loc_union (W1 W2 : loc_set) : loc_set :=
  fun a i => W1 a i \/ W2 a i.

Definition loc_disjoint (W1 W2 : loc_set) : Prop :=
  forall a i, W1 a i -> W2 a i -> False.

(** [h'] extends [h]: old arrays keep their length, and their contents
    outside [W]. *)
Definition unchanged_except (W : loc_set) (h h' : heap) : Prop :=
  (length h <= length h')%nat /\
  forall a, (a < length h)%nat ->
    length (h' !!! a) = length (h !!! a) /\
    forall i, ~ W a i -> (h' !!! a) !! i = (h !!! a) !! i.

(** The value returned by a run, without the final heap. *)
Definition outcome {A} (o : option (A * heap)) : option A := fst <$> o.

(** Go's [int] values. *)
Definition in_int (sz : IntSize) (x : Z) : Prop := min_int sz <= x <= max_int sz.

(** The contract of the external primitive: [dkLen] bytes for every
    non-negative [dkLen]. *)
Definition pbkdf2_contract
    (pbkdf2 : list Z -> list Z -> Z -> Z -> option (list Z)) : Prop :=
  forall password salt iter dkLen, 0 <= dkLen ->
    exists d, pbkdf2 password salt iter dkLen = Some d /\
              length d = Z.to_nat dkLen /\ Forall Spec.is_byte d.

(** The four conditions of the second guard, as the specification lists
    them (integer division truncates toward zero). *)
Definition guard_conditions (N r p : Z) : Prop :=
  (r mod 2 ^ 64) * (p mod 2 ^ 64) mod 2 ^ 64 >= 2 ^ 30 \/
  r > Z.quot (Z.quot (2 ^ 31 - 1) 128) p \/
  r > Z.quot (2 ^ 31 - 1) 256 \/
  N > Z.quot (Z.quot (2 ^ 31 - 1) 128) r.

(** A primitive used to run the code on concrete inputs: it returns
    [dkLen] zero bytes and panics on a negative length. *)
Definition pbkdf2_zeros (password salt : list Z) (iter dkLen : Z)
    : option (list Z) :=
  if decide (0 <= dkLen) then Some (replicate (Z.to_nat dkLen) 0) else None.

(** The code's little-endian readings, on byte lists. *)
Definition Integerify_code (r : nat) (B : list Z) : Z :=
  let b := drop ((2 * r - 1) * 64) B in
  Z.lor (Z.lor (Z.lor (Z.lor (Z.lor (Z.lor (Z.lor
    (b !!! 0%nat) (u64_shl (b !!! 1%nat) 8)) (u64_shl (b !!! 2%nat) 16))
    (u64_shl (b !!! 3%nat) 24)) (u64_shl (b !!! 4%nat) 32))
    (u64_shl (b !!! 5%nat) 40)) (u64_shl (b !!! 6%nat) 48))
    (u64_shl (b !!! 7%nat) 56).

(** The code's Salsa20/8 as a function on byte lists: the word read by
    the decoding expression, the four bytes written for a word, and the
    rounds of [salsa] between them. *)
Definition dec32 (l : list Z) (k : nat) : Z :=
  Z.lor (Z.lor (Z.lor (l !!! (4 * k)%nat) (u32_shl (l !!! (4 * k + 1)%nat) 8))
               (u32_shl (l !!! (4 * k + 2)%nat) 16))
        (u32_shl (l !!! (4 * k + 3)%nat) 24).

Definition enc32 (v : Z) : list Z :=
  [to_byte v; to_byte (u32_shr v 8); to_byte (u32_shr v 16); to_byte (u32_shr v 24)].

Definition tuple_of_words (w : list Z) : words16 :=
  (w !!! 0%nat, w !!! 1%nat, w !!! 2%nat, w !!! 3%nat, w !!! 4%nat, w !!! 5%nat, w !!! 6%nat, w !!! 7%nat, w !!! 8%nat, w !!! 9%nat, w !!! 10%nat, w !!! 11%nat, w !!! 12%nat, w !!! 13%nat, w !!! 14%nat, w !!! 15%nat).

Definition words_of_tuple (x : words16) : list Z :=
  let '(x0, x1, x2, x3, x4, x5, x6, x7, x8, x9, x10, x11, x12, x13, x14, x15) := x in
  [x0; x1; x2; x3; x4; x5; x6; x7; x8; x9; x10; x11; x12; x13; x14; x15].

Definition salsa_words (w : list Z) : list Z :=
  zip_with u32_add
    (words_of_tuple (Nat.iter 4 ArrayVariant.salsa_loop_body (tuple_of_words w))) w.

Definition Salsa_code (l : list Z) : list Z :=
  concat (map enc32 (salsa_words (map (dec32 l) (seq 0 16)))).

(** What the proofs ask of a [salsa] on slices. *)
Definition salsa_refines (salsa : slice -> M unit) : Prop :=
  forall h b, slice_ok h b -> (64 <= s_len b)%nat ->
    salsa b h = Some (tt, put h (s_arr b) (s_off b) (Salsa_code (view h b 64))).

(** The mixing layers read with the code's primitives. *)
Definition BlockMix_code : nat -> list Z -> list Z :=
  Spec.BlockMix_of Salsa_code.
Definition SMix_code : nat -> Z -> list Z -> list Z :=
  Spec.SMix_of Salsa_code Integerify_code.

(** The value returned by [Key] once both guards are passed, as a
    function of what the primitive returns: a panic when the first call
    panics or returns fewer than [p * 128 * r] bytes, else the second
    call on the mixed buffer. *)
Definition mix_all_code : nat -> Z -> nat -> list Z -> list Z :=
  Spec.mix_all Salsa_code Integerify_code.

Definition Key_result (pbkdf2 : list Z -> list Z -> Z -> Z -> option (list Z))
    (password salt : list Z) (N r p keyLen : Z)
    : option (option (list Z) * option string) :=
  match pbkdf2 password salt 1 (p * 128 * r) with
  | None => None
  | Some d =>
      if decide (Z.to_nat p * (128 * Z.to_nat r) <= length d)%nat then
        match pbkdf2 password
                (mix_all_code (Z.to_nat r) N (Z.to_nat p) d ++
                 drop (Z.to_nat p * (128 * Z.to_nat r)) d) 1 keyLen with
        | Some k => Some (Some k, None)
        | None => None
        end
      else None
  end.

(** What the proofs ask of a [blockMix]: on two separate slices of at
    least [128 r] bytes it replaces the first [128 r] bytes of [b] by
    their BlockMix and touches nothing but these and the scratch [y]. *)
Definition blockMix_refines (isz : IntSize)
    (blockMix : slice -> slice -> Z -> M unit) : Prop :=
  forall h b y (r : nat),
    (1 <= r)%nat -> 128 * Z.of_nat r <= max_int isz ->
    slice_ok h b -> slice_ok h y ->
    (128 * r <= s_len b)%nat -> (128 * r <= s_len y)%nat ->
    sep b (128 * r) y (128 * r) ->
    exists h',
      blockMix b y (Z.of_nat r) h = Some (tt, h') /\
      view h' b (128 * r) = BlockMix_code r (view h b (128 * r)) /\
      unchanged_except (loc_union (span b (128 * r)) (span y (128 * r))) h h'.

(** ** Vocabulary of the statements *)

(** Bytes are decidable, so that concrete buffers are checked by
    evaluation. *)
#[global] Instance is_byte_dec (b : Z) : Decision (Spec.is_byte b) :=
  (_ : Decision (0 <= b /\ b < 256)).

(** A run [c] from [h] succeeds, leaves [out] in the first [n] bytes of
    [b] and changes nothing outside [W]. *)
Definition replaces (c : M unit) (h : heap) (b : slice) (n : nat)
    (out : list Z) (W : loc_set) : Prop :=
  exists h', c h = Some (tt, h') /\ view h' b n = out /\
             unchanged_except W h h'.

(** The Go result pairs [(key, nil)] and [(nil, err)]. *)
Definition success (k : list Z) : option (list Z) * option string :=
  (Some k, None).

Definition failure (err : string) : option (list Z) * option string :=
  (None, Some err).

(** A call returns [(nil, err)] and leaves the heap as it was: nothing
    was allocated. *)
Definition rejects_with (err : string)
    (c : M (option (list Z) * option string)) (h : heap) : Prop :=
  c h = Some (failure err, h).

(** A signed 32-bit value. *)
Definition fits_int32 (x : Z) : Prop := - 2 ^ 31 <= x <= 2 ^ 31 - 1.

(** The parameters the validator is meant to accept (section 4.E). *)
Definition valid_params (N r p : Z) : Prop :=
  2 <= N /\ Spec.power_of_two N /\ 1 <= r /\ 1 <= p /\
  ~ guard_conditions N r p.

(** A call succeeds with a key of [n] bytes and a nil error. *)
Definition returns_key (n : nat)
    (c : M (option (list Z) * option string)) (h : heap) : Prop :=
  exists key h', c h = Some (success key, h') /\ length key = n.

(** What a run leaves behind whenever it returns: exactly [n] new
    arrays, every old array at its size, and the old arrays outside [A]
    with their contents. *)
Definition effect {T} (A : nat -> Prop) (n : nat) (c : M T) : Prop :=
  forall h x h', c h = Some (x, h') ->
    length h' = (length h + n)%nat /\
    forall a, (a < length h)%nat ->
      length (h' !!! a) = length (h !!! a) /\ (~ A a -> h' !!! a = h !!! a).

(** A run that leaves the heap as it is, with a result in [P]. *)
Definition reads {T} (P : T -> Prop) (c : M T) : Prop :=
  forall h x h', c h = Some (x, h') -> h' = h /\ P x.

(** A call of [Key] succeeds with a key of [keyLen] bytes and leaves the
    heap extended by the buffers [xy], [v] and [b] and by [temps] further
    arrays, all older arrays being as they were. *)
Definition key_footprint (N r p keyLen : Z) (temps : nat)
    (c : M (option (list Z) * option string)) (h : heap) : Prop :=
  exists key xy v b tmp,
    c h = Some (success key, h ++ [xy; v; b] ++ tmp) /\
    length key = Z.to_nat keyLen /\
    length xy = Z.to_nat (256 * r) /\
    length v = Z.to_nat (128 * r * N) /\
    length b = Z.to_nat (p * 128 * r) /\
    length tmp = temps.

Lemma int_bits_cases sz : int_bits sz = 32 \/ int_bits sz = 64.
Proof. destruct sz; auto. Qed.

Lemma max_int_ge sz : 2147483647 <= max_int sz.
Proof. destruct sz; vm_compute; congruence. Qed.

Lemma min_int_le sz : min_int sz <= -2147483648.
Proof. destruct sz; vm_compute; congruence. Qed.

Lemma max_int_le sz : max_int sz <= 9223372036854775807.
Proof. destruct sz; vm_compute; congruence. Qed.

Lemma int_wrap_id sz x : in_int sz x -> int_wrap sz x = x.
Proof.
  unfold in_int, int_wrap, wrap_signed, min_int, max_int.
  destruct sz; simpl int_bits; intros H.
  - change (2 ^ (32 - 1)) with 2147483648 in *. change (2 ^ 32) with 4294967296.
    rewrite Z.mod_small; lia.
  - change (2 ^ (64 - 1)) with 9223372036854775808 in *.
    change (2 ^ 64) with 18446744073709551616.
    rewrite Z.mod_small; lia.
Qed.

Lemma in_int_small sz x : -2147483648 <= x <= 2147483647 -> in_int sz x.
Proof. pose proof (max_int_ge sz). pose proof (min_int_le sz). unfold in_int. lia. Qed.

Lemma list_lookup_total_Some {A} `{Inhabited A} (l : list A) i :
  (i < length l)%nat -> l !! i = Some (l !!! i).
Proof. apply list_lookup_lookup_total_lt. Qed.

(** *** The monad and its loops *)

Lemma bind_Some {A B} (c : M A) (k : A -> M B) h a h' :
  c h = Some (a, h') -> bind c k h = k a h'.
Proof. unfold bind. intros ->. reflexivity. Qed.

Lemma bind_None {A B} (c : M A) (k : A -> M B) h :
  c h = None -> bind c k h = None.
Proof. unfold bind. intros ->. reflexivity. Qed.

Lemma for_loop_inv {St} (I : Z -> St -> heap -> Prop) (body : Z -> St -> M St) n :
  forall lo s h,
    I lo s h ->
    (forall i s h, lo <= i < lo + Z.of_nat n -> I i s h ->
       exists s' h', body i s h = Some (s', h') /\ I (i + 1) s' h') ->
    exists s' h', for_loop n lo body s h = Some (s', h') /\ I (lo + Z.of_nat n) s' h'.
Proof.
  induction n as [|n IH]; intros lo s h HI Hstep.
  - exists s, h. split; [reflexivity|]. replace (lo + Z.of_nat 0) with lo by lia. exact HI.
  - destruct (Hstep lo s h) as (s1 & h1 & Hb & HI1); [lia|exact HI|].
    destruct (IH (lo + 1) s1 h1 HI1) as (s2 & h2 & Hl & HI2).
    { intros i s0 h0 Hi. apply Hstep. lia. }
    exists s2, h2. split.
    + simpl. rewrite (bind_Some _ _ _ _ _ Hb). exact Hl.
    + replace (lo + Z.of_nat (S n)) with (lo + 1 + Z.of_nat n) by lia. exact HI2.
Qed.

Lemma for_state_inv {St} (I : Z -> St -> heap -> Prop) (body : Z -> St -> M St)
    lo hi s h :
  lo <= hi ->
  I lo s h ->
  (forall i s h, lo <= i < hi -> I i s h ->
     exists s' h', body i s h = Some (s', h') /\ I (i + 1) s' h') ->
  exists s' h', for_state lo hi body s h = Some (s', h') /\ I hi s' h'.
Proof.
  intros Hle HI Hstep. unfold for_state.
  destruct (for_loop_inv I body (Z.to_nat (hi - lo)) lo s h HI) as (s' & h' & E & HI').
  { intros i s0 h0 Hi. apply Hstep. lia. }
  exists s', h'. split; [exact E|].
  replace hi with (lo + Z.of_nat (Z.to_nat (hi - lo))) by lia. exact HI'.
Qed.

Lemma for_range_inv (I : Z -> heap -> Prop) (body : Z -> M unit) lo hi h :
  lo <= hi ->
  I lo h ->
  (forall i h, lo <= i < hi -> I i h ->
     exists h', body i h = Some (tt, h') /\ I (i + 1) h') ->
  exists h', for_range lo hi body h = Some (tt, h') /\ I hi h'.
Proof.
  intros Hle HI Hstep. unfold for_range.
  destruct (for_state_inv (fun i _ h => I i h) (fun i _ => body i) lo hi tt h Hle HI)
    as ([] & h' & E & HI').
  { intros i [] h0 Hi HI0. destruct (Hstep i h0 Hi HI0) as (h1 & E1 & HI1).
    exists tt, h1. auto. }
  exists h'. auto.
Qed.

(** A loop panics as soon as one iteration does. *)
Lemma for_range_panics (I : Z -> heap -> Prop) (body : Z -> M unit) lo hi k h :
  lo <= k < hi ->
  I lo h ->
  (forall i h, lo <= i < k -> I i h ->
     exists h', body i h = Some (tt, h') /\ I (i + 1) h') ->
  (forall h, I k h -> body k h = None) ->
  for_range lo hi body h = None.
Proof.
  intros Hk HI Hstep Hpanic. unfold for_range, for_state.
  remember (Z.to_nat (hi - lo)) as n eqn:Hn.
  assert (Hn' : k < lo + Z.of_nat n) by lia. clear Hn.
  destruct Hk as [Hk _]. revert lo h Hk HI Hstep Hn'.
  induction n as [|n IH]; intros lo h Hk HI Hstep Hn'; [lia|].
  simpl. destruct (decide (lo = k)) as [->|Hne].
  - rewrite bind_None; [reflexivity|]. apply Hpanic, HI.
  - destruct (Hstep lo h) as (h1 & Hb & HI1); [lia|exact HI|].
    rewrite (bind_Some _ _ _ _ _ Hb). apply IH; [lia|exact HI1| |lia].
    intros i h0 Hi. apply Hstep. lia.
Qed.

Lemma range_array_inv {A St} (I : nat -> St -> heap -> Prop)
    (body : Z -> A -> St -> M St) (a : list A) :
  forall k s h,
    I k s h ->
    (forall i v s h, a !! i = Some v -> I (k + i)%nat s h ->
       exists s' h', body (Z.of_nat (k + i)) v s h = Some (s', h') /\
                     I (S (k + i)) s' h') ->
    exists s' h', range_array a (Z.of_nat k) body s h = Some (s', h') /\
                  I (k + length a)%nat s' h'.
Proof.
  induction a as [|v a IH]; intros k s h HI Hstep.
  - exists s, h. split; [reflexivity|]. simpl. rewrite Nat.add_0_r. exact HI.
  - destruct (Hstep 0%nat v s h) as (s1 & h1 & Hb & HI1); [reflexivity| |].
    { rewrite Nat.add_0_r. exact HI. }
    rewrite Nat.add_0_r in Hb, HI1.
    destruct (IH (S k) s1 h1 HI1) as (s2 & h2 & Hl & HI2).
    { intros i v0 s0 h0 Hv HI0.
      replace (S k + i)%nat with (k + S i)%nat in * by lia.
      apply Hstep; assumption. }
    exists s2, h2. split.
    + simpl. rewrite (bind_Some _ _ _ _ _ Hb).
      replace (Z.of_nat k + 1) with (Z.of_nat (S k)) by lia. exact Hl.
    + simpl length. replace (k + S (length a))%nat with (S k + length a)%nat by lia.
      exact HI2.
Qed.

(** *** Arrays and heaps *)
Section HeapFacts.
Local Open Scope nat_scope.
Implicit Types (h : heap) (a off n i : nat) (d l : list Z) (W : loc_set).

Lemma length_splice off d l :
  off + length d <= length l -> length (splice off d l) = length l.
Proof.
  intros H. unfold splice. rewrite !length_app, length_take, length_drop. lia.
Qed.

Lemma lookup_splice_in off d l i :
  off + length d <= length l -> off <= i < off + length d ->
  splice off d l !! i = d !! (i - off).
Proof.
  intros H Hi. unfold splice.
  rewrite lookup_app_r by (rewrite length_take; lia).
  rewrite length_take, Nat.min_l by lia.
  apply lookup_app_l. lia.
Qed.

Lemma lookup_splice_out off d l i :
  off + length d <= length l -> i < off \/ off + length d <= i ->
  splice off d l !! i = l !! i.
Proof.
  intros H [Hi|Hi]; unfold splice.
  - rewrite lookup_app_l by (rewrite length_take; lia).
    apply lookup_take_lt. lia.
  - rewrite lookup_app_r by (rewrite length_take; lia).
    rewrite length_take, Nat.min_l by lia.
    rewrite lookup_app_r by lia.
    rewrite lookup_drop. f_equal. lia.
Qed.

Lemma splice_splice off d1 d2 l :
  off + length d1 + length d2 <= length l ->
  splice (off + length d1) d2 (splice off d1 l) = splice off (d1 ++ d2) l.
Proof.
  intros H. apply list_eq. intros i.
  assert (Hl : length (splice off d1 l) = length l) by (apply length_splice; lia).
  destruct (decide (i < off)) as [Hi|Hi].
  { rewrite !lookup_splice_out by (rewrite ?Hl, ?length_app; lia). reflexivity. }
  destruct (decide (i < off + length d1)) as [Hi1|Hi1].
  { rewrite lookup_splice_out by (rewrite ?Hl; lia).
    rewrite !lookup_splice_in by (rewrite ?length_app; lia).
    rewrite lookup_app_l by lia. reflexivity. }
  destruct (decide (i < off + length d1 + length d2)) as [Hi2|Hi2].
  { rewrite !lookup_splice_in by (rewrite ?Hl, ?length_app; lia).
    rewrite lookup_app_r by lia. f_equal. lia. }
  rewrite !lookup_splice_out by (rewrite ?Hl, ?length_app; lia). reflexivity.
Qed.

Lemma splice_nil off l : off <= length l -> splice off [] l = l.
Proof.
  intros H. unfold splice. simpl. rewrite Nat.add_0_r. apply take_drop.
Qed.

Lemma splice_insert off v l :
  off < length l -> <[off := v]> l = splice off [v] l.
Proof.
  intros H. apply list_eq. intros i.
  destruct (decide (i = off)) as [->|Hne].
  - rewrite list_lookup_insert_eq by lia.
    rewrite lookup_splice_in by (simpl; lia). rewrite Nat.sub_diag. reflexivity.
  - rewrite list_lookup_insert_ne by lia.
    rewrite lookup_splice_out by (simpl; lia). reflexivity.
Qed.

Lemma heap_lookup h a : a < length h -> h !! a = Some (h !!! a).
Proof. apply list_lookup_lookup_total_lt. Qed.

Lemma length_put h a off d : length (put h a off d) = length h.
Proof. apply length_insert. Qed.

Lemma put_same h a off d :
  a < length h -> put h a off d !!! a = splice off d (h !!! a).
Proof. intros H. unfold put. apply list_lookup_total_insert_eq. exact H. Qed.

Lemma put_other h a a' off d : a <> a' -> put h a off d !!! a' = h !!! a'.
Proof. intros H. unfold put. apply list_lookup_total_insert_ne. exact H. Qed.

Lemma put_put h a off d1 d2 :
  a < length h -> off + length d1 + length d2 <= length (h !!! a) ->
  put (put h a off d1) a (off + length d1) d2 = put h a off (d1 ++ d2).
Proof.
  intros Ha H. unfold put at 1. rewrite put_same by exact Ha.
  rewrite splice_splice by exact H. unfold put.
  apply list_insert_insert_eq.
Qed.

Lemma put_nil h a off : a < length h -> off <= length (h !!! a) -> put h a off [] = h.
Proof.
  intros Ha H. unfold put. rewrite splice_nil by exact H.
  apply list_insert_id. apply heap_lookup, Ha.
Qed.

Lemma length_bytes_at h a off n :
  off + n <= length (h !!! a) -> length (bytes_at h a off n) = n.
Proof. intros H. unfold bytes_at. rewrite length_take, length_drop. lia. Qed.

Lemma bytes_at_app h a off n m :
  bytes_at h a off (n + m) = bytes_at h a off n ++ bytes_at h a (off + n) m.
Proof.
  unfold bytes_at. rewrite <- (take_take_drop (drop off (h !!! a)) n m).
  rewrite drop_drop. reflexivity.
Qed.

Lemma lookup_bytes_at h a off n i :
  i < n -> bytes_at h a off n !! i = (h !!! a) !! (off + i).
Proof.
  intros H. unfold bytes_at. rewrite lookup_take_lt by exact H. apply lookup_drop.
Qed.

Lemma bytes_at_ext h h' a a' off off' n :
  (forall i, i < n -> (h' !!! a') !! (off' + i) = (h !!! a) !! (off + i)) ->
  bytes_at h' a' off' n = bytes_at h a off n.
Proof.
  intros H. apply list_eq. intros i. destruct (decide (i < n)) as [Hi|Hi].
  - rewrite !lookup_bytes_at by exact Hi. apply H, Hi.
  - unfold bytes_at. rewrite !lookup_take_ge by lia. reflexivity.
Qed.

Lemma bytes_at_put_same h a off d :
  a < length h -> off + length d <= length (h !!! a) ->
  bytes_at (put h a off d) a off (length d) = d.
Proof.
  intros Ha H. apply list_eq. intros i.
  destruct (decide (i < length d)) as [Hi|Hi].
  - rewrite lookup_bytes_at by exact Hi. rewrite put_same by exact Ha.
    rewrite lookup_splice_in by lia. f_equal. lia.
  - unfold bytes_at. rewrite lookup_take_ge by lia.
    symmetry. apply lookup_ge_None. lia.
Qed.

Lemma bytes_at_put_same' h a off d n :
  a < length h -> off + n <= length (h !!! a) -> length d = n ->
  bytes_at (put h a off d) a off n = d.
Proof. intros Ha H <-. apply bytes_at_put_same; assumption. Qed.

Lemma bytes_at_take h a off n m :
  m <= n -> take m (bytes_at h a off n) = bytes_at h a off m.
Proof. intros H. unfold bytes_at. rewrite take_take. f_equal. lia. Qed.

Lemma bytes_at_drop h a off n m :
  m <= n -> drop m (bytes_at h a off n) = bytes_at h a (off + m) (n - m).
Proof.
  intros H. unfold bytes_at.
  replace n with (m + (n - m)) at 1 by lia.
  rewrite <- take_drop_commute, drop_drop. reflexivity.
Qed.

(** Frames. *)
Lemma unchanged_refl W h : unchanged_except W h h.
Proof. split; [lia|]. intros a _. split; [reflexivity|]. intros; reflexivity. Qed.

Lemma unchanged_trans W h1 h2 h3 :
  unchanged_except W h1 h2 -> unchanged_except W h2 h3 -> unchanged_except W h1 h3.
Proof.
  intros [L1 H1] [L2 H2]. split; [lia|]. intros a Ha.
  destruct (H1 a Ha) as [E1 F1]. destruct (H2 a) as [E2 F2]; [lia|].
  split; [congruence|]. intros i Hi. rewrite F2, F1 by exact Hi. reflexivity.
Qed.

Lemma unchanged_mono W W' h h' :
  (forall a i, W a i -> W' a i) ->
  unchanged_except W h h' -> unchanged_except W' h h'.
Proof.
  intros Hsub [L H]. split; [exact L|]. intros a Ha.
  destruct (H a Ha) as [E F]. split; [exact E|]. intros i Hi. apply F. auto.
Qed.

Lemma unchanged_restrict W W' h h' :
  (forall a i, a < length h -> W a i -> W' a i) ->
  unchanged_except W h h' -> unchanged_except W' h h'.
Proof.
  intros Hsub [L H]. split; [exact L|]. intros a Ha.
  destruct (H a Ha) as [E F]. split; [exact E|]. intros i Hi. apply F. auto.
Qed.

Lemma unchanged_put W h a off d :
  a < length h -> off + length d <= length (h !!! a) ->
  (forall i, off <= i < off + length d -> W a i) ->
  unchanged_except W h (put h a off d).
Proof.
  intros Ha H HW. split; [rewrite length_put; lia|]. intros a' Ha'.
  destruct (decide (a = a')) as [<-|Hne].
  - rewrite put_same by exact Ha. split; [apply length_splice, H|].
    intros i Hi. apply lookup_splice_out; [exact H|].
    destruct (decide (off <= i < off + length d)) as [Hin|Hout]; [|lia].
    exfalso. apply Hi, HW, Hin.
  - rewrite put_other by exact Hne. split; reflexivity.
Qed.

Lemma unchanged_alloc W h l : unchanged_except W h (h ++ [l]).
Proof.
  split; [rewrite length_app; lia|]. intros a Ha.
  rewrite lookup_total_app_l by exact Ha. split; reflexivity.
Qed.

Lemma slice_ok_unchanged W h h' s :
  unchanged_except W h h' -> slice_ok h s -> slice_ok h' s.
Proof.
  intros [L H] (Ha & Hlc & Hc). destruct (H _ Ha) as [E _].
  unfold slice_ok. rewrite E. repeat split; lia.
Qed.

Lemma view_unchanged W h h' s n :
  unchanged_except W h h' -> s_arr s < length h ->
  (forall i, s_off s <= i < s_off s + n -> ~ W (s_arr s) i) ->
  view h' s n = view h s n.
Proof.
  intros [L H] Ha HW. unfold view. apply bytes_at_ext. intros i Hi.
  destruct (H _ Ha) as [_ F]. apply F, HW. lia.
Qed.
End HeapFacts.

(** *** The slice primitives *)
Section Primitives.
Implicit Types (h : heap) (s dst src : slice).

Lemma slice_from_eq s (i : nat) h :
  (i <= s_len s)%nat -> slice_from s (Z.of_nat i) h = Some (sfrom s i, h).
Proof.
  intros H. unfold slice_from. rewrite decide_True by lia.
  unfold ret, sfrom. rewrite Nat2Z.id. reflexivity.
Qed.

Lemma slice_from_panics s i h :
  ~ (0 <= i <= Z.of_nat (s_len s)) -> slice_from s i h = None.
Proof. intros H. unfold slice_from. rewrite decide_False by exact H. reflexivity. Qed.

Lemma slice_to_eq s (n : nat) h :
  (n <= s_cap s)%nat -> slice_to s (Z.of_nat n) h = Some (sto s n, h).
Proof.
  intros H. unfold slice_to. rewrite decide_True by lia.
  unfold ret, sto. rewrite Nat2Z.id. reflexivity.
Qed.

Lemma slice_to_panics s n h :
  ~ (0 <= n <= Z.of_nat (s_cap s)) -> slice_to s n h = None.
Proof. intros H. unfold slice_to. rewrite decide_False by exact H. reflexivity. Qed.

Lemma sfrom_ok h s i : slice_ok h s -> (i <= s_len s)%nat -> slice_ok h (sfrom s i).
Proof. intros (Ha & Hl & Hc) Hi. unfold slice_ok, sfrom. simpl. repeat split; lia. Qed.

Lemma sto_ok h s n : slice_ok h s -> (n <= s_cap s)%nat -> slice_ok h (sto s n).
Proof. intros (Ha & Hl & Hc) Hi. unfold slice_ok, sto. simpl. repeat split; lia. Qed.

Lemma view_sfrom h s i n : view h (sfrom s i) n = bytes_at h (s_arr s) (s_off s + i) n.
Proof. reflexivity. Qed.

Lemma view_sto h s m n : view h (sto s m) n = view h s n.
Proof. reflexivity. Qed.

Lemma make_bytes_eq (n : nat) h :
  make_bytes (Z.of_nat n) h = Some (Slice (length h) 0 n n, h ++ [replicate n 0]).
Proof. unfold make_bytes. rewrite decide_True by lia. rewrite Nat2Z.id. reflexivity. Qed.

Lemma index_get_eq h s (i : nat) :
  slice_ok h s -> (i < s_len s)%nat ->
  index_get s (Z.of_nat i) h = Some ((h !!! s_arr s) !!! (s_off s + i)%nat, h).
Proof.
  intros (Ha & Hl & Hc) Hi. unfold index_get. rewrite decide_True by lia.
  rewrite (heap_lookup _ _ Ha), Nat2Z.id.
  rewrite (list_lookup_lookup_total_lt (h !!! s_arr s)) by lia. reflexivity.
Qed.

Lemma index_get_view h s (i n : nat) :
  slice_ok h s -> (i < s_len s)%nat -> (i < n)%nat -> (n <= s_cap s)%nat ->
  index_get s (Z.of_nat i) h = Some (view h s n !!! i, h).
Proof.
  intros Hok Hi Hn Hc. rewrite index_get_eq by assumption.
  destruct Hok as (Ha & Hl & Hcap).
  f_equal. f_equal. symmetry. apply list_lookup_total_correct.
  unfold view. rewrite lookup_bytes_at by exact Hn.
  apply list_lookup_lookup_total_lt. lia.
Qed.

Lemma index_get_panics h s i :
  ~ (0 <= i < Z.of_nat (s_len s)) -> index_get s i h = None.
Proof. intros H. unfold index_get. rewrite decide_False by exact H. reflexivity. Qed.

Lemma index_set_eq h s (i : nat) v :
  slice_ok h s -> (i < s_len s)%nat ->
  index_set s (Z.of_nat i) v h = Some (tt, put h (s_arr s) (s_off s + i) [v]).
Proof.
  intros (Ha & Hl & Hc) Hi. unfold index_set. rewrite decide_True by lia.
  rewrite (heap_lookup _ _ Ha), Nat2Z.id. rewrite decide_True by lia.
  unfold put. rewrite splice_insert by lia. reflexivity.
Qed.

Lemma slice_bytes_eq h s :
  slice_ok h s -> slice_bytes s h = Some (view h s (s_len s), h).
Proof.
  intros (Ha & Hl & Hc). unfold slice_bytes.
  rewrite (heap_lookup _ _ Ha). rewrite decide_True by lia. reflexivity.
Qed.

Lemma write_bytes_eq h s d :
  slice_ok h s -> (length d <= s_len s)%nat ->
  write_bytes s d h = Some (Z.of_nat (length d), put h (s_arr s) (s_off s) d).
Proof.
  intros (Ha & Hl & Hc) Hd. unfold write_bytes.
  rewrite (heap_lookup _ _ Ha). rewrite Nat.min_r by lia.
  rewrite decide_True by lia. rewrite take_ge by lia. reflexivity.
Qed.

Lemma slice_ok_put h s a off d :
  (a < length h)%nat -> (off + length d <= length (h !!! a))%nat ->
  slice_ok h s -> slice_ok (put h a off d) s.
Proof.
  intros Ha Hd. apply (slice_ok_unchanged (fun _ _ => True)).
  apply unchanged_put; auto.
Qed.

Lemma length_view h s n :
  slice_ok h s -> (n <= s_cap s)%nat -> length (view h s n) = n.
Proof. intros (Ha & Hl & Hc) Hn. apply length_bytes_at. lia. Qed.

Lemma blockCopy_eq h dst src (n : nat) :
  slice_ok h dst -> slice_ok h src ->
  (n <= s_cap src)%nat -> (n <= s_len dst)%nat ->
  blockCopy dst src (Z.of_nat n) h =
    Some (tt, put h (s_arr dst) (s_off dst) (view h src n)).
Proof.
  intros Hd Hs Hn Hl. unfold blockCopy.
  rewrite (bind_Some _ _ _ _ _ (slice_to_eq src n h Hn)).
  unfold copy.
  assert (Hs' : slice_ok h (sto src n)) by (apply sto_ok; assumption).
  erewrite bind_Some; [|erewrite bind_Some; [|apply slice_bytes_eq, Hs']].
  2:{ apply write_bytes_eq; [exact Hd|]. simpl. rewrite length_view; assumption. }
  simpl. unfold ret. rewrite view_sto. reflexivity.
Qed.

Lemma blockCopy_panics h dst src n :
  ~ (0 <= n <= Z.of_nat (s_cap src)) -> blockCopy dst src n h = None.
Proof.
  intros H. unfold blockCopy. apply bind_None, slice_to_panics, H.
Qed.
End Primitives.

Section Xor.
Implicit Types (h : heap) (s dst src : slice).
Local Open Scope nat_scope.

Lemma bytes_at_one h a off :
  off < length (h !!! a) -> bytes_at h a off 1 = [(h !!! a) !!! off].
Proof.
  intros H. apply list_eq. intros [|i].
  - rewrite lookup_bytes_at by lia. rewrite Nat.add_0_r. simpl.
    apply list_lookup_lookup_total_lt, H.
  - unfold bytes_at. rewrite lookup_take_ge by lia. reflexivity.
Qed.

Lemma put_get_out h a off d a' i :
  a < length h -> off + length d <= length (h !!! a) ->
  a' <> a \/ i < off \/ off + length d <= i ->
  (put h a off d !!! a') !!! i = (h !!! a') !!! i.
Proof.
  intros Ha Hd Hout. rewrite !(list_lookup_total_alt (_ !!! a')). f_equal.
  destruct (decide (a' = a)) as [->|Hne].
  - rewrite put_same by exact Ha. apply lookup_splice_out; [exact Hd|].
    destruct Hout as [?|?]; [congruence|assumption].
  - rewrite put_other by congruence. reflexivity.
Qed.

Lemma length_xor_bytes a b : length (Spec.xor_bytes a b) = Nat.min (length a) (length b).
Proof. apply length_zip_with. Qed.

Lemma xor_bytes_snoc a b x y :
  length a = length b ->
  Spec.xor_bytes (a ++ [x]) (b ++ [y]) = Spec.xor_bytes a b ++ [Z.lxor x y].
Proof. intros H. unfold Spec.xor_bytes. rewrite zip_with_app by exact H. reflexivity. Qed.

Lemma view_snoc h s n :
  slice_ok h s -> n < s_cap s ->
  view h s (S n) = view h s n ++ [(h !!! s_arr s) !!! (s_off s + n)].
Proof.
  intros (Ha & Hl & Hc) Hn. unfold view.
  replace (S n) with (n + 1) by lia. rewrite bytes_at_app.
  rewrite bytes_at_one by lia. reflexivity.
Qed.

Lemma blockXOR_eq h dst src n :
  slice_ok h dst -> slice_ok h src ->
  n <= s_cap src -> n <= s_len dst -> sep dst n src n ->
  blockXOR dst src (Z.of_nat n) h =
    Some (tt, put h (s_arr dst) (s_off dst)
                (Spec.xor_bytes (view h dst n) (view h src n))).
Proof.
  intros Hd Hs Hn Hl Hsep. unfold blockXOR.
  rewrite (bind_Some _ _ _ _ _ (slice_to_eq src n h Hn)).
  change (s_len (sto src n)) with n.
  pose (I := fun (i : Z) (h' : heap) =>
    h' = put h (s_arr dst) (s_off dst)
           (Spec.xor_bytes (view h dst (Z.to_nat i)) (view h src (Z.to_nat i)))).
  assert (Hda : s_arr dst < length h) by apply Hd.
  assert (Hdc : s_off dst + s_cap dst <= length (h !!! s_arr dst)) by apply Hd.
  assert (Hdl : s_len dst <= s_cap dst) by apply Hd.
  assert (Hsc : s_off src + s_cap src <= length (h !!! s_arr src)) by apply Hs.
  destruct (for_range_inv I (fun i =>
      let* v := index_get (sto src n) i in
      let* d := index_get dst i in
      index_set dst i (Z.lxor d v)) 0%Z (Z.of_nat n) h) as (h' & E & HI).
  - lia.
  - unfold I. change (Z.to_nat 0) with 0. unfold view, bytes_at.
    rewrite !take_0. symmetry. apply put_nil; [exact Hda|lia].
  - intros i h0 Hi HI. unfold I in HI.
    set (k := Z.to_nat i) in *. replace i with (Z.of_nat k) by lia.
    assert (Hk : k < n) by lia.
    set (D := Spec.xor_bytes (view h dst k) (view h src k)) in *.
    assert (HD : length D = k).
    { unfold D. rewrite length_xor_bytes, !length_view by (assumption || lia). lia. }
    assert (Hok0 : forall s, slice_ok h s -> slice_ok h0 s).
    { intros s Hs0. subst h0. apply slice_ok_put; [exact Hda|lia|exact Hs0]. }
    rewrite (bind_Some _ _ _ _ _
               (index_get_eq h0 (sto src n) k (Hok0 _ (sto_ok _ _ _ Hs Hn)) Hk)).
    rewrite (bind_Some _ _ _ _ _ (index_get_eq h0 dst k (Hok0 _ Hd) ltac:(lia))).
    rewrite index_set_eq by (auto; lia).
    eexists. split; [reflexivity|]. unfold I.
    replace (Z.to_nat (Z.of_nat k + 1)) with (S k) by lia.
    rewrite !view_snoc by (assumption || lia).
    rewrite xor_bytes_snoc by (rewrite !length_view by (assumption || lia); lia).
    fold D. subst h0. simpl s_arr. simpl s_off.
    assert (Es : (put h (s_arr dst) (s_off dst) D !!! s_arr src) !!! (s_off src + k)
                 = (h !!! s_arr src) !!! (s_off src + k)).
    { apply put_get_out; [exact Hda|rewrite HD; lia|]. rewrite HD.
      destruct Hsep as [?|[?|?]]; [left; congruence|right; right; lia|right; left; lia]. }
    assert (Ed : (put h (s_arr dst) (s_off dst) D !!! s_arr dst) !!! (s_off dst + k)
                 = (h !!! s_arr dst) !!! (s_off dst + k)).
    { apply put_get_out; [exact Hda|rewrite HD; lia|]. rewrite HD. right; right; lia. }
    rewrite Es, Ed.
    rewrite <- put_put by (rewrite ?HD; simpl; lia || assumption).
    rewrite HD. reflexivity.
  - rewrite E. unfold I in HI. rewrite Nat2Z.id in HI. rewrite HI. reflexivity.
Qed.

Lemma blockXOR_panics h dst src n :
  ~ (0 <= n <= Z.of_nat (s_cap src))%Z -> blockXOR dst src n h = None.
Proof.
  intros H. unfold blockXOR. apply bind_None, slice_to_panics, H.
Qed.
End Xor.

(** *** Salsa20/8: the three codes compute [Salsa_code] *)

Lemma u32_add_comm a b : u32_add a b = u32_add b a.
Proof. unfold u32_add. f_equal. lia. Qed.

Lemma loop_body_same x :
  ScryptGo.salsa_loop_body x = ArrayVariant.salsa_loop_body x.
Proof.
  destruct x as [[[[[[[[[[[[[[[x0 x1] x2] x3] x4] x5] x6] x7] x8] x9] x10] x11] x12] x13] x14] x15].
  reflexivity.
Qed.

Lemma iter_ext {A} (f g : A -> A) n x :
  (forall y, f y = g y) -> Nat.iter n f x = Nat.iter n g x.
Proof. intros H. induction n as [|n IH]; simpl; [reflexivity|]. rewrite IH. apply H. Qed.

Lemma list16 (w : list Z) :
  length w = 16%nat ->
  exists x0 x1 x2 x3 x4 x5 x6 x7 x8 x9 x10 x11 x12 x13 x14 x15,
    w = [x0; x1; x2; x3; x4; x5; x6; x7; x8; x9; x10; x11; x12; x13; x14; x15].
Proof.
  intros H.
  do 16 (destruct w as [|? w]; [discriminate H|]).
  destruct w; [|discriminate H]. repeat eexists.
Qed.

Lemma words_of_tuple_of_words w :
  length w = 16%nat -> words_of_tuple (tuple_of_words w) = w.
Proof.
  intros H. destruct (list16 w H) as (x0&x1&x2&x3&x4&x5&x6&x7&x8&x9&x10&x11&x12&x13&x14&x15&->).
  reflexivity.
Qed.

Lemma length_words_of_tuple x : length (words_of_tuple x) = 16%nat.
Proof.
  destruct x as [[[[[[[[[[[[[[[x0 x1] x2] x3] x4] x5] x6] x7] x8] x9] x10] x11] x12] x13] x14] x15].
  reflexivity.
Qed.

Lemma tuple_of_words_of_tuple x : tuple_of_words (words_of_tuple x) = x.
Proof.
  destruct x as [[[[[[[[[[[[[[[x0 x1] x2] x3] x4] x5] x6] x7] x8] x9] x10] x11] x12] x13] x14] x15].
  reflexivity.
Qed.

(** The rounds on an array of words ([RotVariant]) and on sixteen locals. *)
Lemma rot_body_tuple w :
  length w = 16%nat ->
  RotVariant.salsa_loop_body w =
    words_of_tuple (ArrayVariant.salsa_loop_body (tuple_of_words w)).
Proof.
  intros H. destruct (list16 w H) as (x0&x1&x2&x3&x4&x5&x6&x7&x8&x9&x10&x11&x12&x13&x14&x15&->).
  reflexivity.
Qed.

Lemma rot_iter_tuple n w :
  length w = 16%nat ->
  Nat.iter n RotVariant.salsa_loop_body w =
    words_of_tuple (Nat.iter n ArrayVariant.salsa_loop_body (tuple_of_words w)).
Proof.
  intros H. induction n as [|n IH]; simpl.
  - symmetry. apply words_of_tuple_of_words, H.
  - rewrite IH. rewrite rot_body_tuple by apply length_words_of_tuple.
    rewrite tuple_of_words_of_tuple. reflexivity.
Qed.

Lemma length_salsa_words w : length w = 16%nat -> length (salsa_words w) = 16%nat.
Proof.
  intros H. unfold salsa_words. rewrite length_zip_with, length_words_of_tuple, H.
  reflexivity.
Qed.

Lemma length_concat_enc32 ws : length (concat (map enc32 ws)) = (4 * length ws)%nat.
Proof. induction ws as [|v ws IH]; simpl; [reflexivity|]. rewrite IH. lia. Qed.

Lemma length_Salsa_code l : length (Salsa_code l) = 64%nat.
Proof.
  unfold Salsa_code. rewrite length_concat_enc32, length_salsa_words; [reflexivity|].
  reflexivity.
Qed.

Lemma array_salsa_code l :
  length l = 64%nat -> ArrayVariant.salsa l = Salsa_code l.
Proof.
  intros H.
  do 64 (destruct l as [|? l]; [discriminate H|]).
  destruct l; [|discriminate H]. clear H.
  unfold ArrayVariant.salsa, Salsa_code, salsa_words.
  cbv zeta.
  match goal with
  | |- context [Nat.iter 4 ArrayVariant.salsa_loop_body ?t1] =>
      match goal with
      | |- _ = ?R =>
          match R with
          | context [Nat.iter 4 ArrayVariant.salsa_loop_body ?t2] => change t2 with t1
          end
      end
  end.
  match goal with
  | |- context [Nat.iter 4 ArrayVariant.salsa_loop_body ?t1] =>
      generalize (Nat.iter 4 ArrayVariant.salsa_loop_body t1)
  end.
  intros x.
  destruct x as [[[[[[[[[[[[[[[x0 x1] x2] x3] x4] x5] x6] x7] x8] x9] x10] x11] x12] x13] x14] x15].
  reflexivity.
Qed.

(** Side conditions of the form [min_int s <= e <= max_int s]. *)
Ltac int_bound :=
  match goal with
  | |- _ <= _ <= max_int ?s =>
      pose proof (max_int_ge s); pose proof (min_int_le s); (lia || nia)
  end.

Section SalsaHeap.
Variable isz : IntSize.
Implicit Types (h : heap) (b s : slice).

Lemma int_mul_small (x y : Z) :
  min_int isz <= x * y <= max_int isz -> int_mul isz x y = x * y.
Proof. intros H. apply int_wrap_id, H. Qed.

Lemma int_add_small (x y : Z) :
  min_int isz <= x + y <= max_int isz -> int_add isz x y = x + y.
Proof. intros H. apply int_wrap_id, H. Qed.

Lemma int_sub_small (x y : Z) :
  min_int isz <= x - y <= max_int isz -> int_sub isz x y = x - y.
Proof. intros H. apply int_wrap_id, H. Qed.

(** Four consecutive byte stores are one write of four bytes. *)
Lemma index_set4 {A} h s (i : nat) v0 v1 v2 v3 (k : unit -> M A) :
  slice_ok h s -> (i + 3 < s_len s)%nat ->
  bind (index_set s (Z.of_nat i) v0) (fun _ =>
  bind (index_set s (Z.of_nat i + 1) v1) (fun _ =>
  bind (index_set s (Z.of_nat i + 2) v2) (fun _ =>
  bind (index_set s (Z.of_nat i + 3) v3) k))) h =
  k tt (put h (s_arr s) (s_off s + i) [v0; v1; v2; v3]).
Proof.
  intros Hok Hi.
  assert (Ha : (s_arr s < length h)%nat) by apply Hok.
  assert (Hc : (s_off s + s_cap s <= length (h !!! s_arr s))%nat) by apply Hok.
  assert (Hl : (s_len s <= s_cap s)%nat) by apply Hok.
  replace (Z.of_nat i + 1) with (Z.of_nat (i + 1)) by lia.
  replace (Z.of_nat i + 2) with (Z.of_nat (i + 2)) by lia.
  replace (Z.of_nat i + 3) with (Z.of_nat (i + 3)) by lia.
  rewrite (bind_Some _ _ _ _ _ (index_set_eq h s i v0 Hok ltac:(lia))).
  set (h1 := put h (s_arr s) (s_off s + i) [v0]).
  assert (Hok1 : slice_ok h1 s) by (apply slice_ok_put; simpl; auto; lia).
  rewrite (bind_Some _ _ _ _ _ (index_set_eq h1 s (i + 1) v1 Hok1 ltac:(lia))).
  subst h1. replace (s_off s + (i + 1))%nat with (s_off s + i + length [v0])%nat
    by (simpl; lia).
  rewrite put_put by (simpl; auto; lia). simpl app.
  set (h2 := put h (s_arr s) (s_off s + i) [v0; v1]).
  assert (Hok2 : slice_ok h2 s) by (apply slice_ok_put; simpl; auto; lia).
  rewrite (bind_Some _ _ _ _ _ (index_set_eq h2 s (i + 2) v2 Hok2 ltac:(lia))).
  subst h2. replace (s_off s + (i + 2))%nat with (s_off s + i + length [v0; v1])%nat
    by (simpl; lia).
  rewrite put_put by (simpl; auto; lia). simpl app.
  set (h3 := put h (s_arr s) (s_off s + i) [v0; v1; v2]).
  assert (Hok3 : slice_ok h3 s) by (apply slice_ok_put; simpl; auto; lia).
  rewrite (bind_Some _ _ _ _ _ (index_set_eq h3 s (i + 3) v3 Hok3 ltac:(lia))).
  subst h3. replace (s_off s + (i + 3))%nat with (s_off s + i + length [v0; v1; v2])%nat
    by (simpl; lia).
  rewrite put_put by (simpl; auto; lia). reflexivity.
Qed.

Lemma insert_next (pre : list Z) (k m : nat) v :
  length pre = k ->
  <[k := v]> (pre ++ replicate (S m) 0) = (pre ++ [v]) ++ replicate m 0.
Proof.
  intros H. rewrite insert_app_r_alt by lia. rewrite H, Nat.sub_diag.
  rewrite <- app_assoc. reflexivity.
Qed.

Lemma decoded_prefix_next (l : list Z) (k : nat) :
  (k < 16)%nat ->
  <[k := dec32 l k]> (map (dec32 l) (seq 0 k) ++ replicate (16 - k) 0) =
  map (dec32 l) (seq 0 (S k)) ++ replicate (16 - S k) 0.
Proof.
  intros Hk. replace (16 - k)%nat with (S (16 - S k)) by lia.
  rewrite insert_next by (rewrite length_map, length_seq; reflexivity).
  rewrite seq_S, map_app. reflexivity.
Qed.

Lemma concat_enc32_next (w : list Z) (k : nat) v :
  w !! k = Some v ->
  concat (map enc32 (take (S k) w)) = concat (map enc32 (take k w)) ++ enc32 v.
Proof.
  intros H. rewrite (take_S_r _ _ _ H), map_app, concat_app. reflexivity.
Qed.
End SalsaHeap.

(** Integer expressions that cannot overflow lose their wrap-around. *)
Ltac int_norm :=
  repeat match goal with
    | |- context [int_mul ?s ?a ?b] => rewrite (int_mul_small s a b) by int_bound
    | |- context [int_add ?s ?a ?b] => rewrite (int_add_small s a b) by int_bound
    | |- context [int_sub ?s ?a ?b] => rewrite (int_sub_small s a b) by int_bound
    end.

Section SalsaScryptGo.
Variable isz : IntSize.
Implicit Types (h : heap) (b s : slice).

Lemma scryptgo_decode h b :
  slice_ok h b -> (64 <= s_len b)%nat ->
  for_state 0 16 (fun i w =>
      let j := int_mul isz i 4 in
      let* b0 := index_get b j in
      let* b1 := index_get b (int_add isz j 1) in
      let* b2 := index_get b (int_add isz j 2) in
      let* b3 := index_get b (int_add isz j 3) in
      ret (<[Z.to_nat i :=
             Z.lor (Z.lor (Z.lor b0 (u32_shl b1 8)) (u32_shl b2 16)) (u32_shl b3 24)]> w))
    (replicate 16 0) h
  = Some (map (dec32 (view h b 64)) (seq 0 16), h).
Proof.
  intros Hok Hlen. set (l := view h b 64).
  assert (Hcap : (64 <= s_cap b)%nat) by (destruct Hok as (_ & ? & _); lia).
  match goal with |- for_state 0 16 ?body _ _ = _ =>
    destruct (for_state_inv
      (fun i w h' => h' = h /\
         w = map (dec32 l) (seq 0 (Z.to_nat i)) ++ replicate (16 - Z.to_nat i) 0)
      body 0 16 (replicate 16 0) h) as (w & h' & E & -> & ->)
  end.
  - lia.
  - split; reflexivity.
  - intros i w h0 Hi [-> ->].
    set (k := Z.to_nat i). replace i with (Z.of_nat k) by lia.
    assert (Hk : (k < 16)%nat) by lia.
    cbv zeta.
    rewrite int_mul_small by int_bound.
    rewrite !int_add_small by int_bound.
    replace (Z.of_nat k * 4) with (Z.of_nat (4 * k)) by lia.
    replace (Z.of_nat (4 * k) + 1) with (Z.of_nat (4 * k + 1)) by lia.
    replace (Z.of_nat (4 * k) + 2) with (Z.of_nat (4 * k + 2)) by lia.
    replace (Z.of_nat (4 * k) + 3) with (Z.of_nat (4 * k + 3)) by lia.
    rewrite (bind_Some _ _ _ _ _ (index_get_view h b (4 * k) 64 Hok ltac:(lia) ltac:(lia) Hcap)).
    rewrite (bind_Some _ _ _ _ _ (index_get_view h b (4 * k + 1) 64 Hok ltac:(lia) ltac:(lia) Hcap)).
    rewrite (bind_Some _ _ _ _ _ (index_get_view h b (4 * k + 2) 64 Hok ltac:(lia) ltac:(lia) Hcap)).
    rewrite (bind_Some _ _ _ _ _ (index_get_view h b (4 * k + 3) 64 Hok ltac:(lia) ltac:(lia) Hcap)).
    eexists _, _. split; [reflexivity|]. split; [reflexivity|].
    fold l. fold (dec32 l k).
    replace (Z.to_nat (Z.of_nat k + 1)) with (S k) by lia.
    apply decoded_prefix_next, Hk.
  - rewrite E. change (Z.to_nat 16) with 16%nat. rewrite app_nil_r. reflexivity.
Qed.

Lemma encode_words h b (w : list Z) :
  slice_ok h b -> (4 * length w <= s_len b)%nat -> (length w <= 16)%nat ->
  range_array w 0 (fun _ v j =>
      index_set b (int_add isz j 0) (to_byte (u32_shr v 0)) ;;;
      index_set b (int_add isz j 1) (to_byte (u32_shr v 8)) ;;;
      index_set b (int_add isz j 2) (to_byte (u32_shr v 16)) ;;;
      index_set b (int_add isz j 3) (to_byte (u32_shr v 24)) ;;;
      ret (int_add isz j 4)) 0 h
  = Some (Z.of_nat (4 * length w),
          put h (s_arr b) (s_off b) (concat (map enc32 w))).
Proof.
  intros Hok Hlen Hw.
  assert (Ha : (s_arr b < length h)%nat) by apply Hok.
  assert (Hc : (s_off b + s_cap b <= length (h !!! s_arr b))%nat) by apply Hok.
  assert (Hl : (s_len b <= s_cap b)%nat) by apply Hok.
  match goal with |- range_array w 0 ?body _ _ = _ =>
    destruct (range_array_inv
      (fun k j h' => j = Z.of_nat (4 * k) /\
         h' = put h (s_arr b) (s_off b) (concat (map enc32 (take k w))))
      body w 0%nat 0 h) as (j & h' & E & -> & ->)
  end.
  - split; [reflexivity|]. rewrite take_0. simpl. symmetry. apply put_nil; [exact Ha|lia].
  - intros k v j h0 Hv [-> ->]. simpl Nat.add.
    assert (Hk : (k < length w)%nat) by (apply lookup_lt_Some in Hv; exact Hv).
    set (D := concat (map enc32 (take k w))).
    assert (HD : length D = (4 * k)%nat).
    { unfold D. rewrite length_concat_enc32, length_take. lia. }
    rewrite !int_add_small by int_bound.
    rewrite Z.add_0_r.
    rewrite index_set4.
    2:{ apply slice_ok_put; [exact Ha|lia|exact Hok]. }
    2:{ lia. }
    eexists _, _. split; [reflexivity|]. split; [lia|].
    rewrite (concat_enc32_next _ _ _ Hv). fold D.
    rewrite <- put_put by (rewrite ?HD; simpl; auto; lia).
    rewrite HD. unfold u32_shr at 1. rewrite Z.shiftr_0_r. reflexivity.
  - change (Z.of_nat 0) with 0 in E. rewrite E. simpl Nat.add.
    rewrite take_ge by lia. reflexivity.
Qed.

Lemma salsa_add_back_eq w x :
  length w = 16%nat ->
  ScryptGo.salsa_add_back w x = zip_with u32_add (words_of_tuple x) w.
Proof.
  intros H. destruct (list16 w H) as
    (w0&w1&w2&w3&w4&w5&w6&w7&w8&w9&w10&w11&w12&w13&w14&w15&->).
  destruct x as [[[[[[[[[[[[[[[x0 x1] x2] x3] x4] x5] x6] x7] x8] x9] x10] x11] x12] x13] x14] x15].
  cbn [ScryptGo.salsa_add_back words_of_tuple zip_with insert list_insert
       lookup_total list_lookup_total].
  rewrite !(u32_add_comm _ x0), !(u32_add_comm _ x1), !(u32_add_comm _ x2),
    !(u32_add_comm _ x3), !(u32_add_comm _ x4), !(u32_add_comm _ x5),
    !(u32_add_comm _ x6), !(u32_add_comm _ x7), !(u32_add_comm _ x8),
    !(u32_add_comm _ x9), !(u32_add_comm _ x10), !(u32_add_comm _ x11),
    !(u32_add_comm _ x12), !(u32_add_comm _ x13), !(u32_add_comm _ x14),
    !(u32_add_comm _ x15).
  reflexivity.
Qed.

Lemma scryptgo_salsa_eq h b :
  slice_ok h b -> (64 <= s_len b)%nat ->
  ScryptGo.salsa isz b h =
    Some (tt, put h (s_arr b) (s_off b) (Salsa_code (view h b 64))).
Proof.
  intros Hok Hlen. unfold ScryptGo.salsa.
  rewrite (bind_Some _ _ _ _ _ (scryptgo_decode h b Hok Hlen)).
  cbv zeta. unfold Salsa_code, salsa_words.
  set (W := map (dec32 (view h b 64)) (seq 0 16)).
  assert (HW : length W = 16%nat) by reflexivity.
  clearbody W.
  rewrite (iter_ext _ _ 4 _ loop_body_same).
  fold (tuple_of_words W).
  rewrite salsa_add_back_eq by exact HW.
  set (Y := zip_with u32_add _ W).
  assert (HY : length Y = 16%nat).
  { unfold Y. rewrite length_zip_with, length_words_of_tuple, HW. reflexivity. }
  rewrite (bind_Some _ _ _ _ _ (encode_words h b Y Hok ltac:(lia) ltac:(lia))).
  reflexivity.
Qed.
End SalsaScryptGo.

Section SalsaRot.
Variable isz : IntSize.
Implicit Types (h : heap) (b s : slice).

Lemma zip_with_u32_add_comm (u v : list Z) :
  zip_with u32_add u v = zip_with u32_add v u.
Proof.
  revert v. induction u as [|x u IH]; intros [|y v]; simpl; try reflexivity.
  rewrite IH, u32_add_comm. reflexivity.
Qed.

Lemma view_lookup_total h s (i n : nat) :
  (i < n)%nat -> (s_off s + n <= length (h !!! s_arr s))%nat ->
  view h s n !!! i = (h !!! s_arr s) !!! (s_off s + i)%nat.
Proof.
  intros Hi Hn. apply list_lookup_total_correct. unfold view.
  rewrite lookup_bytes_at by exact Hi. apply list_lookup_lookup_total_lt. lia.
Qed.

Lemma Uint32_eq h b (k : nat) :
  slice_ok h b -> (4 * k + 4 <= s_len b)%nat ->
  LittleEndian_Uint32 (sfrom b (4 * k)) h = Some (dec32 (view h b (s_len b)) k, h).
Proof.
  intros Hok Hk.
  assert (Hc : (s_off b + s_cap b <= length (h !!! s_arr b))%nat) by apply Hok.
  assert (Hl : (s_len b <= s_cap b)%nat) by apply Hok.
  assert (Hs : slice_ok h (sfrom b (4 * k))) by (apply sfrom_ok; [exact Hok|lia]).
  unfold LittleEndian_Uint32.
  rewrite (bind_Some _ _ _ _ _ (index_get_eq h _ 3 Hs ltac:(simpl; lia))).
  rewrite (bind_Some _ _ _ _ _ (index_get_eq h _ 0 Hs ltac:(simpl; lia))).
  rewrite (bind_Some _ _ _ _ _ (index_get_eq h _ 1 Hs ltac:(simpl; lia))).
  rewrite (bind_Some _ _ _ _ _ (index_get_eq h _ 2 Hs ltac:(simpl; lia))).
  rewrite (bind_Some _ _ _ _ _ (index_get_eq h _ 3 Hs ltac:(simpl; lia))).
  unfold ret, dec32. rewrite !view_lookup_total by lia.
  cbn [s_arr s_off sfrom]. rewrite !Nat.add_assoc, Nat.add_0_r. reflexivity.
Qed.

Lemma dec32_take l (n k : nat) :
  (4 * k + 4 <= n)%nat -> dec32 (take n l) k = dec32 l k.
Proof.
  intros H. unfold dec32. rewrite !lookup_total_take_lt by lia. reflexivity.
Qed.

Lemma rot_decode h b :
  slice_ok h b -> (64 <= s_len b)%nat ->
  for_state 0 16 (fun i w =>
      let* s := slice_from b (int_mul isz i 4) in
      let* v := LittleEndian_Uint32 s in
      ret (<[Z.to_nat i := v]> w)) (replicate 16 0) h
  = Some (map (dec32 (view h b 64)) (seq 0 16), h).
Proof.
  intros Hok Hlen. set (l := view h b 64).
  match goal with |- for_state 0 16 ?body _ _ = _ =>
    destruct (for_state_inv
      (fun i w h' => h' = h /\
         w = map (dec32 l) (seq 0 (Z.to_nat i)) ++ replicate (16 - Z.to_nat i) 0)
      body 0 16 (replicate 16 0) h) as (w & h' & E & -> & ->)
  end.
  - lia.
  - split; reflexivity.
  - intros i w h0 Hi [-> ->].
    set (k := Z.to_nat i). replace i with (Z.of_nat k) by lia.
    assert (Hk : (k < 16)%nat) by lia.
    rewrite int_mul_small by int_bound.
    replace (Z.of_nat k * 4) with (Z.of_nat (4 * k)) by lia.
    rewrite (bind_Some _ _ _ _ _ (slice_from_eq b (4 * k) h ltac:(lia))).
    rewrite (bind_Some _ _ _ _ _ (Uint32_eq h b k Hok ltac:(lia))).
    eexists _, _. split; [reflexivity|]. split; [reflexivity|].
    replace (Z.to_nat (Z.of_nat k + 1)) with (S k) by lia.
    rewrite <- (dec32_take _ 64) by lia.
    unfold view. rewrite bytes_at_take by lia. fold (view h b 64). fold l.
    apply decoded_prefix_next, Hk.
  - rewrite E. change (Z.to_nat 16) with 16%nat. rewrite app_nil_r. reflexivity.
Qed.

Lemma PutUint32_eq h b (k : nat) v :
  slice_ok h b -> (4 * k + 4 <= s_len b)%nat ->
  LittleEndian_PutUint32 (sfrom b (4 * k)) v h =
    Some (tt, put h (s_arr b) (s_off b + 4 * k) (enc32 v)).
Proof.
  intros Hok Hk.
  assert (Hs : slice_ok h (sfrom b (4 * k))) by (apply sfrom_ok; [exact Hok|lia]).
  unfold LittleEndian_PutUint32.
  rewrite (bind_Some _ _ _ _ _ (index_get_eq h _ 3 Hs ltac:(simpl; lia))).
  transitivity
    (bind (index_set (sfrom b (4 * k)) (Z.of_nat 0) (to_byte v)) (fun _ =>
     bind (index_set (sfrom b (4 * k)) (Z.of_nat 0 + 1) (to_byte (u32_shr v 8))) (fun _ =>
     bind (index_set (sfrom b (4 * k)) (Z.of_nat 0 + 2) (to_byte (u32_shr v 16))) (fun _ =>
     bind (index_set (sfrom b (4 * k)) (Z.of_nat 0 + 3) (to_byte (u32_shr v 24))) ret))) h).
  { change (Z.of_nat 0 + 1) with 1. change (Z.of_nat 0 + 2) with 2.
    change (Z.of_nat 0 + 3) with 3. change (Z.of_nat 0) with 0.
    unfold bind.
    destruct (index_set (sfrom b (4 * k)) 0 (to_byte v) h) as [[[] h1]|]; [|reflexivity].
    destruct (index_set (sfrom b (4 * k)) 1 (to_byte (u32_shr v 8)) h1) as [[[] h2]|];
      [|reflexivity].
    destruct (index_set (sfrom b (4 * k)) 2 (to_byte (u32_shr v 16)) h2) as [[[] h3]|];
      [|reflexivity].
    destruct (index_set (sfrom b (4 * k)) 3 (to_byte (u32_shr v 24)) h3) as [[[] h4]|];
      reflexivity. }
  rewrite index_set4 by (exact Hs || (simpl; lia)).
  cbn [s_arr s_off sfrom]. rewrite Nat.add_0_r. reflexivity.
Qed.

Lemma rot_encode h b (w x : list Z) :
  slice_ok h b -> (4 * length w <= s_len b)%nat -> (length w <= 16)%nat ->
  length x = length w ->
  range_array w 0 (fun i v _ =>
      let* s := slice_from b (int_mul isz i 4) in
      LittleEndian_PutUint32 s (u32_add v (x !!! Z.to_nat i))) tt h
  = Some (tt, put h (s_arr b) (s_off b) (concat (map enc32 (zip_with u32_add w x)))).
Proof.
  intros Hok Hlen Hw Hx.
  assert (Ha : (s_arr b < length h)%nat) by apply Hok.
  assert (Hc : (s_off b + s_cap b <= length (h !!! s_arr b))%nat) by apply Hok.
  assert (Hl : (s_len b <= s_cap b)%nat) by apply Hok.
  set (Y := zip_with u32_add w x).
  assert (HY : length Y = length w).
  { unfold Y. rewrite length_zip_with. lia. }
  match goal with |- range_array w 0 ?body _ _ = _ =>
    destruct (range_array_inv
      (fun k (_ : unit) h' =>
         h' = put h (s_arr b) (s_off b) (concat (map enc32 (take k Y))))
      body w 0%nat tt h) as ([] & h' & E & ->)
  end.
  - rewrite take_0. simpl. symmetry. apply put_nil; [exact Ha|lia].
  - intros k v [] h0 Hv ->. simpl Nat.add.
    assert (Hk : (k < length w)%nat) by (apply lookup_lt_Some in Hv; exact Hv).
    set (D := concat (map enc32 (take k Y))).
    assert (HD : length D = (4 * k)%nat).
    { unfold D. rewrite length_concat_enc32, length_take. lia. }
    rewrite int_mul_small by int_bound.
    replace (Z.of_nat k * 4) with (Z.of_nat (4 * k)) by lia.
    rewrite (bind_Some _ _ _ _ _ (slice_from_eq b (4 * k) _ ltac:(lia))).
    rewrite PutUint32_eq; [|apply slice_ok_put; [exact Ha|lia|exact Hok]|lia].
    eexists _, _. split; [reflexivity|].
    assert (HYk : Y !! k = Some (u32_add v (x !!! Z.to_nat (Z.of_nat k)))).
    { unfold Y. rewrite lookup_zip_with, Hv. simpl.
      rewrite Nat2Z.id. rewrite (list_lookup_lookup_total_lt x k) by lia. reflexivity. }
    rewrite (concat_enc32_next _ _ _ HYk). fold D.
    rewrite <- put_put by (rewrite ?HD; simpl; auto; lia).
    rewrite HD. reflexivity.
  - change (Z.of_nat 0) with 0 in E. rewrite E. simpl Nat.add.
    rewrite take_ge by lia. reflexivity.
Qed.

Lemma rot_salsa_eq h b :
  slice_ok h b -> (64 <= s_len b)%nat ->
  RotVariant.salsa isz b h =
    Some (tt, put h (s_arr b) (s_off b) (Salsa_code (view h b 64))).
Proof.
  intros Hok Hlen. unfold RotVariant.salsa.
  rewrite (bind_Some _ _ _ _ _ (rot_decode h b Hok Hlen)).
  cbv zeta. unfold Salsa_code, salsa_words.
  set (W := map (dec32 (view h b 64)) (seq 0 16)).
  assert (HW : length W = 16%nat) by reflexivity.
  clearbody W.
  rewrite rot_iter_tuple by exact HW.
  rewrite rot_encode; [|exact Hok|lia|lia|rewrite length_words_of_tuple; lia].
  rewrite zip_with_u32_add_comm. reflexivity.
Qed.
End SalsaRot.

(** *** BlockMix *)
Section BlockMixFacts.
Local Open Scope nat_scope.
Implicit Types (h : heap) (b y s : slice) (r : nat).

Lemma bytes_at_put_out h a off d a' off' n :
  a < length h -> off + length d <= length (h !!! a) ->
  a' <> a \/ off' + n <= off \/ off + length d <= off' ->
  bytes_at (put h a off d) a' off' n = bytes_at h a' off' n.
Proof.
  intros Ha Hd Hout. apply bytes_at_ext. intros i Hi.
  destruct (decide (a' = a)) as [->|Hne].
  - rewrite put_same by exact Ha. apply lookup_splice_out; [exact Hd|].
    destruct Hout as [?|[?|?]]; [congruence|left; lia|right; lia].
  - rewrite put_other by congruence. reflexivity.
Qed.

Lemma bytes_at_sub h a off N m n :
  m + n <= N -> bytes_at h a (off + m) n = take n (drop m (bytes_at h a off N)).
Proof.
  intros H. rewrite bytes_at_drop by lia. rewrite bytes_at_take by lia. reflexivity.
Qed.

Lemma span_put W h s (m : nat) d (N : nat) :
  slice_ok h s -> m + length d <= N -> N <= s_cap s ->
  (forall a i, span s N a i -> W a i) ->
  unchanged_except W h (put h (s_arr s) (s_off s + m) d).
Proof.
  intros (Ha & Hl & Hc) Hm HN HW. apply unchanged_put; [exact Ha|lia|].
  intros i Hi. apply HW. split; [reflexivity|lia].
Qed.

Lemma view_sep_unchanged h h' s1 n1 s2 n2 :
  unchanged_except (span s1 n1) h h' -> s_arr s2 < length h ->
  sep s1 n1 s2 n2 -> view h' s2 n2 = view h s2 n2.
Proof.
  intros Hun Ha Hsep. apply (view_unchanged _ _ _ _ _ Hun Ha).
  intros i Hi [Harr Hin]. destruct Hsep as [?|[?|?]]; [congruence|lia|lia].
Qed.

(** The feedback chain. *)
Lemma default_last_cons {A} (x x' c : A) cs :
  default x (last (c :: cs)) = default x' (last (c :: cs)).
Proof.
  revert c. induction cs as [|c' cs IH]; intros c; [reflexivity|]. apply (IH c').
Qed.

Lemma default_last_snoc {A} (x c : A) cs : default x (last (cs ++ [c])) = c.
Proof. rewrite last_snoc. reflexivity. Qed.

Lemma chain_snoc H X bs (blk : list Z) :
  Spec.chain H X (bs ++ [blk]) =
    Spec.chain H X bs ++ [H (Spec.xor_bytes (default X (last (Spec.chain H X bs))) blk)].
Proof.
  revert X. induction bs as [|b1 bs IH]; intros X; simpl; [reflexivity|].
  rewrite IH. f_equal. f_equal. f_equal. f_equal.
  destruct (Spec.chain H (H (Spec.xor_bytes X b1)) bs) as [|c cs] eqn:E; [reflexivity|].
  change (last (H (Spec.xor_bytes X b1) :: c :: cs)) with (last (c :: cs)).
  f_equal. apply default_last_cons.
Qed.

Lemma length_chain H X bs : length (Spec.chain H X bs) = length bs.
Proof. revert X. induction bs as [|b1 bs IH]; intros X; simpl; [reflexivity|]. rewrite IH. reflexivity. Qed.

Lemma chain_blocks X bs :
  Forall (fun c => length c = 64) (Spec.chain Salsa_code X bs).
Proof.
  revert X. induction bs as [|b1 bs IH]; intros X; simpl; constructor.
  - apply length_Salsa_code.
  - apply IH.
Qed.

Lemma length_concat_blocks (Ys : list (list Z)) :
  Forall (fun c => length c = 64) Ys -> length (concat Ys) = 64 * length Ys.
Proof.
  induction 1 as [|c Ys Hc _ IH]; simpl; [reflexivity|].
  rewrite length_app, IH, Hc. lia.
Qed.

Lemma sub_block_concat (Ys : list (list Z)) j :
  Forall (fun c => length c = 64) Ys -> j < length Ys ->
  Spec.sub_block (concat Ys) j = Ys !!! j.
Proof.
  intros HF. revert j. induction HF as [|c Ys Hc _ IH]; intros j Hj; simpl in Hj; [lia|].
  unfold Spec.sub_block in *. destruct j as [|j].
  - rewrite Nat.mul_0_r, drop_0. cbn [concat].
    rewrite take_app_length' by lia. reflexivity.
  - replace (64 * S j) with (length c + 64 * j) by lia.
    cbn [concat]. rewrite drop_app_add. rewrite IH by lia. reflexivity.
Qed.
End BlockMixFacts.

Section Permute.
Local Open Scope nat_scope.
Variable isz : IntSize.
Implicit Types (h : heap) (b y s : slice) (r : nat).

(** A loop that copies the 64-byte blocks [2k + c] of [y] to the blocks
    [base + k] of [b], for [k < r]. *)
Lemma copy_loop (body : Z -> M unit) h b y r base c :
  (forall k h0, k < r -> slice_ok h0 b -> slice_ok h0 y ->
     body (Z.of_nat k) h0 =
       Some (tt, put h0 (s_arr b) (s_off b + 64 * (base + k))
                   (bytes_at h0 (s_arr y) (s_off y + 64 * (2 * k + c)) 64))) ->
  slice_ok h b -> slice_ok h y ->
  64 * (base + r) <= 128 * r -> c <= 1 ->
  128 * r <= s_cap b -> 128 * r <= s_cap y ->
  sep b (128 * r) y (128 * r) ->
  exists h',
    for_range 0 (Z.of_nat r) body h = Some (tt, h') /\
    bytes_at h' (s_arr b) (s_off b + 64 * base) (64 * r) =
      concat (map (fun k => Spec.sub_block (view h y (128 * r)) (2 * k + c)) (seq 0 r)) /\
    unchanged_except (span (sfrom b (64 * base)) (64 * r)) h h'.
Proof.
  intros Hbody Hb Hy Hbase Hc Hcb Hcy Hsep.
  set (Y := view h y (128 * r)).
  set (W := span (sfrom b (64 * base)) (64 * r)).
  assert (Hsep' : forall i, s_off y <= i < s_off y + 128 * r -> ~ W (s_arr y) i).
  { intros i Hi [Ha Hin]. cbn [s_arr s_off sfrom] in Ha, Hin.
    destruct Hsep as [?|[?|?]]; [congruence|lia|lia]. }
  destruct (for_range_inv
    (fun i hi => unchanged_except W h hi /\
       bytes_at hi (s_arr b) (s_off b + 64 * base) (64 * Z.to_nat i) =
         concat (map (fun k => Spec.sub_block Y (2 * k + c)) (seq 0 (Z.to_nat i))))
    body 0%Z (Z.of_nat r) h) as (h' & E & Hun & Hv).
  - lia.
  - split; [apply unchanged_refl|]. reflexivity.
  - intros i hi Hi [Hun Hv].
    set (k := Z.to_nat i) in *. replace i with (Z.of_nat k) by lia.
    assert (Hk : k < r) by lia.
    assert (Hb' : slice_ok hi b) by (apply (slice_ok_unchanged _ _ _ _ Hun), Hb).
    assert (Hy' : slice_ok hi y) by (apply (slice_ok_unchanged _ _ _ _ Hun), Hy).
    rewrite (Hbody k hi Hk Hb' Hy').
    eexists. split; [reflexivity|].
    assert (Hdata : bytes_at hi (s_arr y) (s_off y + 64 * (2 * k + c)) 64 =
                    Spec.sub_block Y (2 * k + c)).
    { unfold Spec.sub_block, Y, view.
      rewrite <- (bytes_at_sub _ _ _ (128 * r)) by lia.
      apply bytes_at_ext. intros j Hj. destruct Hun as [_ Hun].
      destruct (Hun (s_arr y)) as [_ F]; [apply Hy|]. apply F, Hsep'. lia. }
    rewrite Hdata.
    set (D := Spec.sub_block Y (2 * k + c)).
    assert (HD : length D = 64).
    { unfold D. rewrite <- Hdata. apply length_bytes_at.
      destruct Hy' as (_ & _ & ?). lia. }
    assert (Ha : s_arr b < length hi) by apply Hb'.
    assert (Hl : s_off b + s_cap b <= length (hi !!! s_arr b)) by apply Hb'.
    split.
    + apply (unchanged_trans _ _ _ _ Hun). apply unchanged_put; [exact Ha|lia|].
      intros j Hj. split; cbn [s_arr s_off sfrom]; [reflexivity|lia].
    + replace (Z.to_nat (Z.of_nat k + 1)) with (S k) by lia.
      replace (64 * S k) with (64 * k + 64) by lia.
      rewrite bytes_at_app, seq_S, map_app, concat_app.
      rewrite bytes_at_put_out by (auto; lia). rewrite Hv. f_equal.
      replace (s_off b + 64 * base + 64 * k) with (s_off b + 64 * (base + k)) by lia.
      pose proof (bytes_at_put_same hi (s_arr b) (s_off b + 64 * (base + k)) D Ha
                    ltac:(lia)) as P.
      rewrite HD in P. rewrite P. cbn [map concat]. rewrite app_nil_r. reflexivity.
  - exists h'. rewrite Nat2Z.id in Hv. auto.
Qed.

Lemma permute_loops h b y r :
  (128 * Z.of_nat r <= max_int isz)%Z ->
  slice_ok h b -> slice_ok h y ->
  128 * r <= s_len b -> 128 * r <= s_len y ->
  sep b (128 * r) y (128 * r) ->
  exists h',
    (for_range 0 (Z.of_nat r) (fun i =>
       let* bi := slice_from b (int_mul isz i 64) in
       let* yi := slice_from y (int_mul isz (int_mul isz i 2) 64) in
       blockCopy bi yi 64) ;;;
     for_range 0 (Z.of_nat r) (fun i =>
       let* bi := slice_from b (int_mul isz (int_add isz i (Z.of_nat r)) 64) in
       let* yi := slice_from y (int_mul isz (int_add isz (int_mul isz i 2) 1) 64) in
       blockCopy bi yi 64)) h = Some (tt, h') /\
    view h' b (128 * r) =
      concat (map (fun k => Spec.sub_block (view h y (128 * r)) (2 * k)) (seq 0 r)) ++
      concat (map (fun k => Spec.sub_block (view h y (128 * r)) (2 * k + 1)) (seq 0 r)) /\
    unchanged_except (span b (128 * r)) h h'.
Proof.
  intros Hr Hb Hy Hlb Hly Hsep.
  assert (Hcb : 128 * r <= s_cap b) by (destruct Hb as (_ & ? & _); lia).
  assert (Hcy : 128 * r <= s_cap y) by (destruct Hy as (_ & ? & _); lia).
  match goal with |- exists h', (for_range _ _ ?body1 ;;; for_range _ _ ?body2) _ = _ /\ _ =>
    destruct (copy_loop body1 h b y r 0 0) as (h1 & E1 & V1 & U1);
    [| exact Hb | exact Hy | lia | lia | exact Hcb | exact Hcy | exact Hsep |
     destruct (copy_loop body2 h1 b y r r 1) as (h2 & E2 & V2 & U2) ]
  end.
  - intros k h0 Hk Hb0 Hy0. cbv beta.
    int_norm.
    replace (Z.of_nat k * 64)%Z with (Z.of_nat (64 * k)) by lia.
    replace (Z.of_nat k * 2 * 64)%Z with (Z.of_nat (64 * (2 * k))) by lia.
    rewrite (bind_Some _ _ _ _ _ (slice_from_eq b (64 * k) h0 ltac:(lia))).
    rewrite (bind_Some _ _ _ _ _ (slice_from_eq y (64 * (2 * k)) h0 ltac:(lia))).
    change 64%Z with (Z.of_nat 64).
    rewrite blockCopy_eq.
    + rewrite view_sfrom. cbn [s_arr s_off sfrom].
      rewrite Nat.add_0_l, Nat.add_0_r. reflexivity.
    + apply sfrom_ok; [exact Hb0|lia].
    + apply sfrom_ok; [exact Hy0|lia].
    + cbn [s_cap sfrom]. lia.
    + cbn [s_len sfrom]. lia.
  - intros k h0 Hk Hb0 Hy0. cbv beta.
    int_norm.
    replace ((Z.of_nat k + Z.of_nat r) * 64)%Z with (Z.of_nat (64 * (r + k))) by lia.
    replace ((Z.of_nat k * 2 + 1) * 64)%Z with (Z.of_nat (64 * (2 * k + 1))) by lia.
    rewrite (bind_Some _ _ _ _ _ (slice_from_eq b (64 * (r + k)) h0 ltac:(lia))).
    rewrite (bind_Some _ _ _ _ _ (slice_from_eq y (64 * (2 * k + 1)) h0 ltac:(lia))).
    change 64%Z with (Z.of_nat 64).
    rewrite blockCopy_eq.
    + rewrite view_sfrom. cbn [s_arr s_off sfrom]. reflexivity.
    + apply sfrom_ok; [exact Hb0|lia].
    + apply sfrom_ok; [exact Hy0|lia].
    + cbn [s_cap sfrom]. lia.
    + cbn [s_len sfrom]. lia.
  - apply (slice_ok_unchanged _ _ _ _ U1), Hb.
  - apply (slice_ok_unchanged _ _ _ _ U1), Hy.
  - lia.
  - lia.
  - exact Hcb.
  - exact Hcy.
  - exact Hsep.
  - exists h2. split; [|split].
    + rewrite (bind_Some _ _ _ _ _ E1). exact E2.
    + unfold view. replace (128 * r) with (64 * r + 64 * r) at 1 by lia.
      rewrite bytes_at_app.
      rewrite V2. f_equal.
      * transitivity (bytes_at h1 (s_arr b) (s_off b + 64 * 0) (64 * r)).
        { rewrite Nat.mul_0_r, Nat.add_0_r.
          apply bytes_at_ext. intros j Hj. destruct U2 as [_ U2].
          destruct (U2 (s_arr b)) as [_ F].
          { destruct U1 as [L1 _]. destruct Hb as (? & _). lia. }
          apply F. intros [_ Hin]. cbn [s_arr s_off sfrom] in Hin. lia. }
        rewrite V1. f_equal. apply map_ext. intros k. f_equal. lia.
      * f_equal. apply map_ext. intros k. f_equal.
        apply (view_unchanged _ _ _ _ _ U1); [apply Hy|].
        intros i Hi [Ha Hin]. cbn [s_arr s_off sfrom] in Ha, Hin.
        destruct Hsep as [?|[?|?]]; [congruence|lia|lia].
    + apply (unchanged_trans _ h h1 h2).
      * apply (unchanged_mono (span (sfrom b (64 * 0)) (64 * r))); [|exact U1].
        intros a i [Ha Hin]. cbn [s_arr s_off sfrom] in Ha, Hin. split; [exact Ha|lia].
      * apply (unchanged_mono (span (sfrom b (64 * r)) (64 * r))); [|exact U2].
        intros a i [Ha Hin]. cbn [s_arr s_off sfrom] in Ha, Hin. split; [exact Ha|lia].
Qed.
End Permute.

Section ChainLoop.
Local Open Scope nat_scope.
Variable isz : IntSize.
Variable salsa : slice -> M unit.
Hypothesis salsa_ok : salsa_refines salsa.
Implicit Types (h : heap) (b x y s : slice) (r : nat).

Lemma chain_loop h x b y r X0 :
  (128 * Z.of_nat r <= max_int isz)%Z ->
  slice_ok h x -> slice_ok h b -> slice_ok h y ->
  64 <= s_len x -> 128 * r <= s_len b -> 128 * r <= s_len y ->
  s_arr x <> s_arr b -> s_arr x <> s_arr y ->
  sep b (128 * r) y (128 * r) ->
  view h x 64 = X0 ->
  exists h1,
    for_range 0 (int_mul isz 2 (Z.of_nat r)) (fun i =>
      let* bi := slice_from b (int_mul isz i 64) in
      blockXOR x bi 64 ;;;
      salsa x ;;;
      let* yi := slice_from y (int_mul isz i 64) in
      blockCopy yi x 64) h = Some (tt, h1) /\
    view h1 y (128 * r) =
      concat (Spec.chain Salsa_code X0
                (map (Spec.sub_block (view h b (128 * r))) (seq 0 (2 * r)))) /\
    unchanged_except (loc_union (span x 64) (span y (128 * r))) h h1.
Proof.
  intros Hr Hx Hb Hy Hlx Hlb Hly Hxb Hxy Hsep HX0.
  set (B := view h b (128 * r)).
  set (W := loc_union (span x 64) (span y (128 * r))).
  set (Ys := fun k => Spec.chain Salsa_code X0 (map (Spec.sub_block B) (seq 0 k))).
  assert (Hcb : 128 * r <= s_cap b) by (destruct Hb as (_ & ? & _); lia).
  assert (Hcy : 128 * r <= s_cap y) by (destruct Hy as (_ & ? & _); lia).
  assert (Hcx : 64 <= s_cap x) by (destruct Hx as (_ & ? & _); lia).
  assert (HWb : forall i, s_off b <= i < s_off b + 128 * r -> ~ W (s_arr b) i).
  { intros i Hi [[Ha _]|[Ha Hin]]; [congruence|].
    destruct Hsep as [?|[?|?]]; [congruence|lia|lia]. }
  assert (HB : forall hi k, unchanged_except W h hi -> k < 2 * r ->
             view hi (sfrom b (64 * k)) 64 = Spec.sub_block B k).
  { intros hi k Hun Hk. unfold Spec.sub_block, B, view. cbn [s_arr s_off sfrom].
    rewrite <- (bytes_at_sub _ _ _ (128 * r)) by lia.
    apply bytes_at_ext. intros j Hj. destruct Hun as [_ Hun].
    destruct (Hun (s_arr b)) as [_ F]; [apply Hb|]. apply F, HWb. lia. }
  rewrite int_mul_small by int_bound.
  replace (2 * Z.of_nat r)%Z with (Z.of_nat (2 * r)) by lia.
  destruct (for_range_inv
    (fun i hi => unchanged_except W h hi /\
       view hi y (64 * Z.to_nat i) = concat (Ys (Z.to_nat i)) /\
       view hi x 64 = default X0 (last (Ys (Z.to_nat i))))
    (fun i =>
      let* bi := slice_from b (int_mul isz i 64) in
      blockXOR x bi 64 ;;;
      salsa x ;;;
      let* yi := slice_from y (int_mul isz i 64) in
      blockCopy yi x 64) 0%Z (Z.of_nat (2 * r)) h) as (h1 & E & Hun & Hv & _).
  - lia.
  - split; [apply unchanged_refl|]. split; [reflexivity|exact HX0].
  - intros i hi Hi (Hun & Hvy & Hvx).
    set (k := Z.to_nat i) in *. replace i with (Z.of_nat k) by lia.
    assert (Hk : k < 2 * r) by lia.
    assert (Hx' : slice_ok hi x) by (apply (slice_ok_unchanged _ _ _ _ Hun), Hx).
    assert (Hb' : slice_ok hi b) by (apply (slice_ok_unchanged _ _ _ _ Hun), Hb).
    assert (Hy' : slice_ok hi y) by (apply (slice_ok_unchanged _ _ _ _ Hun), Hy).
    int_norm.
    replace (Z.of_nat k * 64)%Z with (Z.of_nat (64 * k)) by lia.
    rewrite (bind_Some _ _ _ _ _ (slice_from_eq b (64 * k) hi ltac:(lia))).
    change 64%Z with (Z.of_nat 64).
    rewrite (bind_Some _ _ _ _ _ (blockXOR_eq hi x (sfrom b (64 * k)) 64 Hx'
               (sfrom_ok hi b (64 * k) Hb' ltac:(lia)) ltac:(cbn [s_cap sfrom]; lia) Hlx
               ltac:(left; exact Hxb))).
    rewrite Hvx, (HB hi k Hun Hk).
    set (X1 := Spec.xor_bytes _ _).
    assert (HX1 : length X1 = 64).
    { unfold X1. rewrite length_xor_bytes. rewrite <- Hvx, <- (HB hi k Hun Hk).
      rewrite !length_view; [reflexivity| | | |]; auto.
      - apply sfrom_ok; [exact Hb'|lia].
      - cbn [s_cap sfrom]. lia. }
    assert (Hax : s_arr x < length hi) by apply Hx'.
    assert (Hox : s_off x + s_cap x <= length (hi !!! s_arr x)) by apply Hx'.
    set (ha := put hi (s_arr x) (s_off x) X1).
    assert (Hua : unchanged_except W hi ha).
    { apply unchanged_put; [exact Hax|lia|]. intros j Hj. left. split; [reflexivity|lia]. }
    assert (Hxa : slice_ok ha x) by (apply (slice_ok_unchanged _ _ _ _ Hua), Hx').
    rewrite (bind_Some _ _ _ _ _ (salsa_ok ha x Hxa Hlx)).
    assert (Hva : view ha x 64 = X1).
    { unfold view, ha. rewrite <- HX1 at 1. apply bytes_at_put_same; [exact Hax|lia]. }
    rewrite Hva.
    set (X2 := Salsa_code X1).
    assert (HX2 : length X2 = 64) by apply length_Salsa_code.
    set (hb := put ha (s_arr x) (s_off x) X2).
    assert (Hub : unchanged_except W ha hb).
    { apply unchanged_put; [apply Hxa|destruct Hxa as (_ & _ & ?); lia|].
      intros j Hj. left. split; [reflexivity|lia]. }
    assert (Hxb' : slice_ok hb x) by (apply (slice_ok_unchanged _ _ _ _ Hub), Hxa).
    assert (Hyb : slice_ok hb y).
    { apply (slice_ok_unchanged _ _ _ _ Hub), (slice_ok_unchanged _ _ _ _ Hua), Hy'. }
    rewrite (bind_Some _ _ _ _ _ (slice_from_eq y (64 * k) hb ltac:(lia))).
    rewrite (blockCopy_eq hb (sfrom y (64 * k)) x 64 (sfrom_ok hb y (64 * k) Hyb ltac:(lia))
               Hxb' Hcx ltac:(cbn [s_len sfrom]; lia)).
    assert (Hvb : view hb x 64 = X2).
    { unfold view, hb. rewrite <- HX2 at 1.
      apply bytes_at_put_same; [apply Hxa|destruct Hxa as (_ & _ & ?); lia]. }
    rewrite Hvb. cbn [s_arr s_off sfrom].
    set (hc := put hb (s_arr y) (s_off y + 64 * k) X2).
    assert (Huc : unchanged_except W hb hc).
    { apply unchanged_put; [apply Hyb|destruct Hyb as (_ & _ & ?); lia|].
      intros j Hj. right. split; [reflexivity|lia]. }
    eexists. split; [reflexivity|].
    replace (Z.to_nat (Z.of_nat k + 1)) with (S k) by lia.
    assert (HYs : Ys (S k) = Ys k ++ [X2]).
    { unfold Ys. rewrite seq_S, map_app. cbn [map]. rewrite chain_snoc. reflexivity. }
    split; [|split].
    + apply (unchanged_trans _ _ _ _ Hun), (unchanged_trans _ _ _ _ Hua),
        (unchanged_trans _ _ _ _ Hub), Huc.
    + rewrite HYs, concat_app. cbn [concat]. rewrite app_nil_r.
      unfold view. replace (64 * S k) with (64 * k + 64) by lia.
      rewrite bytes_at_app. f_equal.
      * unfold hc. rewrite bytes_at_put_out
          by (try apply Hyb; destruct Hyb as (_ & _ & ?); lia).
        unfold hb. rewrite bytes_at_put_out
          by (try apply Hxa; destruct Hxa as (_ & _ & ?); try lia; left; auto).
        unfold ha. rewrite bytes_at_put_out by (try lia; auto).
        exact Hvy.
      * unfold hc. rewrite <- HX2 at 1.
        apply bytes_at_put_same; [apply Hyb|destruct Hyb as (_ & _ & ?); lia].
    + rewrite HYs, default_last_snoc.
      unfold view, hc. rewrite bytes_at_put_out
        by (try apply Hyb; destruct Hyb as (_ & _ & ?); try lia; left; auto).
      exact Hvb.
  - exists h1. split; [exact E|]. split; [|exact Hun].
    rewrite Nat2Z.id in Hv. replace (128 * r) with (64 * (2 * r)) by lia. exact Hv.
Qed.
End ChainLoop.

Section BlockMixSlices.
Local Open Scope nat_scope.
Variable isz : IntSize.
Implicit Types (h : heap) (b x y s : slice) (r : nat).

(** The permutation of the chain's blocks is BlockMix. *)
Lemma permuted_chain r B :
  let Y := concat (Spec.chain Salsa_code (Spec.sub_block B (2 * r - 1))
                     (map (Spec.sub_block B) (seq 0 (2 * r)))) in
  concat (map (fun k => Spec.sub_block Y (2 * k)) (seq 0 r)) ++
  concat (map (fun k => Spec.sub_block Y (2 * k + 1)) (seq 0 r)) =
  BlockMix_code r B.
Proof.
  intros Y. unfold BlockMix_code, Spec.BlockMix_of.
  set (Ys := Spec.chain Salsa_code _ _) in *.
  assert (HL : length Ys = 2 * r).
  { unfold Ys. rewrite length_chain, length_map, length_seq. reflexivity. }
  f_equal; f_equal; apply map_ext_in; intros k Hk; apply in_seq in Hk;
    apply sub_block_concat; try apply chain_blocks; lia.
Qed.

Lemma fresh_slice_ok h (n : nat) :
  slice_ok (h ++ [replicate n 0%Z]) (Slice (length h) 0 n n).
Proof.
  unfold slice_ok. cbn [s_arr s_off s_len s_cap].
  rewrite length_app. cbn [length].
  rewrite list_lookup_total_middle by reflexivity. rewrite length_replicate. lia.
Qed.

Section WithSalsa.
Variable salsa : slice -> M unit.
Hypothesis salsa_ok : salsa_refines salsa.

Lemma blockMix_with_ok h b y r :
  1 <= r -> (128 * Z.of_nat r <= max_int isz)%Z ->
  slice_ok h b -> slice_ok h y ->
  128 * r <= s_len b -> 128 * r <= s_len y ->
  sep b (128 * r) y (128 * r) ->
  exists h',
    blockMix_with isz salsa b y (Z.of_nat r) h = Some (tt, h') /\
    view h' b (128 * r) = BlockMix_code r (view h b (128 * r)) /\
    unchanged_except (loc_union (span b (128 * r)) (span y (128 * r))) h h'.
Proof.
  intros Hr1 Hr Hb Hy Hlb Hly Hsep.
  assert (Hcb : 128 * r <= s_cap b) by (destruct Hb as (_ & ? & _); lia).
  assert (Hab : s_arr b < length h) by apply Hb.
  assert (Hay : s_arr y < length h) by apply Hy.
  unfold blockMix_with.
  change 64%Z with (Z.of_nat 64) at 1.
  rewrite (bind_Some _ _ _ _ _ (make_bytes_eq 64 h)).
  set (x := Slice (length h) 0 64 64).
  set (h0 := h ++ [replicate 64 0%Z]).
  assert (U0 : forall W, unchanged_except W h h0) by (intros W; apply unchanged_alloc).
  assert (Hx0 : slice_ok h0 x) by apply fresh_slice_ok.
  assert (Hb0 : slice_ok h0 b) by (apply (slice_ok_unchanged _ _ _ _ (U0 (fun _ _ => True))), Hb).
  assert (Hy0 : slice_ok h0 y) by (apply (slice_ok_unchanged _ _ _ _ (U0 (fun _ _ => True))), Hy).
  int_norm.
  replace ((2 * Z.of_nat r - 1) * 64)%Z with (Z.of_nat (64 * (2 * r - 1))) by lia.
  rewrite (bind_Some _ _ _ _ _ (slice_from_eq b (64 * (2 * r - 1)) h0 ltac:(lia))).
  change 64%Z with (Z.of_nat 64) at 1.
  rewrite (bind_Some _ _ _ _ _
             (blockCopy_eq h0 x (sfrom b (64 * (2 * r - 1))) 64 Hx0
                (sfrom_ok h0 b (64 * (2 * r - 1)) Hb0 ltac:(lia)) ltac:(cbn [s_cap sfrom]; lia)
                ltac:(cbn [s_len x]; lia))).
  set (B := view h b (128 * r)).
  assert (HX0 : view h0 (sfrom b (64 * (2 * r - 1))) 64 = Spec.sub_block B (2 * r - 1)).
  { unfold Spec.sub_block, B, view. cbn [s_arr s_off sfrom].
    rewrite <- (bytes_at_sub _ _ _ (128 * r)) by lia.
    apply bytes_at_ext. intros j Hj. unfold h0.
    rewrite lookup_total_app_l by exact Hab. reflexivity. }
  rewrite HX0. set (X0 := Spec.sub_block B (2 * r - 1)).
  assert (HLX0 : length X0 = 64).
  { unfold X0. rewrite <- HX0. apply length_view.
    - apply sfrom_ok; [exact Hb0|lia].
    - cbn [s_cap sfrom]. lia. }
  cbn [s_arr s_off x].
  set (h1 := put h0 (length h) 0 X0).
  assert (U1 : unchanged_except (span x 64) h0 h1).
  { apply unchanged_put; [apply Hx0|destruct Hx0 as (_ & _ & ?); cbn [s_arr s_off s_cap x] in *; lia|].
    intros j Hj. split; cbn [s_arr s_off x]; [reflexivity|lia]. }
  assert (Hx1 : slice_ok h1 x) by (apply (slice_ok_unchanged _ _ _ _ U1), Hx0).
  assert (Hb1 : slice_ok h1 b) by (apply (slice_ok_unchanged _ _ _ _ U1), Hb0).
  assert (Hy1 : slice_ok h1 y) by (apply (slice_ok_unchanged _ _ _ _ U1), Hy0).
  assert (Hvx1 : view h1 x 64 = X0).
  { unfold view, h1. cbn [s_arr s_off x]. rewrite <- HLX0 at 1.
    apply bytes_at_put_same; [apply Hx0|].
    destruct Hx0 as (_ & _ & ?). cbn [s_arr s_off s_cap x] in *. lia. }
  assert (HB1 : view h1 b (128 * r) = B).
  { unfold B. transitivity (view h0 b (128 * r)).
    - apply (view_unchanged _ _ _ _ _ U1); [apply Hb0|].
      intros i Hi [Ha _]. cbn [s_arr x] in Ha. lia.
    - apply (view_unchanged _ _ _ _ _ (U0 (fun _ _ => False))); [exact Hab|auto]. }
  destruct (chain_loop isz salsa salsa_ok h1 x b y r X0 Hr Hx1 Hb1 Hy1
              ltac:(cbn [s_len x]; lia) Hlb Hly
              ltac:(cbn [s_arr x]; lia) ltac:(cbn [s_arr x]; lia) Hsep Hvx1)
    as (h2 & E2 & Hv2 & U2).
  rewrite (int_mul_small isz 2) in E2 by int_bound.
  rewrite (bind_Some _ _ _ _ _ E2).
  rewrite HB1 in Hv2.
  assert (Hb2 : slice_ok h2 b) by (apply (slice_ok_unchanged _ _ _ _ U2), Hb1).
  assert (Hy2 : slice_ok h2 y) by (apply (slice_ok_unchanged _ _ _ _ U2), Hy1).
  destruct (permute_loops isz h2 b y r Hr Hb2 Hy2 Hlb Hly Hsep) as (h3 & E3 & Hv3 & U3).
  exists h3. split; [exact E3|]. split.
  - rewrite Hv3, Hv2. apply permuted_chain.
  - apply (unchanged_restrict
             (loc_union (span x 64) (loc_union (span b (128 * r)) (span y (128 * r))))).
    { intros a i Ha [[Hax _]|HW]; [cbn [s_arr x] in Hax; lia|exact HW]. }
    apply (unchanged_trans _ h h0); [apply U0|].
    apply (unchanged_trans _ h0 h1).
    { apply (unchanged_mono (span x 64)); [|exact U1].
      intros a i Hs. unfold loc_union. left; exact Hs. }
    apply (unchanged_trans _ h1 h2).
    { apply (unchanged_mono (loc_union (span x 64) (span y (128 * r)))); [|exact U2].
      unfold loc_union. intros a i [Hs|Hs]; [left; exact Hs|right; right; exact Hs]. }
    apply (unchanged_mono (span b (128 * r))); [|exact U3].
    unfold loc_union. intros a i Hs. right; left; exact Hs.
Qed.
End WithSalsa.
End BlockMixSlices.

Section BlockMixArray.
Local Open Scope nat_scope.
Variable isz : IntSize.
Implicit Types (h : heap) (b y s : slice) (r : nat) (x : list Z).

Lemma blockCopyToArr_eq h x src :
  slice_ok h src -> length x = 64 -> 64 <= s_len src ->
  ArrayVariant.blockCopyToArr x src h = Some (view h src 64, h).
Proof.
  intros Hs Hx Hl. unfold ArrayVariant.blockCopyToArr, copy_to_array.
  rewrite (bind_Some _ _ _ _ _ (slice_bytes_eq h src Hs)). unfold ret.
  rewrite Hx, Nat.min_l by lia. rewrite drop_ge by lia. rewrite app_nil_r.
  unfold view. rewrite bytes_at_take by lia. reflexivity.
Qed.

Lemma blockCopyFromArr_eq h dst x :
  slice_ok h dst -> length x <= s_len dst ->
  ArrayVariant.blockCopyFromArr dst x h = Some (tt, put h (s_arr dst) (s_off dst) x).
Proof.
  intros Hd Hx. unfold ArrayVariant.blockCopyFromArr.
  rewrite (bind_Some _ _ _ _ _ (write_bytes_eq h dst x Hd Hx)). reflexivity.
Qed.

Lemma xor_prefix_next (x v : list Z) k :
  k < length x -> k < length v ->
  <[k := Z.lxor ((Spec.xor_bytes (take k x) (take k v) ++ drop k x) !!! k) (v !!! k)]>
    (Spec.xor_bytes (take k x) (take k v) ++ drop k x) =
  Spec.xor_bytes (take (S k) x) (take (S k) v) ++ drop (S k) x.
Proof.
  intros Hx Hv.
  assert (HL : length (Spec.xor_bytes (take k x) (take k v)) = k).
  { rewrite length_xor_bytes, !length_take. lia. }
  rewrite lookup_total_app_r by lia. rewrite HL, Nat.sub_diag.
  rewrite insert_app_r_alt by lia. rewrite HL, Nat.sub_diag.
  rewrite lookup_total_drop, Nat.add_0_r.
  rewrite (take_S_r x k (x !!! k)) by (apply list_lookup_lookup_total_lt; lia).
  rewrite (take_S_r v k (v !!! k)) by (apply list_lookup_lookup_total_lt; lia).
  rewrite xor_bytes_snoc by (rewrite !length_take; lia).
  rewrite <- app_assoc. f_equal.
  rewrite (drop_S x (x !!! k) k) by (apply list_lookup_lookup_total_lt; lia).
  reflexivity.
Qed.

Lemma blockXORToArr_eq h x src :
  slice_ok h src -> length x = 64 -> 64 <= s_cap src ->
  ArrayVariant.blockXORToArr x src h = Some (Spec.xor_bytes x (view h src 64), h).
Proof.
  intros Hs Hx Hc. unfold ArrayVariant.blockXORToArr.
  change 64%Z with (Z.of_nat 64).
  rewrite (bind_Some _ _ _ _ _ (slice_to_eq src 64 h Hc)).
  change (s_len (sto src 64)) with 64.
  set (v := view h src 64).
  assert (Hv : length v = 64) by (apply length_view; assumption).
  destruct (for_state_inv
    (fun i xi hi => hi = h /\
       xi = Spec.xor_bytes (take (Z.to_nat i) x) (take (Z.to_nat i) v)
              ++ drop (Z.to_nat i) x)
    (fun i dst =>
       let* v := index_get (sto src 64) i in
       ret (<[Z.to_nat i := Z.lxor (dst !!! Z.to_nat i) v]> dst))
    0%Z (Z.of_nat 64) x h) as (x' & h' & E & -> & ->).
  - lia.
  - split; reflexivity.
  - intros i xi hi Hi [-> ->].
    set (k := Z.to_nat i) in *. replace i with (Z.of_nat k) by lia.
    assert (Hk : k < 64) by lia.
    rewrite (bind_Some _ _ _ _ _
               (index_get_view h (sto src 64) k 64 (sto_ok _ _ _ Hs Hc) Hk Hk Hc)).
    eexists _, _. split; [reflexivity|]. split; [reflexivity|].
    replace (Z.to_nat (Z.of_nat k + 1)) with (S k) by lia.
    rewrite view_sto. fold v. apply xor_prefix_next; lia.
  - rewrite E. rewrite Nat2Z.id. rewrite !take_ge, drop_ge by lia.
    rewrite app_nil_r. reflexivity.
Qed.

Lemma array_chain_loop h b y r X0 :
  (128 * Z.of_nat r <= max_int isz)%Z ->
  slice_ok h b -> slice_ok h y ->
  128 * r <= s_len b -> 128 * r <= s_len y ->
  sep b (128 * r) y (128 * r) ->
  length X0 = 64 ->
  exists x1 h1,
    for_state 0 (int_mul isz 2 (Z.of_nat r)) (fun i x =>
      let* bi := slice_from b (int_mul isz i 64) in
      let* x := ArrayVariant.blockXORToArr x bi in
      let x := ArrayVariant.salsa x in
      let* yi := slice_from y (int_mul isz i 64) in
      ArrayVariant.blockCopyFromArr yi x ;;;
      ret x) X0 h = Some (x1, h1) /\
    view h1 y (128 * r) =
      concat (Spec.chain Salsa_code X0
                (map (Spec.sub_block (view h b (128 * r))) (seq 0 (2 * r)))) /\
    unchanged_except (span y (128 * r)) h h1.
Proof.
  intros Hr Hb Hy Hlb Hly Hsep HLX0.
  set (B := view h b (128 * r)).
  set (W := span y (128 * r)).
  set (Ys := fun k => Spec.chain Salsa_code X0 (map (Spec.sub_block B) (seq 0 k))).
  assert (Hcb : 128 * r <= s_cap b) by (destruct Hb as (_ & ? & _); lia).
  assert (Hcy : 128 * r <= s_cap y) by (destruct Hy as (_ & ? & _); lia).
  assert (HWb : forall i, s_off b <= i < s_off b + 128 * r -> ~ W (s_arr b) i).
  { intros i Hi [Ha Hin]. destruct Hsep as [?|[?|?]]; [congruence|lia|lia]. }
  assert (HB : forall hi k, unchanged_except W h hi -> k < 2 * r ->
             view hi (sfrom b (64 * k)) 64 = Spec.sub_block B k).
  { intros hi k Hun Hk. unfold Spec.sub_block, B, view. cbn [s_arr s_off sfrom].
    rewrite <- (bytes_at_sub _ _ _ (128 * r)) by lia.
    apply bytes_at_ext. intros j Hj. destruct Hun as [_ Hun].
    destruct (Hun (s_arr b)) as [_ F]; [apply Hb|]. apply F, HWb. lia. }
  rewrite int_mul_small by int_bound.
  replace (2 * Z.of_nat r)%Z with (Z.of_nat (2 * r)) by lia.
  destruct (for_state_inv
    (fun i xi hi => unchanged_except W h hi /\
       view hi y (64 * Z.to_nat i) = concat (Ys (Z.to_nat i)) /\
       xi = default X0 (last (Ys (Z.to_nat i))) /\ length xi = 64)
    (fun i x =>
      let* bi := slice_from b (int_mul isz i 64) in
      let* x := ArrayVariant.blockXORToArr x bi in
      let x := ArrayVariant.salsa x in
      let* yi := slice_from y (int_mul isz i 64) in
      ArrayVariant.blockCopyFromArr yi x ;;;
      ret x) 0%Z (Z.of_nat (2 * r)) X0 h) as (x1 & h1 & E & Hun & Hv & _).
  - lia.
  - split; [apply unchanged_refl|]. split; [reflexivity|]. split; [reflexivity|exact HLX0].
  - intros i xi hi Hi (Hun & Hvy & Hxi & HLxi).
    set (k := Z.to_nat i) in *. replace i with (Z.of_nat k) by lia.
    assert (Hk : k < 2 * r) by lia.
    assert (Hb' : slice_ok hi b) by (apply (slice_ok_unchanged _ _ _ _ Hun), Hb).
    assert (Hy' : slice_ok hi y) by (apply (slice_ok_unchanged _ _ _ _ Hun), Hy).
    int_norm.
    replace (Z.of_nat k * 64)%Z with (Z.of_nat (64 * k)) by lia.
    rewrite (bind_Some _ _ _ _ _ (slice_from_eq b (64 * k) hi ltac:(lia))).
    rewrite (bind_Some _ _ _ _ _ (blockXORToArr_eq hi xi (sfrom b (64 * k))
               (sfrom_ok hi b (64 * k) Hb' ltac:(lia)) HLxi
               ltac:(cbn [s_cap sfrom]; lia))).
    rewrite (HB hi k Hun Hk). cbv zeta.
    set (X1 := Spec.xor_bytes _ _).
    assert (HX1 : length X1 = 64).
    { unfold X1. rewrite length_xor_bytes, HLxi. rewrite <- (HB hi k Hun Hk).
      rewrite length_view; [reflexivity| |cbn [s_cap sfrom]; lia].
      apply sfrom_ok; [exact Hb'|lia]. }
    rewrite (array_salsa_code X1 HX1).
    set (X2 := Salsa_code X1).
    assert (HX2 : length X2 = 64) by apply length_Salsa_code.
    rewrite (bind_Some _ _ _ _ _ (slice_from_eq y (64 * k) hi ltac:(lia))).
    rewrite (bind_Some _ _ _ _ _ (blockCopyFromArr_eq hi (sfrom y (64 * k)) X2
               (sfrom_ok hi y (64 * k) Hy' ltac:(lia))
               ltac:(cbn [s_len sfrom]; lia))).
    cbn [s_arr s_off sfrom]. unfold ret.
    set (hc := put hi (s_arr y) (s_off y + 64 * k) X2).
    assert (Huc : unchanged_except W hi hc).
    { apply unchanged_put; [apply Hy'|destruct Hy' as (_ & _ & ?); lia|].
      intros j Hj. split; [reflexivity|lia]. }
    eexists _, _. split; [reflexivity|].
    replace (Z.to_nat (Z.of_nat k + 1)) with (S k) by lia.
    assert (HYs : Ys (S k) = Ys k ++ [X2]).
    { unfold Ys. rewrite seq_S, map_app. cbn [map]. rewrite chain_snoc.
      fold (Ys k). rewrite <- Hxi. reflexivity. }
    split; [|split; [|split]].
    + apply (unchanged_trans _ _ _ _ Hun), Huc.
    + rewrite HYs, concat_app. cbn [concat]. rewrite app_nil_r.
      unfold view. replace (64 * S k) with (64 * k + 64) by lia.
      rewrite bytes_at_app. f_equal.
      * unfold hc. rewrite bytes_at_put_out
          by (try apply Hy'; destruct Hy' as (_ & _ & ?); lia).
        exact Hvy.
      * unfold hc. rewrite <- HX2 at 1.
        apply bytes_at_put_same; [apply Hy'|destruct Hy' as (_ & _ & ?); lia].
    + rewrite HYs, default_last_snoc. reflexivity.
    + exact HX2.
  - exists x1, h1. split; [exact E|]. split; [|exact Hun].
    rewrite Nat2Z.id in Hv. replace (128 * r) with (64 * (2 * r)) by lia. exact Hv.
Qed.

Lemma array_blockMix_ok h b y r :
  1 <= r -> (128 * Z.of_nat r <= max_int isz)%Z ->
  slice_ok h b -> slice_ok h y ->
  128 * r <= s_len b -> 128 * r <= s_len y ->
  sep b (128 * r) y (128 * r) ->
  exists h',
    ArrayVariant.blockMix isz b y (Z.of_nat r) h = Some (tt, h') /\
    view h' b (128 * r) = BlockMix_code r (view h b (128 * r)) /\
    unchanged_except (loc_union (span b (128 * r)) (span y (128 * r))) h h'.
Proof.
  intros Hr1 Hr Hb Hy Hlb Hly Hsep.
  assert (Hcb : 128 * r <= s_cap b) by (destruct Hb as (_ & ? & _); lia).
  unfold ArrayVariant.blockMix. cbv zeta.
  int_norm.
  replace ((2 * Z.of_nat r - 1) * 64)%Z with (Z.of_nat (64 * (2 * r - 1))) by lia.
  rewrite (bind_Some _ _ _ _ _ (slice_from_eq b (64 * (2 * r - 1)) h ltac:(lia))).
  rewrite (bind_Some _ _ _ _ _
             (blockCopyToArr_eq h (replicate 64 0%Z) (sfrom b (64 * (2 * r - 1)))
                (sfrom_ok h b (64 * (2 * r - 1)) Hb ltac:(lia))
                ltac:(apply length_replicate) ltac:(cbn [s_len sfrom]; lia))).
  set (B := view h b (128 * r)).
  assert (HX0 : view h (sfrom b (64 * (2 * r - 1))) 64 = Spec.sub_block B (2 * r - 1)).
  { unfold Spec.sub_block, B, view. cbn [s_arr s_off sfrom].
    apply bytes_at_sub. lia. }
  rewrite HX0. set (X0 := Spec.sub_block B (2 * r - 1)).
  assert (HLX0 : length X0 = 64).
  { unfold X0. rewrite <- HX0. apply length_view.
    - apply sfrom_ok; [exact Hb|lia].
    - cbn [s_cap sfrom]. lia. }
  destruct (array_chain_loop h b y r X0 Hr Hb Hy Hlb Hly Hsep HLX0)
    as (x1 & h1 & E1 & Hv1 & U1).
  rewrite (int_mul_small isz 2) in E1 by int_bound.
  rewrite (bind_Some _ _ _ _ _ E1).
  assert (Hb1 : slice_ok h1 b) by (apply (slice_ok_unchanged _ _ _ _ U1), Hb).
  assert (Hy1 : slice_ok h1 y) by (apply (slice_ok_unchanged _ _ _ _ U1), Hy).
  destruct (permute_loops isz h1 b y r Hr Hb1 Hy1 Hlb Hly Hsep) as (h2 & E2 & Hv2 & U2).
  exists h2. split; [exact E2|]. split.
  - rewrite Hv2, Hv1. apply permuted_chain.
  - apply (unchanged_trans _ h h1).
    + apply (unchanged_mono (span y (128 * r))); [|exact U1].
      unfold loc_union. intros a i Hs. right; exact Hs.
    + apply (unchanged_mono (span b (128 * r))); [|exact U2].
      unfold loc_union. intros a i Hs. left; exact Hs.
Qed.
End BlockMixArray.

(** *** SMix *)

Lemma blockMix_scryptgo_refines isz : blockMix_refines isz (ScryptGo.blockMix isz).
Proof.
  intros h b y r. unfold ScryptGo.blockMix.
  apply (blockMix_with_ok isz (ScryptGo.salsa isz)).
  intros h0 b0. apply scryptgo_salsa_eq.
Qed.

Lemma blockMix_rot_refines isz : blockMix_refines isz (RotVariant.blockMix isz).
Proof.
  intros h b y r. unfold RotVariant.blockMix.
  apply (blockMix_with_ok isz (RotVariant.salsa isz)).
  intros h0 b0. apply rot_salsa_eq.
Qed.

Lemma blockMix_array_refines isz : blockMix_refines isz (ArrayVariant.blockMix isz).
Proof. intros h b y r. apply array_blockMix_ok. Qed.

Lemma land_mask_bounds k m : 0 <= m -> 0 <= Z.land k m <= m.
Proof.
  intros Hm. split.
  - apply Z.land_nonneg. right. exact Hm.
  - pose proof (Z.sub_land_same_l m k) as E.
    assert (0 <= Z.land m (Z.lnot k)) by (apply Z.land_nonneg; left; exact Hm).
    rewrite (Z.land_comm k m). lia.
Qed.

Section SMixFacts.
Local Open Scope nat_scope.
Implicit Types (h : heap) (b x y v s : slice) (r : nat).

Lemma length_BlockMix_code r B : length (BlockMix_code r B) = 128 * r.
Proof.
  pose proof (permuted_chain r B) as P. cbv zeta in P. rewrite <- P. clear P.
  set (Y := concat (Spec.chain Salsa_code (Spec.sub_block B (2 * r - 1))
                      (map (Spec.sub_block B) (seq 0 (2 * r))))).
  assert (HY : length Y = 64 * (2 * r)).
  { unfold Y. rewrite length_concat_blocks by apply chain_blocks.
    rewrite length_chain, length_map, length_seq. reflexivity. }
  assert (HS : forall (f : nat -> nat), (forall k, k < r -> f k < 2 * r) ->
            length (concat (map (fun k => Spec.sub_block Y (f k)) (seq 0 r))) = 64 * r).
  { intros f Hf. rewrite length_concat_blocks.
    - rewrite length_map, length_seq. reflexivity.
    - apply Forall_forall. intros c Hc. apply list_elem_of_In, in_map_iff in Hc.
      destruct Hc as (k & <- & Hk). apply in_seq in Hk.
      unfold Spec.sub_block. rewrite length_take, length_drop, HY.
      specialize (Hf k ltac:(lia)). lia. }
  rewrite length_app, !HS by (intros; lia). lia.
Qed.

Lemma fill_table_snoc H r k X :
  Spec.fill_table H r (S k) X =
    Spec.fill_table H r k X ++ [Nat.iter k (Spec.BlockMix_of H r) X].
Proof.
  revert X. induction k as [|k IH]; intros X; [reflexivity|].
  change (Spec.fill_table H r (S (S k)) X)
    with (X :: Spec.fill_table H r (S k) (Spec.BlockMix_of H r X)).
  rewrite IH. cbn [Spec.fill_table app]. rewrite Nat.iter_succ_r. reflexivity.
Qed.

Lemma length_fill_table H r k X : length (Spec.fill_table H r k X) = k.
Proof. revert X. induction k as [|k IH]; intros X; simpl; [reflexivity|]. rewrite IH. reflexivity. Qed.

Lemma iter_BlockMix_length r k B :
  length B = 128 * r -> length (Nat.iter k (BlockMix_code r) B) = 128 * r.
Proof. intros HB. destruct k; [exact HB|]. simpl. apply length_BlockMix_code. Qed.

Lemma fill_table_blocks r k B :
  length B = 128 * r ->
  Forall (fun c => length c = 128 * r) (Spec.fill_table Salsa_code r k B).
Proof.
  revert B. induction k as [|k IH]; intros B HB; simpl; constructor; [exact HB|].
  apply IH, length_BlockMix_code.
Qed.

Lemma length_concat_n n (Vs : list (list Z)) :
  Forall (fun c => length c = n) Vs -> length (concat Vs) = length Vs * n.
Proof.
  induction 1 as [|c Vs Hc _ IH]; simpl; [reflexivity|].
  rewrite length_app, IH, Hc. lia.
Qed.

Lemma block_of_concat n (Vs : list (list Z)) j :
  Forall (fun c => length c = n) Vs -> j < length Vs ->
  take n (drop (j * n) (concat Vs)) = Vs !!! j.
Proof.
  intros HF. revert j. induction HF as [|c Vs Hc _ IH]; intros j Hj; simpl in Hj; [lia|].
  destruct j as [|j].
  - rewrite Nat.mul_0_l, drop_0. cbn [concat].
    rewrite take_app_length' by lia. reflexivity.
  - replace (S j * n) with (length c + j * n) by lia.
    cbn [concat]. rewrite drop_app_add. rewrite IH by lia. reflexivity.
Qed.

Lemma Uint64_eq h s :
  slice_ok h s -> 8 <= s_len s ->
  LittleEndian_Uint64 s h =
    Some (let b := view h s 8 in
          Z.lor (Z.lor (Z.lor (Z.lor (Z.lor (Z.lor (Z.lor
            (b !!! 0) (u64_shl (b !!! 1) 8)) (u64_shl (b !!! 2) 16))
            (u64_shl (b !!! 3) 24)) (u64_shl (b !!! 4) 32))
            (u64_shl (b !!! 5) 40)) (u64_shl (b !!! 6) 48))
            (u64_shl (b !!! 7) 56), h).
Proof.
  intros Hs Hl.
  assert (Hc : 8 <= s_cap s) by (destruct Hs as (_ & ? & _); lia).
  unfold LittleEndian_Uint64.
  rewrite (bind_Some _ _ _ _ _ (index_get_view h s 7 8 Hs ltac:(lia) ltac:(lia) Hc)).
  rewrite (bind_Some _ _ _ _ _ (index_get_view h s 0 8 Hs ltac:(lia) ltac:(lia) Hc)).
  rewrite (bind_Some _ _ _ _ _ (index_get_view h s 1 8 Hs ltac:(lia) ltac:(lia) Hc)).
  rewrite (bind_Some _ _ _ _ _ (index_get_view h s 2 8 Hs ltac:(lia) ltac:(lia) Hc)).
  rewrite (bind_Some _ _ _ _ _ (index_get_view h s 3 8 Hs ltac:(lia) ltac:(lia) Hc)).
  rewrite (bind_Some _ _ _ _ _ (index_get_view h s 4 8 Hs ltac:(lia) ltac:(lia) Hc)).
  rewrite (bind_Some _ _ _ _ _ (index_get_view h s 5 8 Hs ltac:(lia) ltac:(lia) Hc)).
  rewrite (bind_Some _ _ _ _ _ (index_get_view h s 6 8 Hs ltac:(lia) ltac:(lia) Hc)).
  rewrite (bind_Some _ _ _ _ _ (index_get_view h s 7 8 Hs ltac:(lia) ltac:(lia) Hc)).
  reflexivity.
Qed.

Lemma integerify_eq isz h x r :
  1 <= r -> (128 * Z.of_nat r <= max_int isz)%Z ->
  slice_ok h x -> 128 * r <= s_len x ->
  integerify isz x (Z.of_nat r) h = Some (Integerify_code r (view h x (128 * r)), h).
Proof.
  intros Hr1 Hr Hx Hl. unfold integerify. int_norm.
  replace ((2 * Z.of_nat r - 1) * 64)%Z with (Z.of_nat ((2 * r - 1) * 64)) by lia.
  rewrite (bind_Some _ _ _ _ _ (slice_from_eq x ((2 * r - 1) * 64) h ltac:(lia))).
  rewrite Uint64_eq; [|apply sfrom_ok; [exact Hx|lia]|cbn [s_len sfrom]; lia].
  unfold Integerify_code. cbv zeta. f_equal. f_equal.
  assert (E : view h (sfrom x ((2 * r - 1) * 64)) 8 =
              take 8 (drop ((2 * r - 1) * 64) (view h x (128 * r)))).
  { unfold view. cbn [s_arr s_off sfrom]. apply bytes_at_sub. lia. }
  rewrite E. rewrite !lookup_total_take_lt by lia. reflexivity.
Qed.
End SMixFacts.

Section SMixLoops.
Local Open Scope nat_scope.
Variable isz : IntSize.
Variable blockMix : slice -> slice -> Z -> M unit.
Hypothesis blockMix_ok : blockMix_refines isz blockMix.
Implicit Types (h : heap) (b v xy s : slice) (r : nat).

(** One call [blockMix(x, y, r)] inside [smix], where [x = xy] and
    [y = xy[128*r:]]. *)
Lemma smix_blockMix h xy r :
  1 <= r -> (128 * Z.of_nat r <= max_int isz)%Z ->
  slice_ok h xy -> 256 * r <= s_len xy ->
  exists h',
    blockMix xy (sfrom xy (128 * r)) (Z.of_nat r) h = Some (tt, h') /\
    view h' xy (128 * r) = BlockMix_code r (view h xy (128 * r)) /\
    unchanged_except (span xy (256 * r)) h h'.
Proof.
  intros Hr1 Hr Hxy Hl.
  destruct (blockMix_ok h xy (sfrom xy (128 * r)) r Hr1 Hr Hxy
              (sfrom_ok h xy (128 * r) Hxy ltac:(lia)) ltac:(lia)
              ltac:(cbn [s_len sfrom]; lia)
              ltac:(right; left; cbn [s_off sfrom]; lia)) as (h' & E & Hv & Hu).
  exists h'. split; [exact E|]. split; [exact Hv|].
  apply (unchanged_mono
           (loc_union (span xy (128 * r)) (span (sfrom xy (128 * r)) (128 * r))));
    [|exact Hu].
  intros a i [[Ha Hi]|[Ha Hi]]; cbn [s_arr s_off sfrom] in *; split; auto; lia.
Qed.

Lemma fill_loop h v xy r (N : Z) :
  1 <= r -> (1 <= N)%Z -> (128 * Z.of_nat r * N <= max_int isz)%Z ->
  slice_ok h v -> slice_ok h xy ->
  Z.to_nat N * (128 * r) <= s_len v -> 256 * r <= s_len xy ->
  sep v (Z.to_nat N * (128 * r)) xy (256 * r) ->
  exists h1,
    for_range 0 N (fun i =>
      let* vi := slice_from v (int_mul isz i (Z.of_nat (128 * r))) in
      blockCopy vi xy (Z.of_nat (128 * r)) ;;;
      blockMix xy (sfrom xy (128 * r)) (Z.of_nat r)) h = Some (tt, h1) /\
    view h1 xy (128 * r) =
      Nat.iter (Z.to_nat N) (BlockMix_code r) (view h xy (128 * r)) /\
    view h1 v (Z.to_nat N * (128 * r)) =
      concat (Spec.fill_table Salsa_code r (Z.to_nat N) (view h xy (128 * r))) /\
    unchanged_except
      (loc_union (span v (Z.to_nat N * (128 * r))) (span xy (256 * r))) h h1.
Proof.
  intros Hr1 HN Hbound Hv Hxy Hlv Hlxy Hsep.
  set (n := 128 * r) in *. set (Nn := Z.to_nat N) in *.
  set (B := view h xy n).
  set (W := loc_union (span v (Nn * n)) (span xy (256 * r))).
  assert (Hr : (128 * Z.of_nat r <= max_int isz)%Z) by nia.
  assert (Hcxy : 256 * r <= s_cap xy) by (destruct Hxy as (_ & ? & _); lia).
  assert (Hcv : Nn * n <= s_cap v) by (destruct Hv as (_ & ? & _); lia).
  destruct (for_range_inv
    (fun i hi => unchanged_except W h hi /\
       view hi xy n = Nat.iter (Z.to_nat i) (BlockMix_code r) B /\
       view hi v (Z.to_nat i * n) =
         concat (Spec.fill_table Salsa_code r (Z.to_nat i) B))
    (fun i =>
      let* vi := slice_from v (int_mul isz i (Z.of_nat n)) in
      blockCopy vi xy (Z.of_nat n) ;;;
      blockMix xy (sfrom xy n) (Z.of_nat r)) 0%Z N h) as (h1 & E & Hun & Hvx & Hvv).
  - lia.
  - split; [apply unchanged_refl|]. split; reflexivity.
  - intros i hi Hi (Hun & Hvx & Hvv).
    set (k := Z.to_nat i) in *. replace i with (Z.of_nat k) by lia.
    assert (Hk : k < Nn) by lia.
    assert (Hkn : k * n + n <= Nn * n) by nia.
    assert (Hv' : slice_ok hi v) by (apply (slice_ok_unchanged _ _ _ _ Hun), Hv).
    assert (Hxy' : slice_ok hi xy) by (apply (slice_ok_unchanged _ _ _ _ Hun), Hxy).
    rewrite int_mul_small by int_bound.
    replace (Z.of_nat k * Z.of_nat n)%Z with (Z.of_nat (k * n)) by lia.
    rewrite (bind_Some _ _ _ _ _ (slice_from_eq v (k * n) hi ltac:(lia))).
    rewrite (bind_Some _ _ _ _ _
               (blockCopy_eq hi (sfrom v (k * n)) xy n
                  (sfrom_ok hi v (k * n) Hv' ltac:(lia)) Hxy' ltac:(lia)
                  ltac:(cbn [s_len sfrom]; lia))).
    cbn [s_arr s_off sfrom]. rewrite Hvx.
    set (Xk := Nat.iter k (BlockMix_code r) B).
    assert (HXk : length Xk = n).
    { unfold Xk. rewrite <- Hvx. apply length_view; [exact Hxy'|lia]. }
    set (ha := put hi (s_arr v) (s_off v + k * n) Xk).
    assert (Hua : unchanged_except W hi ha).
    { apply unchanged_put; [apply Hv'|destruct Hv' as (_ & _ & ?); lia|].
      intros j Hj. left. split; [reflexivity|lia]. }
    assert (Hxya : slice_ok ha xy) by (apply (slice_ok_unchanged _ _ _ _ Hua), Hxy').
    assert (Hva : slice_ok ha v) by (apply (slice_ok_unchanged _ _ _ _ Hua), Hv').
    destruct (smix_blockMix ha xy r Hr1 Hr Hxya Hlxy) as (hb & Eb & Hvb & Hub).
    fold n in Eb, Hvb.
    exists hb. split; [exact Eb|].
    assert (Hxa : view ha xy n = Xk).
    { unfold Xk. rewrite <- Hvx. unfold view, ha. apply bytes_at_put_out;
        [apply Hv'|destruct Hv' as (_ & _ & ?); lia|].
      rewrite HXk. destruct Hsep as [?|[?|?]]; [left; congruence|right; right; lia|right; left; lia]. }
    assert (Hvsep : forall m, m <= Nn * n -> view hb v m = view ha v m).
    { intros m Hm. apply (view_unchanged _ _ _ _ _ Hub); [apply Hva|].
      intros j Hj [Ha Hin]. destruct Hsep as [?|[?|?]]; [congruence|lia|lia]. }
    replace (Z.to_nat (Z.of_nat k + 1)) with (S k) by lia.
    split; [|split].
    + apply (unchanged_trans _ _ _ _ Hun), (unchanged_trans _ _ _ _ Hua).
      apply (unchanged_mono (span xy (256 * r))); [|exact Hub].
      unfold W, loc_union. intros a j Hs. right; exact Hs.
    + rewrite Hvb, Hxa. reflexivity.
    + rewrite Hvsep by lia. rewrite fill_table_snoc, concat_app. cbn [concat].
      rewrite app_nil_r. fold Xk.
      unfold view. replace (S k * n) with (k * n + n) by lia.
      rewrite bytes_at_app. f_equal.
      * unfold ha. rewrite bytes_at_put_out
          by (try apply Hv'; destruct Hv' as (_ & _ & ?); lia).
        exact Hvv.
      * unfold ha. apply bytes_at_put_same';
          [apply Hv'|destruct Hv' as (_ & _ & ?); lia|exact HXk].
  - exists h1. fold Nn in Hvx, Hvv. auto.
Qed.
End SMixLoops.

Section SMixMain.
Local Open Scope nat_scope.
Variable isz : IntSize.
Variable blockMix : slice -> slice -> Z -> M unit.
Hypothesis blockMix_ok : blockMix_refines isz blockMix.
Implicit Types (h : heap) (b v xy s : slice) (r : nat).

Lemma mix_loop h v xy r (N : Z) (V : list (list Z)) :
  1 <= r -> (1 <= N)%Z -> (128 * Z.of_nat r * N <= max_int isz)%Z ->
  slice_ok h v -> slice_ok h xy ->
  Z.to_nat N * (128 * r) <= s_len v -> 256 * r <= s_len xy ->
  sep v (Z.to_nat N * (128 * r)) xy (256 * r) ->
  view h v (Z.to_nat N * (128 * r)) = concat V ->
  Forall (fun c => length c = 128 * r) V -> length V = Z.to_nat N ->
  exists h1,
    for_range 0 N (fun i =>
      let* k := integerify isz xy (Z.of_nat r) in
      let j := int_wrap isz (Z.land k (to_uint64 (N - 1))) in
      let* vj := slice_from v (int_mul isz j (Z.of_nat (128 * r))) in
      blockXOR xy vj (Z.of_nat (128 * r)) ;;;
      blockMix xy (sfrom xy (128 * r)) (Z.of_nat r)) h = Some (tt, h1) /\
    view h1 xy (128 * r) =
      Nat.iter (Z.to_nat N) (Spec.mix_step Salsa_code Integerify_code r N V)
        (view h xy (128 * r)) /\
    unchanged_except (span xy (256 * r)) h h1.
Proof.
  intros Hr1 HN Hbound Hv Hxy Hlv Hlxy Hsep HV HVb HVl.
  set (n := 128 * r) in *. set (Nn := Z.to_nat N) in *.
  set (X := view h xy n).
  set (W := span xy (256 * r)).
  assert (Hr : (128 * Z.of_nat r <= max_int isz)%Z) by nia.
  assert (Hcxy : 256 * r <= s_cap xy) by (destruct Hxy as (_ & ? & _); lia).
  assert (Hcv : Nn * n <= s_cap v) by (destruct Hv as (_ & ? & _); lia).
  destruct (for_range_inv
    (fun i hi => unchanged_except W h hi /\
       view hi xy n =
         Nat.iter (Z.to_nat i) (Spec.mix_step Salsa_code Integerify_code r N V) X)
    (fun i =>
      let* k := integerify isz xy (Z.of_nat r) in
      let j := int_wrap isz (Z.land k (to_uint64 (N - 1))) in
      let* vj := slice_from v (int_mul isz j (Z.of_nat n)) in
      blockXOR xy vj (Z.of_nat n) ;;;
      blockMix xy (sfrom xy n) (Z.of_nat r)) 0%Z N h) as (h1 & E & Hun & Hvx).
  - lia.
  - split; [apply unchanged_refl|reflexivity].
  - intros i hi Hi (Hun & Hvx).
    set (k := Z.to_nat i) in *.
    assert (Hv' : slice_ok hi v) by (apply (slice_ok_unchanged _ _ _ _ Hun), Hv).
    assert (Hxy' : slice_ok hi xy) by (apply (slice_ok_unchanged _ _ _ _ Hun), Hxy).
    rewrite (bind_Some _ _ _ _ _ (integerify_eq isz hi xy r Hr1 Hr Hxy' ltac:(lia))).
    fold n. rewrite Hvx.
    set (Xk := Nat.iter k (Spec.mix_step Salsa_code Integerify_code r N V) X).
    cbv zeta.
    assert (HXk : length Xk = n).
    { unfold Xk. rewrite <- Hvx. apply length_view; [exact Hxy'|lia]. }
    assert (Hmask : to_uint64 (Z.of_nat 0 + (N - 1)) = (N - 1)%Z).
    { unfold to_uint64. apply Z.mod_small. pose proof (max_int_le isz).
      change (2 ^ 64)%Z with 18446744073709551616%Z. nia. }
    change (Z.of_nat 0 + (N - 1))%Z with (N - 1)%Z in Hmask. rewrite Hmask.
    pose proof (land_mask_bounds (Integerify_code r Xk) (N - 1) ltac:(lia)) as Hj.
    set (jz := Z.land (Integerify_code r Xk) (N - 1)) in *.
    assert (HNb : (N <= max_int isz)%Z) by nia.
    rewrite (int_wrap_id isz jz)
      by (unfold in_int; pose proof (min_int_le isz); lia).
    set (j := Z.to_nat jz).
    assert (Hjn : j < Nn) by lia.
    assert (Hjb : j * n + n <= Nn * n) by nia.
    rewrite int_mul_small by int_bound.
    replace (jz * Z.of_nat n)%Z with (Z.of_nat (j * n)) by lia.
    rewrite (bind_Some _ _ _ _ _ (slice_from_eq v (j * n) hi ltac:(lia))).
    rewrite (bind_Some _ _ _ _ _
               (blockXOR_eq hi xy (sfrom v (j * n)) n Hxy'
                  (sfrom_ok hi v (j * n) Hv' ltac:(lia))
                  ltac:(cbn [s_cap sfrom]; lia) ltac:(lia)
                  ltac:(destruct Hsep as [?|[?|?]];
                        [left; cbn [s_arr sfrom]; congruence
                        |right; right; cbn [s_off sfrom]; lia
                        |right; left; cbn [s_off sfrom]; lia]))).
    rewrite Hvx. fold Xk.
    assert (HVj : view hi (sfrom v (j * n)) n = V !!! j).
    { rewrite <- (block_of_concat n V j HVb ltac:(lia)). rewrite <- HV.
      unfold view. cbn [s_arr s_off sfrom].
      rewrite <- (bytes_at_sub _ _ _ (Nn * n)) by lia.
      apply bytes_at_ext. intros m Hm. destruct Hun as [_ Hun].
      destruct (Hun (s_arr v)) as [_ F]; [apply Hv|]. apply F.
      intros [Ha Hin]. destruct Hsep as [?|[?|?]]; [congruence|lia|lia]. }
    rewrite HVj.
    set (X1 := Spec.xor_bytes Xk (V !!! j)).
    assert (HX1 : length X1 = n).
    { unfold X1. rewrite length_xor_bytes, HXk, <- HVj.
      rewrite length_view; [lia| |cbn [s_cap sfrom]; lia].
      apply sfrom_ok; [exact Hv'|lia]. }
    set (ha := put hi (s_arr xy) (s_off xy) X1).
    assert (Hua : unchanged_except W hi ha).
    { apply unchanged_put; [apply Hxy'|destruct Hxy' as (_ & _ & ?); lia|].
      intros m Hm. split; [reflexivity|lia]. }
    assert (Hxya : slice_ok ha xy) by (apply (slice_ok_unchanged _ _ _ _ Hua), Hxy').
    destruct (smix_blockMix isz blockMix blockMix_ok ha xy r Hr1 Hr Hxya Hlxy)
      as (hb & Eb & Hvb & Hub).
    fold n in Eb, Hvb.
    exists hb. split; [exact Eb|].
    assert (Hxa : view ha xy n = X1).
    { unfold view, ha. apply bytes_at_put_same';
        [apply Hxy'|destruct Hxy' as (_ & _ & ?); lia|exact HX1]. }
    replace (Z.to_nat (i + 1)) with (S k) by lia.
    split.
    + apply (unchanged_trans _ _ _ _ Hun), (unchanged_trans _ _ _ _ Hua), Hub.
    + rewrite Hvb, Hxa. reflexivity.
  - exists h1. fold Nn in Hvx. auto.
Qed.

Lemma smix_with_ok h b v xy r (N : Z) :
  1 <= r -> (1 <= N)%Z -> (128 * Z.of_nat r * N <= max_int isz)%Z ->
  slice_ok h b -> slice_ok h v -> slice_ok h xy ->
  128 * r <= s_len b -> Z.to_nat N * (128 * r) <= s_len v -> 256 * r <= s_len xy ->
  sep b (128 * r) v (Z.to_nat N * (128 * r)) ->
  sep b (128 * r) xy (256 * r) ->
  sep v (Z.to_nat N * (128 * r)) xy (256 * r) ->
  exists h',
    smix_with isz blockMix b (Z.of_nat r) N v xy h = Some (tt, h') /\
    view h' b (128 * r) = SMix_code r N (view h b (128 * r)) /\
    unchanged_except
      (loc_union (span b (128 * r))
         (loc_union (span v (Z.to_nat N * (128 * r))) (span xy (256 * r)))) h h'.
Proof.
  intros Hr1 HN Hbound Hb Hv Hxy Hlb Hlv Hlxy Hsbv Hsbxy Hsvxy.
  set (n := 128 * r) in *. set (Nn := Z.to_nat N) in *.
  set (B := view h b n).
  set (W := loc_union (span b n) (loc_union (span v (Nn * n)) (span xy (256 * r)))).
  assert (Hr : (128 * Z.of_nat r <= max_int isz)%Z) by nia.
  assert (Hcxy : 256 * r <= s_cap xy) by (destruct Hxy as (_ & ? & _); lia).
  assert (Hcb : n <= s_cap b) by (destruct Hb as (_ & ? & _); lia).
  assert (HLB : length B = n) by (apply length_view; [exact Hb|lia]).
  unfold smix_with. cbv zeta.
  rewrite (int_mul_small isz 128 (Z.of_nat r)) by int_bound.
  rewrite (int_sub_small isz N 1) by int_bound.
  replace (128 * Z.of_nat r)%Z with (Z.of_nat n) by lia.
  rewrite (bind_Some _ _ _ _ _ (slice_from_eq xy n h ltac:(lia))).
  rewrite (bind_Some _ _ _ _ _ (blockCopy_eq h xy b n Hxy Hb Hcb ltac:(lia))).
  fold B.
  set (h1 := put h (s_arr xy) (s_off xy) B).
  assert (U1 : unchanged_except W h h1).
  { apply unchanged_put; [apply Hxy|destruct Hxy as (_ & _ & ?); lia|].
    intros m Hm. right; right. split; [reflexivity|lia]. }
  assert (Hb1 : slice_ok h1 b) by (apply (slice_ok_unchanged _ _ _ _ U1), Hb).
  assert (Hv1 : slice_ok h1 v) by (apply (slice_ok_unchanged _ _ _ _ U1), Hv).
  assert (Hxy1 : slice_ok h1 xy) by (apply (slice_ok_unchanged _ _ _ _ U1), Hxy).
  assert (HX1 : view h1 xy n = B).
  { unfold view, h1. apply bytes_at_put_same';
      [apply Hxy|destruct Hxy as (_ & _ & ?); lia|exact HLB]. }
  destruct (fill_loop isz blockMix blockMix_ok h1 v xy r N Hr1 HN Hbound Hv1 Hxy1
              Hlv Hlxy Hsvxy) as (h2 & E2 & Hx2 & Hv2 & U2).
  fold n Nn in E2, Hx2, Hv2, U2. rewrite HX1 in Hx2, Hv2.
  rewrite (bind_Some _ _ _ _ _ E2).
  assert (Hb2 : slice_ok h2 b) by (apply (slice_ok_unchanged _ _ _ _ U2), Hb1).
  assert (Hv2' : slice_ok h2 v) by (apply (slice_ok_unchanged _ _ _ _ U2), Hv1).
  assert (Hxy2 : slice_ok h2 xy) by (apply (slice_ok_unchanged _ _ _ _ U2), Hxy1).
  destruct (mix_loop h2 v xy r N (Spec.fill_table Salsa_code r Nn B)
              Hr1 HN Hbound Hv2' Hxy2 Hlv Hlxy Hsvxy Hv2
              (fill_table_blocks r Nn B HLB) (length_fill_table _ _ _ _))
    as (h3 & E3 & Hx3 & U3).
  fold n Nn in E3, Hx3. rewrite Hx2 in Hx3.
  rewrite (bind_Some _ _ _ _ _ E3).
  assert (Hb3 : slice_ok h3 b) by (apply (slice_ok_unchanged _ _ _ _ U3), Hb2).
  assert (Hxy3 : slice_ok h3 xy) by (apply (slice_ok_unchanged _ _ _ _ U3), Hxy2).
  rewrite (blockCopy_eq h3 b xy n Hb3 Hxy3 ltac:(lia) Hlb).
  eexists. split; [reflexivity|]. split.
  - unfold view at 1. rewrite bytes_at_put_same';
      [|apply Hb3|destruct Hb3 as (_ & _ & ?); lia|apply length_view; [exact Hxy3|lia]].
    rewrite Hx3. reflexivity.
  - apply (unchanged_trans _ _ _ _ U1). apply (unchanged_trans _ h1 h2).
    { apply (unchanged_mono (loc_union (span v (Nn * n)) (span xy (256 * r)))); [|exact U2].
      unfold W, loc_union. intros a i Hs. right; exact Hs. }
    apply (unchanged_trans _ h2 h3).
    { apply (unchanged_mono (span xy (256 * r))); [|exact U3].
      unfold W, loc_union. intros a i Hs. right; right; exact Hs. }
    pose proof (length_view h3 xy n Hxy3 ltac:(lia)) as HL3.
    apply unchanged_put; [apply Hb3|destruct Hb3 as (_ & _ & ?); lia|].
    rewrite HL3. intros m Hm. left. split; [reflexivity|lia].
Qed.
End SMixMain.

(** *** The validator *)

Lemma maxInt_value : maxInt = 2147483647.
Proof. reflexivity. Qed.

Lemma maxInt_quot_128 : Z.quot maxInt 128 = 16777215.
Proof. reflexivity. Qed.

Lemma maxInt_quot_256 : Z.quot maxInt 256 = 8388607.
Proof. reflexivity. Qed.

Lemma quot_bounds a b : 0 <= a -> - a <= Z.quot a b <= a.
Proof.
  intros Ha. destruct (Z.lt_trichotomy b 0) as [Hb|[->|Hb]].
  - replace b with (- (- b)) by lia. rewrite Z.quot_opp_r by lia.
    rewrite Z.quot_div_nonneg by lia.
    assert (0 <= a / - b <= a).
    { split; [apply Z.div_pos; lia|]. apply Z.div_le_upper_bound; nia. }
    lia.
  - replace (Z.quot a 0) with 0 by (destruct a; reflexivity). lia.
  - rewrite Z.quot_div_nonneg by lia.
    assert (0 <= a / b <= a).
    { split; [apply Z.div_pos; lia|]. apply Z.div_le_upper_bound; nia. }
    lia.
Qed.

Lemma int_quot_eq isz a b :
  0 <= a <= 2147483647 -> b <> 0 -> int_quot isz a b = Some (Z.quot a b).
Proof.
  intros Ha Hb. unfold int_quot. rewrite decide_False by exact Hb.
  rewrite int_wrap_id; [reflexivity|]. apply in_int_small.
  pose proof (quot_bounds a b ltac:(lia)). lia.
Qed.

Lemma quot_neg_divisor a b : 0 <= a -> b < 0 -> Z.quot a b <= 0.
Proof.
  intros Ha Hb. replace b with (- (- b)) by lia. rewrite Z.quot_opp_r by lia.
  rewrite Z.quot_div_nonneg by lia.
  assert (0 <= a / - b) by (apply Z.div_pos; lia). lia.
Qed.

Lemma quot_pos_bound a b x : 0 <= a -> 0 < b -> (x <= Z.quot a b <-> x * b <= a).
Proof.
  intros Ha Hb. rewrite Z.quot_div_nonneg by lia. split; intros H.
  - pose proof (Z.mul_div_le a b Hb). nia.
  - apply Z.div_le_lower_bound; lia.
Qed.

Section Validator.
Variable isz : IntSize.

Lemma too_large_heap N r p h b h' :
  too_large isz N r p h = Some (b, h') -> h' = h.
Proof.
  unfold too_large. repeat (case_decide || case_match);
    unfold ret, panic; intros E; congruence.
Qed.

(** With non-zero divisors the guard is exactly the disjunction. *)
Lemma too_large_eq N r p h :
  r <> 0 -> p <> 0 ->
  too_large isz N r p h = Some (bool_decide (guard_conditions N r p), h).
Proof.
  intros Hr Hp. unfold too_large, guard_conditions.
  rewrite maxInt_quot_128, maxInt_quot_256.
  change (Z.quot (Z.quot (2 ^ 31 - 1) 128)) with (Z.quot 16777215).
  change (Z.quot (2 ^ 31 - 1) 256) with 8388607.
  change (Z.shiftl 1 30) with (2 ^ 30).
  rewrite !int_quot_eq by lia.
  unfold u64_mul, to_uint64, ret.
  repeat case_decide; f_equal; f_equal; symmetry;
    (apply bool_decide_eq_true_2 || apply bool_decide_eq_false_2); tauto.
Qed.

Lemma too_large_panics_p N r h :
  too_large isz N r 0 h = None.
Proof.
  unfold too_large.
  assert (E : u64_mul (to_uint64 r) (to_uint64 0) = 0).
  { unfold u64_mul, to_uint64. change (0 mod 2 ^ 64) with 0.
    rewrite Z.mul_0_r. reflexivity. }
  rewrite E. reflexivity.
Qed.

Lemma too_large_panics_r N p h :
  0 < p -> too_large isz N 0 p h = None.
Proof.
  intros Hp. unfold too_large. rewrite maxInt_quot_128, maxInt_quot_256.
  change (u64_mul (to_uint64 0) (to_uint64 p)) with 0.
  rewrite decide_False by (change (Z.shiftl 1 30) with 1073741824; lia).
  rewrite int_quot_eq by lia.
  pose proof (proj2 (quot_pos_bound 16777215 p 0 ltac:(lia) Hp) ltac:(lia)).
  rewrite decide_False by lia. rewrite decide_False by lia. reflexivity.
Qed.

(** Parameters that pass the guard are positive and bounded. *)
Lemma guard_conditions_false N r p :
  1 <= N -> r <> 0 -> p <> 0 -> ~ guard_conditions N r p ->
  1 <= r /\ 1 <= p /\ 128 * r * p <= 2147483647 /\ 256 * r <= 2147483647 /\
  128 * r * N <= 2147483647.
Proof.
  intros HN Hr Hp Hg. unfold guard_conditions in Hg.
  change (Z.quot (Z.quot (2 ^ 31 - 1) 128)) with (Z.quot 16777215) in Hg.
  change (Z.quot (2 ^ 31 - 1) 256) with 8388607 in Hg.
  assert (H2 : r <= Z.quot 16777215 p) by tauto.
  assert (H3 : r <= 8388607) by tauto.
  assert (H4 : N <= Z.quot 16777215 r) by tauto.
  assert (Hr1 : 1 <= r).
  { destruct (Z.lt_trichotomy r 0) as [Hn|[?|?]]; [|lia|lia].
    pose proof (quot_neg_divisor 16777215 r ltac:(lia) Hn). lia. }
  assert (Hp1 : 1 <= p).
  { destruct (Z.lt_trichotomy p 0) as [Hn|[?|?]]; [|lia|lia].
    pose proof (quot_neg_divisor 16777215 p ltac:(lia) Hn). lia. }
  apply quot_pos_bound in H2; [|lia|lia].
  apply quot_pos_bound in H4; [|lia|lia].
  repeat split; try lia; nia.
Qed.

Lemma guard_conditions_valid N r p :
  1 <= N -> 1 <= r -> 1 <= p ->
  128 * r * p <= 2147483647 -> 256 * r <= 2147483647 -> 128 * r * N <= 2147483647 ->
  ~ guard_conditions N r p.
Proof.
  intros HN Hr Hp H1 H2 H3. unfold guard_conditions.
  change (Z.quot (Z.quot (2 ^ 31 - 1) 128)) with (Z.quot 16777215).
  change (Z.quot (2 ^ 31 - 1) 256) with 8388607.
  assert (r <= Z.quot 16777215 p) by (apply quot_pos_bound; nia).
  assert (N <= Z.quot 16777215 r) by (apply quot_pos_bound; nia).
  assert (Hrp : 0 <= r * p <= 16777215) by nia.
  change (2 ^ 64) with 18446744073709551616. change (2 ^ 30) with 1073741824.
  rewrite (Z.mod_small r), (Z.mod_small p), (Z.mod_small (r * p)) by lia.
  lia.
Qed.
End Validator.

(** *** Powers of two and the first guard *)

Lemma land_pow2_pred k : 0 <= k -> Z.land (2 ^ k) (2 ^ k - 1) = 0.
Proof.
  intros Hk. replace (2 ^ k - 1) with (Z.ones k) by (rewrite Z.ones_equiv; lia).
  rewrite Z.land_ones by exact Hk. apply Z.mod_same. apply Z.pow_nonzero; lia.
Qed.

Lemma land_pred_zero_pow2 N : 0 < N -> Z.land N (N - 1) = 0 -> Spec.power_of_two N.
Proof.
  intros HN Hl. exists (Z.log2 N). split; [apply Z.log2_nonneg|].
  destruct (Z.log2_spec N HN) as [Hlo Hhi].
  destruct (Z.eq_dec N (2 ^ Z.log2 N)) as [E|Hne]; [exact E|exfalso].
  assert (Hb : Z.testbit N (Z.log2 N) = true) by (apply Z.bit_log2; exact HN).
  assert (Hlog : Z.log2 (N - 1) = Z.log2 N).
  { apply Z.log2_unique; [apply Z.log2_nonneg|]. lia. }
  assert (Hb' : Z.testbit (N - 1) (Z.log2 N) = true).
  { rewrite <- Hlog. apply Z.bit_log2. pose proof (Z.pow_pos_nonneg 2 (Z.log2 N)).
    pose proof (Z.log2_nonneg N). lia. }
  apply (f_equal (fun x => Z.testbit x (Z.log2 N))) in Hl.
  rewrite Z.land_spec, Hb, Hb', Z.bits_0 in Hl. discriminate.
Qed.

Lemma first_guard_iff isz N :
  in_int isz N ->
  (N <= 1 \/ Z.land N (int_sub isz N 1) <> 0) <-> ~ (2 <= N /\ Spec.power_of_two N).
Proof.
  intros HI. split.
  - intros [H1|Hl] [H2 (k & Hk & ->)]; [lia|].
    apply Hl. unfold int_sub. rewrite int_wrap_id.
    + apply land_pow2_pred, Hk.
    + unfold in_int in *. pose proof (min_int_le isz). lia.
  - intros Hn. destruct (decide (N <= 1)) as [?|H1]; [left; assumption|right].
    intros Hl. apply Hn. split; [lia|].
    unfold int_sub in Hl. rewrite int_wrap_id in Hl.
    + apply land_pred_zero_pow2; [lia|exact Hl].
    + unfold in_int in *. pose proof (min_int_le isz). lia.
Qed.

(** *** Key *)
Section KeyLoop.
Local Open Scope nat_scope.
Variable isz : IntSize.
Variable blockMix : slice -> slice -> Z -> M unit.
Hypothesis blockMix_ok : blockMix_refines isz blockMix.
Implicit Types (h : heap) (b v xy s : slice) (r : nat).

Lemma length_SMix_code r (N : Z) B :
  (1 <= N)%Z -> length (SMix_code r N B) = 128 * r.
Proof.
  intros HN. unfold SMix_code, Spec.SMix_of. cbv zeta.
  destruct (Z.to_nat N) as [|m] eqn:E; [lia|].
  cbn [Nat.iter]. unfold Spec.mix_step at 1. apply length_BlockMix_code.
Qed.

Lemma length_mix_all_code r (N : Z) k d :
  (1 <= N)%Z -> length (mix_all_code r N k d) = k * (128 * r).
Proof.
  intros HN. unfold mix_all_code, Spec.mix_all.
  rewrite (length_concat_n (128 * r)).
  - rewrite length_map, length_seq. reflexivity.
  - apply Forall_forall. intros c Hc. apply list_elem_of_In, in_map_iff in Hc.
    destruct Hc as (j & <- & _). apply (length_SMix_code r N _ HN).
Qed.

Lemma mix_all_code_S r (N : Z) k d :
  mix_all_code r N (S k) d =
    mix_all_code r N k d ++ SMix_code r N (Spec.mix_block r d k).
Proof.
  unfold mix_all_code, Spec.mix_all. rewrite seq_S, map_app, concat_app.
  cbn [map concat]. rewrite app_nil_r. reflexivity.
Qed.

Lemma smix_short_panics h b v xy (r N : Z) :
  (Z.of_nat (s_cap b) < int_mul isz 128 r)%Z ->
  smix_with isz blockMix b r N v xy h = None.
Proof.
  intros Hc. unfold smix_with. cbv zeta. unfold bind at 1.
  destruct (slice_from xy (int_mul isz 128 r) h) as [[y h0]|]; [|reflexivity].
  apply bind_None, blockCopy_panics. lia.
Qed.

(** One iteration of the loop of [Key] over the [p] mix blocks. *)
Lemma key_step h b v xy r (N : Z) (p : nat) d k :
  1 <= r -> (1 <= N)%Z ->
  (128 * Z.of_nat r * N <= 2147483647)%Z ->
  (128 * Z.of_nat r * Z.of_nat p <= 2147483647)%Z ->
  slice_ok h b -> slice_ok h v -> slice_ok h xy ->
  s_off b = 0 -> s_len b = length d ->
  Z.to_nat N * (128 * r) <= s_len v -> 256 * r <= s_len xy ->
  s_arr b <> s_arr v -> s_arr b <> s_arr xy -> s_arr v <> s_arr xy ->
  k < p -> (k + 1) * (128 * r) <= length d ->
  view h b (length d) = mix_all_code r N k d ++ drop (k * (128 * r)) d ->
  exists h',
    (let* bi := slice_from b
                  (int_mul isz (int_mul isz (Z.of_nat k) 128) (Z.of_nat r)) in
     smix_with isz blockMix bi (Z.of_nat r) N v xy) h = Some (tt, h') /\
    slice_ok h' b /\ slice_ok h' v /\ slice_ok h' xy /\
    view h' b (length d) =
      mix_all_code r N (S k) d ++ drop (S k * (128 * r)) d.
Proof.
  intros Hr1 HN HbN Hbp Hb Hv Hxy Hob Hlb Hlv Hlxy Hbv Hbxy Hvxy Hk Hkd Hview.
  set (n := 128 * r) in *.
  assert (Hr : (128 * Z.of_nat r <= 2147483647)%Z) by nia.
  assert (Hkn : (0 <= Z.of_nat k * 128 * Z.of_nat r <= 2147483647)%Z) by nia.
  assert (HbN' : (128 * Z.of_nat r * N <= max_int isz)%Z)
    by (pose proof (max_int_ge isz); lia).
  rewrite (int_mul_small isz (Z.of_nat k) 128) by int_bound.
  rewrite int_mul_small by int_bound.
  replace (Z.of_nat k * 128 * Z.of_nat r)%Z with (Z.of_nat (k * n)) by lia.
  rewrite (bind_Some _ _ _ _ _ (slice_from_eq b (k * n) h ltac:(lia))).
  set (bi := sfrom b (k * n)).
  assert (Hbi : slice_ok h bi) by (apply sfrom_ok; [exact Hb|lia]).
  destruct (smix_with_ok isz blockMix blockMix_ok h bi v xy r N Hr1 HN HbN'
              Hbi Hv Hxy ltac:(cbn [s_len bi sfrom]; lia) Hlv Hlxy
              ltac:(left; exact Hbv) ltac:(left; exact Hbxy) ltac:(left; exact Hvxy))
    as (h' & E & Hvi & Hun).
  fold n in E, Hvi, Hun.
  exists h'. split; [exact E|].
  split; [apply (slice_ok_unchanged _ _ _ _ Hun), Hb|].
  split; [apply (slice_ok_unchanged _ _ _ _ Hun), Hv|].
  split; [apply (slice_ok_unchanged _ _ _ _ Hun), Hxy|].
  set (P := mix_all_code r N k d) in *.
  assert (HP : length P = k * n) by (apply length_mix_all_code, HN).
  assert (Hold : view h bi n = Spec.mix_block r d k).
  { unfold view, bi. cbn [s_arr s_off sfrom]. rewrite (bytes_at_sub _ _ _ (length d)) by lia.
    fold (view h b (length d)). rewrite Hview.
    rewrite drop_app_length' by (symmetry; exact HP). unfold Spec.mix_block. fold n.
    reflexivity. }
  assert (Hframe : forall off m, off + m <= k * n \/ k * n + n <= off ->
            bytes_at h' (s_arr b) off m = bytes_at h (s_arr b) off m).
  { intros off m Hout. apply bytes_at_ext. intros j Hj.
    destruct Hun as [_ Hun]. destruct (Hun (s_arr b)) as [_ F]; [apply Hb|].
    apply F. unfold loc_union. intros [[_ Hin]|[[Ha _]|[Ha _]]];
      [cbn [s_off bi sfrom] in Hin; lia|congruence|congruence]. }
  assert (Hview0 : bytes_at h (s_arr b) 0 (length d) = P ++ drop (k * n) d).
  { rewrite <- Hview. unfold view. rewrite Hob. reflexivity. }
  assert (Hvi0 : bytes_at h' (s_arr b) (0 + k * n) n = SMix_code r N (Spec.mix_block r d k)).
  { rewrite <- Hold, <- Hvi. unfold view, bi. cbn [s_arr s_off sfrom].
    rewrite Hob. reflexivity. }
  rewrite mix_all_code_S. fold P. fold n.
  unfold view. rewrite Hob.
  replace (length d) with (k * n + (n + (length d - (k * n + n)))) at 1 by lia.
  rewrite !bytes_at_app. rewrite <- app_assoc. f_equal; [|f_equal].
  - rewrite Hframe by lia.
    rewrite <- (bytes_at_take h (s_arr b) 0 (length d) (k * n)) by lia.
    rewrite Hview0. rewrite take_app_length' by (symmetry; exact HP). reflexivity.
  - exact Hvi0.
  - rewrite Hframe by lia.
    replace (0 + k * n + n) with (0 + (k * n + n)) by lia.
    rewrite (bytes_at_sub h (s_arr b) 0 (length d)) by lia.
    rewrite Hview0.
    rewrite take_ge by (rewrite length_drop, length_app, length_drop; lia).
    rewrite drop_app_add' by (symmetry; exact HP).
    rewrite drop_drop. f_equal. lia.
Qed.
End KeyLoop.

Section KeyRun.
Variable isz : IntSize.
Variable blockMix : slice -> slice -> Z -> M unit.
Hypothesis blockMix_ok : blockMix_refines isz blockMix.
Variable pbkdf2 : list Z -> list Z -> Z -> Z -> option (list Z).
Implicit Types (h : heap) (b v xy s : slice).

Lemma fresh_data_ok h (d : list Z) :
  slice_ok (h ++ [d]) (Slice (length h) 0 (length d) (length d)) /\
  view (h ++ [d]) (Slice (length h) 0 (length d) (length d)) (length d) = d.
Proof.
  unfold slice_ok, view, bytes_at. cbn [s_arr s_off s_len s_cap].
  rewrite length_app. cbn [length].
  rewrite list_lookup_total_middle by reflexivity.
  split; [lia|]. rewrite drop_0. apply take_ge. lia.
Qed.

(** The loop over the mix blocks, and the final call, on a heap where
    the three buffers are allocated. *)
Lemma key_tail h b v xy (r p : nat) (N keyLen : Z) password d :
  (1 <= r)%nat -> (1 <= p)%nat -> 1 <= N ->
  128 * Z.of_nat r * N <= 2147483647 ->
  128 * Z.of_nat r * Z.of_nat p <= 2147483647 ->
  slice_ok h b -> slice_ok h v -> slice_ok h xy ->
  s_off b = 0%nat -> s_len b = length d -> s_cap b = length d ->
  (Z.to_nat N * (128 * r) <= s_len v)%nat -> (256 * r <= s_len xy)%nat ->
  s_arr b <> s_arr v -> s_arr b <> s_arr xy -> s_arr v <> s_arr xy ->
  view h b (length d) = d ->
  outcome
    ((for_range 0 (Z.of_nat p) (fun i =>
        let* bi := slice_from b (int_mul isz (int_mul isz i 128) (Z.of_nat r)) in
        smix_with isz blockMix bi (Z.of_nat r) N v xy) ;;;
      let* salt2 := slice_bytes b in
      match pbkdf2 password salt2 1 keyLen with
      | Some k => ret (Some k, @None string)
      | None => panic
      end) h) =
  if decide (p * (128 * r) <= length d)%nat then
    match pbkdf2 password
            (mix_all_code r N p d ++ drop (p * (128 * r)) d) 1 keyLen with
    | Some k => Some (Some k, None)
    | None => None
    end
  else None.
Proof.
  intros Hr1 Hp1 HN HbN Hbp Hb Hv Hxy Hob Hlb Hcb Hlv Hlxy Hbv Hbxy Hvxy Hview.
  set (n := (128 * r)%nat) in *.
  set (I := fun (i : Z) (hi : heap) =>
    slice_ok hi b /\ slice_ok hi v /\ slice_ok hi xy /\
    view hi b (length d) =
      mix_all_code r N (Z.to_nat i) d ++ drop (Z.to_nat i * n) d).
  assert (HI0 : I 0 h).
  { unfold I. split; [exact Hb|]. split; [exact Hv|]. split; [exact Hxy|].
    rewrite Hview. reflexivity. }
  assert (Hstep : forall kmax, (kmax * n <= length d)%nat -> (kmax <= p)%nat ->
            forall i hi, 0 <= i < Z.of_nat kmax -> I i hi ->
            exists h',
              (let* bi := slice_from b (int_mul isz (int_mul isz i 128) (Z.of_nat r)) in
               smix_with isz blockMix bi (Z.of_nat r) N v xy) hi = Some (tt, h') /\
              I (i + 1) h').
  { intros kmax Hkmax Hkp i hi Hi (Hb' & Hv' & Hxy' & Hvw).
    set (k := Z.to_nat i) in *. replace i with (Z.of_nat k) by lia.
    destruct (key_step isz blockMix blockMix_ok hi b v xy r N p d k Hr1 HN HbN Hbp
                Hb' Hv' Hxy' Hob Hlb Hlv Hlxy Hbv Hbxy Hvxy ltac:(lia)
                ltac:(fold n; nia) Hvw) as (h' & E & Hb2 & Hv2 & Hxy2 & Hvw2).
    exists h'. split; [exact E|]. unfold I.
    replace (Z.to_nat (Z.of_nat k + 1)) with (S k) by lia. auto. }
  destruct (decide (p * n <= length d)%nat) as [Hfit|Hshort].
  - destruct (for_range_inv I _ 0 (Z.of_nat p) h ltac:(lia) HI0
                (Hstep p Hfit ltac:(lia))) as (h1 & E & Hb1 & _ & _ & Hvw).
    rewrite (bind_Some _ _ _ _ _ E).
    rewrite (bind_Some _ _ _ _ _ (slice_bytes_eq h1 b Hb1)).
    rewrite Hlb, Hvw, Nat2Z.id.
    destruct (pbkdf2 password _ 1 keyLen); reflexivity.
  - set (k0 := (length d / n)%nat).
    assert (Hn0 : n <> 0%nat) by lia.
    pose proof (Nat.Div0.mul_div_le (length d) n) as Hlo.
    pose proof (Nat.mul_succ_div_gt (length d) n Hn0) as Hhi.
    fold k0 in Hlo, Hhi.
    assert (Hk0p : (k0 < p)%nat) by nia.
    rewrite bind_None; [reflexivity|].
    apply (for_range_panics I _ 0 (Z.of_nat p) (Z.of_nat k0) h ltac:(lia) HI0).
    + apply (Hstep k0); lia.
    + intros hi (Hb' & _).
      rewrite (int_mul_small isz (Z.of_nat k0) 128) by int_bound.
      rewrite int_mul_small by int_bound.
      replace (Z.of_nat k0 * 128 * Z.of_nat r) with (Z.of_nat (k0 * n)) by lia.
      rewrite (bind_Some _ _ _ _ _ (slice_from_eq b (k0 * n) hi ltac:(lia))).
      apply smix_short_panics. rewrite int_mul_small by int_bound.
      cbn [s_cap sfrom]. lia.
Qed.

(** [Key] on parameters that pass both guards. *)
Lemma Key_with_nat Nmin password salt (N : Z) (r p : nat) keyLen h :
  ~ (N <= Nmin \/ Z.land N (int_sub isz N 1) <> 0) ->
  1 <= N -> (1 <= r)%nat -> (1 <= p)%nat ->
  128 * Z.of_nat r * Z.of_nat p <= 2147483647 ->
  256 * Z.of_nat r <= 2147483647 ->
  128 * Z.of_nat r * N <= 2147483647 ->
  outcome (Key_with isz blockMix pbkdf2 Nmin password salt N
             (Z.of_nat r) (Z.of_nat p) keyLen h) =
  Key_result pbkdf2 password salt N (Z.of_nat r) (Z.of_nat p) keyLen.
Proof.
  intros Hg HN Hr1 Hp1 Hbp Hbr HbN.
  unfold Key_with, Key_result. rewrite decide_False by exact Hg.
  rewrite (bind_Some _ _ _ _ _
             (too_large_eq isz N (Z.of_nat r) (Z.of_nat p) h ltac:(lia) ltac:(lia))).
  rewrite bool_decide_eq_false_2
    by (apply guard_conditions_valid; lia).
  rewrite (int_mul_small isz 256) by int_bound.
  rewrite (int_mul_small isz 128 (Z.of_nat r)) by int_bound.
  rewrite (int_mul_small isz (128 * Z.of_nat r) N) by int_bound.
  rewrite (int_mul_small isz (Z.of_nat p) 128) by int_bound.
  rewrite (int_mul_small isz (Z.of_nat p * 128) (Z.of_nat r)) by int_bound.
  replace (256 * Z.of_nat r) with (Z.of_nat (256 * r)) by lia.
  replace (128 * Z.of_nat r * N) with (Z.of_nat (Z.to_nat N * (128 * r))) by nia.
  rewrite (bind_Some _ _ _ _ _ (make_bytes_eq (256 * r) h)).
  set (xy := Slice (length h) 0 (256 * r) (256 * r)).
  set (h1 := h ++ [replicate (256 * r) 0]).
  rewrite (bind_Some _ _ _ _ _ (make_bytes_eq (Z.to_nat N * (128 * r)) h1)).
  set (v := Slice (length h1) 0 (Z.to_nat N * (128 * r)) (Z.to_nat N * (128 * r))).
  set (h2 := h1 ++ [replicate (Z.to_nat N * (128 * r)) 0]).
  unfold bind at 1. unfold pbkdf2_alloc.
  destruct (pbkdf2 password salt 1 (Z.of_nat p * 128 * Z.of_nat r)) as [d|];
    [|reflexivity].
  set (b := Slice (length h2) 0 (length d) (length d)).
  set (h3 := h2 ++ [d]).
  rewrite !Nat2Z.id.
  assert (U12 : unchanged_except (fun _ _ => False) h1 h2) by apply unchanged_alloc.
  assert (U23 : unchanged_except (fun _ _ => False) h2 h3) by apply unchanged_alloc.
  assert (Hxy : slice_ok h3 xy).
  { apply (slice_ok_unchanged _ _ _ _ U23), (slice_ok_unchanged _ _ _ _ U12).
    apply fresh_slice_ok. }
  assert (Hv : slice_ok h3 v).
  { apply (slice_ok_unchanged _ _ _ _ U23). apply fresh_slice_ok. }
  destruct (fresh_data_ok h2 d) as [Hb Hview]. fold b h3 in Hb, Hview.
  assert (L1 : length h1 = S (length h)).
  { unfold h1. rewrite length_app. cbn [length]. lia. }
  assert (L2 : length h2 = S (length h1)).
  { unfold h2. rewrite length_app. cbn [length]. lia. }
  apply (key_tail h3 b v xy r p N keyLen password d Hr1 Hp1 HN HbN Hbp Hb Hv Hxy);
    try reflexivity; try exact Hview; cbn [s_arr s_len b v xy]; lia.
Qed.

Lemma Key_with_outcome Nmin password salt (N r p : Z) keyLen h :
  ~ (N <= Nmin \/ Z.land N (int_sub isz N 1) <> 0) ->
  1 <= N -> 1 <= r -> 1 <= p ->
  128 * r * p <= 2147483647 -> 256 * r <= 2147483647 -> 128 * r * N <= 2147483647 ->
  outcome (Key_with isz blockMix pbkdf2 Nmin password salt N r p keyLen h) =
  Key_result pbkdf2 password salt N r p keyLen.
Proof.
  intros Hg HN Hr Hp Hbp Hbr HbN.
  rewrite <- (Z2Nat.id r), <- (Z2Nat.id p) by lia.
  apply Key_with_nat; try assumption; try lia.
Qed.
End KeyRun.

(** *** The code's word and byte expressions are the specification's *)

Lemma lor_disjoint_add a b k :
  0 <= k -> 0 <= a < 2 ^ k -> Z.lor a (b * 2 ^ k) = a + b * 2 ^ k.
Proof.
  intros Hk Ha. rewrite <- Z.add_lor_land.
  replace (Z.land a (b * 2 ^ k)) with 0; [lia|].
  symmetry. apply Z.bits_inj'. intros n Hn. rewrite Z.bits_0, Z.land_spec.
  destruct (Z.lt_ge_cases n k) as [Hlt|Hge].
  - rewrite Z.mul_pow2_bits_low by lia. apply Bool.andb_false_r.
  - replace (Z.testbit a n) with false; [reflexivity|].
    symmetry. destruct (Z.eq_dec a 0) as [->|Hne]; [apply Z.bits_0|].
    apply Z.bits_above_log2; [lia|].
    apply Z.log2_lt_pow2; [lia|]. assert (2 ^ k <= 2 ^ n) by (apply Z.pow_le_mono_r; lia).
    lia.
Qed.

Lemma rot_add a b k :
  0 < k < 32 ->
  Z.lor (u32_shl (u32_add a b) k) (u32_shr (u32_add a b) (32 - k)) =
  Spec.rotl32 (Spec.add32 a b) k.
Proof.
  intros Hk. unfold u32_shl, u32_shr, Spec.rotl32.
  change (Spec.add32 a b) with (u32_add a b).
  set (w := u32_add a b).
  assert (Hw : 0 <= w < 2 ^ 32) by (apply Z.mod_pos_bound; lia).
  rewrite Z.shiftl_mul_pow2, Z.shiftr_div_pow2 by lia.
  assert (Hp : 2 ^ 32 = 2 ^ (32 - k) * 2 ^ k) by (rewrite <- Z.pow_add_r by lia; f_equal; lia).
  assert (H2k : 0 < 2 ^ k) by (apply Z.pow_pos_nonneg; lia).
  assert (H2k' : 0 < 2 ^ (32 - k)) by (apply Z.pow_pos_nonneg; lia).
  assert (Hhi : 0 <= w / 2 ^ (32 - k) < 2 ^ k).
  { split; [apply Z.div_pos; lia|]. apply Z.div_lt_upper_bound; lia. }
  assert (Hlo : (w * 2 ^ k) mod 2 ^ 32 = (w mod 2 ^ (32 - k)) * 2 ^ k).
  { rewrite Hp. rewrite Z.mul_mod_distr_r by lia. reflexivity. }
  rewrite Hlo, Z.lor_comm. rewrite lor_disjoint_add by lia. lia.
Qed.

Lemma is_byte_mod v : Spec.is_byte (v mod 2 ^ 8).
Proof. unfold Spec.is_byte. pose proof (Z.mod_pos_bound v (2 ^ 8) ltac:(lia)). lia. Qed.

Lemma is_byte_lxor a b : Spec.is_byte a -> Spec.is_byte b -> Spec.is_byte (Z.lxor a b).
Proof.
  unfold Spec.is_byte. intros Ha Hb.
  assert (H0 : 0 <= Z.lxor a b) by (apply Z.lxor_nonneg; lia).
  split; [exact H0|].
  destruct (Z.eq_dec (Z.lxor a b) 0) as [->|Hne]; [lia|].
  change 256 with (2 ^ 8). apply Z.log2_lt_pow2; [lia|].
  pose proof (Z.log2_lxor a b ltac:(lia) ltac:(lia)) as Hl.
  assert (Z.log2 a < 8).
  { destruct (Z.eq_dec a 0) as [->|?]; [simpl; lia|]. apply Z.log2_lt_pow2; lia. }
  assert (Z.log2 b < 8).
  { destruct (Z.eq_dec b 0) as [->|?]; [simpl; lia|]. apply Z.log2_lt_pow2; lia. }
  lia.
Qed.

Lemma enc32_le_encode v : enc32 v = Spec.le_encode 4 v.
Proof.
  unfold enc32, to_byte, u32_shr. cbn [Spec.le_encode].
  rewrite !Z.shiftr_div_pow2 by lia. rewrite !Z.div_div by lia.
  reflexivity.
Qed.

Lemma le_decode4 b0 b1 b2 b3 :
  Spec.is_byte b0 -> Spec.is_byte b1 -> Spec.is_byte b2 -> Spec.is_byte b3 ->
  Z.lor (Z.lor (Z.lor b0 (u32_shl b1 8)) (u32_shl b2 16)) (u32_shl b3 24) =
  Spec.le_decode [b0; b1; b2; b3].
Proof.
  unfold Spec.is_byte, u32_shl. intros H0 H1 H2 H3. cbn [Spec.le_decode].
  rewrite !Z.shiftl_mul_pow2 by lia.
  change (2 ^ 32) with 4294967296. change (2 ^ 8) with 256.
  change (2 ^ 16) with 65536. change (2 ^ 24) with 16777216.
  rewrite !Z.mod_small by lia.
  change 256 with (2 ^ 8) at 1. rewrite (lor_disjoint_add b0 b1 8) by lia.
  change 65536 with (2 ^ 16). rewrite (lor_disjoint_add _ b2 16) by lia.
  change 16777216 with (2 ^ 24). rewrite (lor_disjoint_add _ b3 24) by lia.
  lia.
Qed.

Lemma le_decode8 b0 b1 b2 b3 b4 b5 b6 b7 :
  Spec.is_byte b0 -> Spec.is_byte b1 -> Spec.is_byte b2 -> Spec.is_byte b3 ->
  Spec.is_byte b4 -> Spec.is_byte b5 -> Spec.is_byte b6 -> Spec.is_byte b7 ->
  Z.lor (Z.lor (Z.lor (Z.lor (Z.lor (Z.lor (Z.lor
    b0 (u64_shl b1 8)) (u64_shl b2 16)) (u64_shl b3 24)) (u64_shl b4 32))
    (u64_shl b5 40)) (u64_shl b6 48)) (u64_shl b7 56) =
  Spec.le_decode [b0; b1; b2; b3; b4; b5; b6; b7].
Proof.
  unfold Spec.is_byte, u64_shl. intros H0 H1 H2 H3 H4 H5 H6 H7. cbn [Spec.le_decode].
  rewrite !Z.shiftl_mul_pow2 by lia.
  change (2 ^ 64) with 18446744073709551616.
  rewrite !Z.mod_small by lia.
  rewrite (lor_disjoint_add b0 b1 8) by lia.
  rewrite (lor_disjoint_add _ b2 16) by lia.
  rewrite (lor_disjoint_add _ b3 24) by lia.
  rewrite (lor_disjoint_add _ b4 32) by lia.
  rewrite (lor_disjoint_add _ b5 40) by lia.
  rewrite (lor_disjoint_add _ b6 48) by lia.
  rewrite (lor_disjoint_add _ b7 56) by lia.
  lia.
Qed.

(** *** Salsa20/8: the code's rounds are the specification's double-round *)

Lemma double_round_code x :
  words_of_tuple (ArrayVariant.salsa_loop_body x) =
  Spec.double_round (words_of_tuple x).
Proof.
  destruct x as [[[[[[[[[[[[[[[x0 x1] x2] x3] x4] x5] x6] x7] x8] x9] x10] x11] x12] x13] x14] x15].
  unfold ArrayVariant.salsa_loop_body, words_of_tuple. cbv zeta.
  rewrite !rot_add by lia.
  reflexivity.
Qed.

Lemma iter_double_round_code n w :
  length w = 16%nat ->
  words_of_tuple (Nat.iter n ArrayVariant.salsa_loop_body (tuple_of_words w)) =
  Nat.iter n Spec.double_round w.
Proof.
  intros H. induction n as [|n IH].
  - apply words_of_tuple_of_words, H.
  - rewrite !Nat.iter_succ. rewrite double_round_code, IH. reflexivity.
Qed.

Lemma Forall_is_byte_lookup (l : list Z) i :
  Forall Spec.is_byte l -> (i < length l)%nat -> Spec.is_byte (l !!! i).
Proof.
  intros HF Hi. apply (Forall_lookup_1 _ _ i _ HF).
  apply list_lookup_lookup_total_lt, Hi.
Qed.

Lemma take4_drop (l : list Z) k :
  (4 * k + 4 <= length l)%nat ->
  take 4 (drop (4 * k) l) =
    [l !!! (4 * k)%nat; l !!! (4 * k + 1)%nat; l !!! (4 * k + 2)%nat; l !!! (4 * k + 3)%nat].
Proof.
  intros H. apply list_eq. intros i.
  destruct (decide (i < 4)%nat) as [Hi|Hi].
  - rewrite lookup_take_lt by exact Hi. rewrite lookup_drop.
    rewrite (list_lookup_lookup_total_lt l) by lia.
    destruct i as [|[|[|[|i]]]]; try lia; cbn [lookup list_lookup];
      rewrite ?Nat.add_0_r; reflexivity.
  - rewrite lookup_take_ge by lia. symmetry. apply lookup_ge_None. simpl. lia.
Qed.

Lemma dec32_le_decode l k :
  Forall Spec.is_byte l -> (4 * k + 4 <= length l)%nat ->
  dec32 l k = Spec.le_decode (take 4 (drop (4 * k) l)).
Proof.
  intros HF Hk. rewrite take4_drop by exact Hk. unfold dec32.
  apply le_decode4; apply Forall_is_byte_lookup; (exact HF || lia).
Qed.

Lemma Salsa_code_spec l :
  Forall Spec.is_byte l -> length l = 64%nat -> Salsa_code l = Spec.Salsa20_8 l.
Proof.
  intros HF HL. unfold Salsa_code, Spec.Salsa20_8, salsa_words. cbv zeta.
  assert (HW : map (dec32 l) (seq 0 16) = Spec.words_of_block l).
  { unfold Spec.words_of_block. apply map_ext_in. intros k Hk. apply in_seq in Hk.
    apply dec32_le_decode; [exact HF|lia]. }
  rewrite HW.
  rewrite iter_double_round_code by reflexivity.
  unfold Spec.block_of_words. f_equal. apply map_ext. intros v. apply enc32_le_encode.
Qed.

Lemma Forall_is_byte_enc32 ws : Forall Spec.is_byte (concat (map enc32 ws)).
Proof.
  induction ws as [|v ws IH]; cbn [map concat]; [constructor|].
  apply Forall_app. split; [|exact IH].
  unfold enc32, to_byte. repeat constructor; apply is_byte_mod.
Qed.

Lemma Salsa_code_bytes l : Forall Spec.is_byte (Salsa_code l).
Proof. apply Forall_is_byte_enc32. Qed.

Lemma xor_bytes_is_byte a b :
  Forall Spec.is_byte a -> Forall Spec.is_byte b -> Forall Spec.is_byte (Spec.xor_bytes a b).
Proof.
  intros Ha. revert b. induction Ha as [|x a Hx _ IH]; intros b Hb; [constructor|].
  destruct Hb as [|y b Hy Hb]; [constructor|]. cbn [Spec.xor_bytes zip_with].
  constructor; [apply is_byte_lxor; assumption|apply IH, Hb].
Qed.

(** *** The mixing layers of the code are the specification's, on bytes *)
Section PureLayers.
Local Open Scope nat_scope.
Implicit Types (B X : list Z) (r : nat).

Lemma sub_block_bytes B i : Forall Spec.is_byte B -> Forall Spec.is_byte (Spec.sub_block B i).
Proof. intros H. unfold Spec.sub_block. apply Forall_take, Forall_drop, H. Qed.

Lemma length_sub_block B i :
  64 * i + 64 <= length B -> length (Spec.sub_block B i) = 64.
Proof. intros H. unfold Spec.sub_block. rewrite length_take, length_drop. lia. Qed.

Lemma chain_spec X (bs : list (list Z)) :
  Forall Spec.is_byte X -> length X = 64 ->
  Forall (fun c => Forall Spec.is_byte c /\ length c = 64) bs ->
  Spec.chain Salsa_code X bs = Spec.chain Spec.Salsa20_8 X bs.
Proof.
  intros HX HL Hbs. revert X HX HL.
  induction Hbs as [|c bs [Hc Hlc] _ IH]; intros X HX HL; [reflexivity|].
  cbn [Spec.chain].
  assert (E : Salsa_code (Spec.xor_bytes X c) = Spec.Salsa20_8 (Spec.xor_bytes X c)).
  { apply Salsa_code_spec; [apply xor_bytes_is_byte; assumption|].
    rewrite length_xor_bytes. lia. }
  rewrite <- E. f_equal. apply IH; [apply Salsa_code_bytes|apply length_Salsa_code].
Qed.

Lemma BlockMix_code_spec r B :
  1 <= r -> Forall Spec.is_byte B -> length B = 128 * r ->
  BlockMix_code r B = Spec.BlockMix r B.
Proof.
  intros Hr HB HL. unfold BlockMix_code, Spec.BlockMix, Spec.BlockMix_of. cbv zeta.
  rewrite chain_spec; [reflexivity| | |].
  - apply sub_block_bytes, HB.
  - apply length_sub_block. lia.
  - apply Forall_forall. intros c Hc. apply list_elem_of_In, in_map_iff in Hc.
    destruct Hc as (i & <- & Hi). apply in_seq in Hi.
    split; [apply sub_block_bytes, HB|apply length_sub_block; lia].
Qed.

Lemma chain_bytes X (bs : list (list Z)) :
  Forall (Forall Spec.is_byte) (Spec.chain Salsa_code X bs).
Proof.
  revert X. induction bs as [|c bs IH]; intros X; cbn [Spec.chain]; constructor.
  - apply Salsa_code_bytes.
  - apply IH.
Qed.

Lemma lookup_total_bytes (Ys : list (list Z)) i :
  Forall (Forall Spec.is_byte) Ys -> Forall Spec.is_byte (Ys !!! i).
Proof.
  intros H. rewrite list_lookup_total_alt.
  destruct (Ys !! i) as [c|] eqn:E; [|constructor].
  apply (Forall_lookup_1 _ _ _ _ H E).
Qed.

Lemma concat_bytes (Ys : list (list Z)) :
  Forall (Forall Spec.is_byte) Ys -> Forall Spec.is_byte (concat Ys).
Proof. induction 1; cbn [concat]; [constructor|]. apply Forall_app. auto. Qed.

Lemma BlockMix_code_bytes r B : Forall Spec.is_byte (BlockMix_code r B).
Proof.
  unfold BlockMix_code, Spec.BlockMix_of. cbv zeta.
  apply Forall_app. split; apply concat_bytes, Forall_forall; intros c Hc;
    apply list_elem_of_In, in_map_iff in Hc; destruct Hc as (i & <- & _);
    apply lookup_total_bytes, chain_bytes.
Qed.

Lemma take8_drop (l : list Z) m :
  m + 8 <= length l ->
  take 8 (drop m l) =
    [drop m l !!! 0; drop m l !!! 1; drop m l !!! 2; drop m l !!! 3;
     drop m l !!! 4; drop m l !!! 5; drop m l !!! 6; drop m l !!! 7].
Proof.
  intros H. apply list_eq. intros i.
  destruct (decide (i < 8)) as [Hi|Hi].
  - rewrite lookup_take_lt by exact Hi.
    rewrite (list_lookup_lookup_total_lt (drop m l)) by (rewrite length_drop; lia).
    destruct i as [|[|[|[|[|[|[|[|i]]]]]]]]; try lia; reflexivity.
  - rewrite lookup_take_ge by lia. symmetry. apply lookup_ge_None. simpl. lia.
Qed.

Lemma Integerify_code_spec r B :
  Forall Spec.is_byte B -> (2 * r - 1) * 64 + 8 <= length B ->
  Integerify_code r B = Spec.Integerify r B.
Proof.
  intros HB HL. unfold Integerify_code, Spec.Integerify. cbv zeta.
  rewrite take8_drop by exact HL.
  assert (Hd : Forall Spec.is_byte (drop ((2 * r - 1) * 64) B)) by apply Forall_drop, HB.
  apply le_decode8; apply Forall_is_byte_lookup; (exact Hd || (rewrite length_drop; lia)).
Qed.

Lemma iter_BlockMix_spec r k B :
  1 <= r -> Forall Spec.is_byte B -> length B = 128 * r ->
  Nat.iter k (BlockMix_code r) B = Nat.iter k (Spec.BlockMix r) B /\
  Forall Spec.is_byte (Nat.iter k (BlockMix_code r) B) /\
  length (Nat.iter k (BlockMix_code r) B) = 128 * r.
Proof.
  intros Hr HB HL. induction k as [|k (E & Hb & Hl)]; [auto|].
  rewrite !Nat.iter_succ. rewrite <- E.
  split; [apply BlockMix_code_spec; assumption|].
  split; [apply BlockMix_code_bytes|apply length_BlockMix_code].
Qed.

Lemma fill_table_spec r k B :
  1 <= r -> Forall Spec.is_byte B -> length B = 128 * r ->
  Spec.fill_table Salsa_code r k B = Spec.fill_table Spec.Salsa20_8 r k B /\
  Forall (fun c => Forall Spec.is_byte c /\ length c = 128 * r)
         (Spec.fill_table Salsa_code r k B).
Proof.
  intros Hr. revert B. induction k as [|k IH]; intros B HB HL; [split; [reflexivity|constructor]|].
  cbn [Spec.fill_table].
  pose proof (BlockMix_code_spec r B Hr HB HL) as E. unfold BlockMix_code in E.
  destruct (IH (Spec.BlockMix_of Salsa_code r B)
              (BlockMix_code_bytes r B) (length_BlockMix_code r B)) as [E2 F2].
  split.
  - f_equal. rewrite E2. unfold Spec.BlockMix in E. rewrite E. reflexivity.
  - constructor; [auto|exact F2].
Qed.

Lemma mix_step_spec r (N : Z) (V : list (list Z)) X :
  1 <= r -> (1 <= N)%Z -> length V = Z.to_nat N ->
  Forall (fun c => Forall Spec.is_byte c /\ length c = 128 * r) V ->
  Forall Spec.is_byte X -> length X = 128 * r ->
  Spec.mix_step Salsa_code Integerify_code r N V X =
    Spec.mix_step Spec.Salsa20_8 Spec.Integerify r N V X.
Proof.
  intros Hr HN HLV HV HX HL. unfold Spec.mix_step. cbv zeta.
  rewrite Integerify_code_spec by (exact HX || lia).
  set (j := Z.to_nat (Z.land (Spec.Integerify r X) (N - 1))).
  assert (Hj : j < length V).
  { pose proof (land_mask_bounds (Spec.Integerify r X) (N - 1) ltac:(lia)). lia. }
  assert (HVj : Forall Spec.is_byte (V !!! j) /\ length (V !!! j) = 128 * r).
  { apply (Forall_lookup_1 _ _ j _ HV). apply list_lookup_lookup_total_lt, Hj. }
  apply BlockMix_code_spec; [exact Hr| |].
  - apply xor_bytes_is_byte; [exact HX|apply HVj].
  - rewrite length_xor_bytes. lia.
Qed.

Lemma SMix_code_spec r (N : Z) B :
  1 <= r -> Forall Spec.is_byte B -> length B = 128 * r ->
  SMix_code r N B = Spec.SMix r N B.
Proof.
  intros Hr HB HL. unfold SMix_code, Spec.SMix, Spec.SMix_of. cbv zeta.
  destruct (Z_lt_le_dec N 1) as [HN|HN].
  { replace (Z.to_nat N) with 0 by lia. reflexivity. }
  destruct (fill_table_spec r (Z.to_nat N) B Hr HB HL) as [EV FV].
  destruct (iter_BlockMix_spec r (Z.to_nat N) B Hr HB HL) as (EX & HXb & HXl).
  rewrite <- EV. fold (BlockMix_code r). fold (Spec.BlockMix r). rewrite <- EX.
  set (V := Spec.fill_table Salsa_code r (Z.to_nat N) B) in *.
  set (X := Nat.iter (Z.to_nat N) (BlockMix_code r) B) in *.
  assert (HLV : length V = Z.to_nat N) by apply length_fill_table.
  generalize (Z.to_nat N) at 1 2. intros k.
  assert (G : Nat.iter k (Spec.mix_step Salsa_code Integerify_code r N V) X =
              Nat.iter k (Spec.mix_step Spec.Salsa20_8 Spec.Integerify r N V) X /\
              Forall Spec.is_byte
                (Nat.iter k (Spec.mix_step Salsa_code Integerify_code r N V) X) /\
              length (Nat.iter k (Spec.mix_step Salsa_code Integerify_code r N V) X)
                = 128 * r).
  { induction k as [|k (E & Hb & Hl)]; [auto|].
    rewrite !Nat.iter_succ. rewrite <- E.
    split; [apply mix_step_spec; assumption|].
    split; [apply BlockMix_code_bytes|apply length_BlockMix_code]. }
  apply G.
Qed.

Lemma mix_block_bytes r B i :
  Forall Spec.is_byte B -> Forall Spec.is_byte (Spec.mix_block r B i).
Proof. intros H. unfold Spec.mix_block. apply Forall_take, Forall_drop, H. Qed.

Lemma mix_all_code_spec r (N : Z) p B :
  1 <= r -> Forall Spec.is_byte B -> p * (128 * r) <= length B ->
  mix_all_code r N p B = Spec.mix_all Spec.Salsa20_8 Spec.Integerify r N p B.
Proof.
  intros Hr HB HL. unfold mix_all_code, Spec.mix_all. f_equal.
  apply map_ext_in. intros i Hi. apply in_seq in Hi.
  apply SMix_code_spec; [exact Hr|apply mix_block_bytes, HB|].
  unfold Spec.mix_block. rewrite length_take, length_drop. nia.
Qed.
End PureLayers.

(** *** Key: the guards and the valid runs *)

Lemma outcome_Some {A} (o : option (A * heap)) (a : A) :
  outcome o = Some a -> exists h', o = Some (a, h').
Proof.
  destruct o as [[a' h']|]; cbn; intros E; [|discriminate].
  exists h'. congruence.
Qed.

Lemma valid_params_bounds N r p :
  valid_params N r p ->
  1 <= N /\ 1 <= r /\ 1 <= p /\ 128 * r * p <= 2147483647 /\
  256 * r <= 2147483647 /\ 128 * r * N <= 2147483647.
Proof.
  intros (HN & _ & Hr & Hp & Hg).
  destruct (guard_conditions_false N r p ltac:(lia) ltac:(lia) ltac:(lia) Hg)
    as (? & ? & ? & ? & ?).
  repeat split; lia.
Qed.

Section Validator2.
Variable isz : IntSize.

(** The second guard never answers "fine" when a divisor is zero. *)
Lemma too_large_false N r p h h' :
  too_large isz N r p h = Some (false, h') ->
  r <> 0 /\ p <> 0 /\ ~ guard_conditions N r p.
Proof.
  intros E.
  assert (Hp : p <> 0).
  { intros ->. rewrite too_large_panics_p in E. discriminate. }
  assert (Hr : r <> 0).
  { intros ->. revert E. unfold too_large, int_quot.
    rewrite (decide_True (P := 0 = 0)) by reflexivity.
    repeat case_decide; unfold ret, panic; intros E; congruence. }
  split; [exact Hr|]. split; [exact Hp|].
  rewrite too_large_eq in E by assumption.
  intros Hg. rewrite bool_decide_eq_true_2 in E by exact Hg. discriminate.
Qed.

(** The second guard does not look at the heap. *)
Lemma too_large_indep N r p h1 h2 :
  outcome (too_large isz N r p h1) = outcome (too_large isz N r p h2).
Proof.
  unfold too_large. repeat (case_decide || case_match); reflexivity.
Qed.

Lemma first_guard_passes Nmin N :
  Nmin <= 1 -> in_int isz N -> 2 <= N -> Spec.power_of_two N ->
  ~ (N <= Nmin \/ Z.land N (int_sub isz N 1) <> 0).
Proof.
  intros Hm HI HN HP [H|H]; [lia|].
  apply (first_guard_iff isz N HI); [right; exact H|split; assumption].
Qed.

Lemma first_guard_fails Nmin N :
  1 <= Nmin -> in_int isz N -> ~ (2 <= N /\ Spec.power_of_two N) ->
  N <= Nmin \/ Z.land N (int_sub isz N 1) <> 0.
Proof.
  intros Hm HI HN. apply (first_guard_iff isz N HI) in HN.
  destruct HN as [H|H]; [left; lia|right; exact H].
Qed.

(** A negative [r] or [p] meets one of the four conditions. *)
Lemma negative_is_too_large N r p :
  1 <= N -> r <> 0 -> p <> 0 -> r < 0 \/ p < 0 -> guard_conditions N r p.
Proof.
  intros HN Hr Hp Hneg.
  destruct (decide (guard_conditions N r p)) as [Hg|Hg]; [exact Hg|].
  destruct (guard_conditions_false N r p HN Hr Hp Hg) as (? & ? & _). lia.
Qed.
End Validator2.

Section KeyFacts.
Variable isz : IntSize.
Variable blockMix : slice -> slice -> Z -> M unit.
Hypothesis blockMix_ok : blockMix_refines isz blockMix.
Variable pbkdf2 : list Z -> list Z -> Z -> Z -> option (list Z).

Lemma Key_with_rejects_N Nmin password salt N r p keyLen h :
  N <= Nmin \/ Z.land N (int_sub isz N 1) <> 0 ->
  rejects_with err_N
    (Key_with isz blockMix pbkdf2 Nmin password salt N r p keyLen) h.
Proof.
  intros Hg. unfold rejects_with, Key_with.
  rewrite decide_True by exact Hg. reflexivity.
Qed.

Lemma Key_with_too_large Nmin password salt N r p keyLen h :
  ~ (N <= Nmin \/ Z.land N (int_sub isz N 1) <> 0) ->
  r <> 0 -> p <> 0 -> guard_conditions N r p ->
  rejects_with err_large
    (Key_with isz blockMix pbkdf2 Nmin password salt N r p keyLen) h.
Proof.
  intros Hg1 Hr Hp Hg. unfold rejects_with, Key_with.
  rewrite decide_False by exact Hg1.
  rewrite (bind_Some _ _ _ _ _ (too_large_eq isz N r p h Hr Hp)).
  rewrite bool_decide_eq_true_2 by exact Hg. reflexivity.
Qed.

(** With a primitive that honours its contract, the value of a valid
    run is the specification's composition. *)
Lemma Key_result_contract password salt N r p keyLen :
  pbkdf2_contract pbkdf2 -> 1 <= r -> 1 <= p ->
  Key_result pbkdf2 password salt N r p keyLen =
  success <$> Spec.derive_key pbkdf2 password salt N r p keyLen.
Proof.
  intros Hc Hr Hp. unfold Key_result, Spec.derive_key.
  destruct (Hc password salt 1 (p * 128 * r) ltac:(nia)) as (d & E & HL & HB).
  rewrite E.
  assert (HL' : length d = (Z.to_nat p * (128 * Z.to_nat r))%nat) by lia.
  rewrite decide_True by lia.
  rewrite drop_ge by lia. rewrite app_nil_r.
  rewrite mix_all_code_spec by (try exact HB; lia).
  destruct (pbkdf2 password _ 1 keyLen); reflexivity.
Qed.

Lemma Key_with_valid Nmin password salt N r p keyLen h :
  Nmin <= 1 -> pbkdf2_contract pbkdf2 -> in_int isz N -> valid_params N r p ->
  outcome (Key_with isz blockMix pbkdf2 Nmin password salt N r p keyLen h) =
  success <$> Spec.derive_key pbkdf2 password salt N r p keyLen.
Proof.
  intros Hm Hc HI HV.
  destruct (valid_params_bounds N r p HV) as (HN & Hr & Hp & B1 & B2 & B3).
  destruct HV as (HN2 & HP & _).
  rewrite (Key_with_outcome isz blockMix blockMix_ok pbkdf2); try assumption.
  - apply Key_result_contract; assumption.
  - apply first_guard_passes; assumption.
Qed.

(** The value of a run does not depend on the heap it starts from. *)
Lemma Key_with_indep Nmin password salt N r p keyLen h1 h2 :
  0 <= Nmin ->
  outcome (Key_with isz blockMix pbkdf2 Nmin password salt N r p keyLen h1) =
  outcome (Key_with isz blockMix pbkdf2 Nmin password salt N r p keyLen h2).
Proof.
  intros Hm.
  destruct (decide (N <= Nmin \/ Z.land N (int_sub isz N 1) <> 0)) as [Hg|Hg].
  { unfold Key_with. rewrite !decide_True by exact Hg. reflexivity. }
  pose proof (too_large_indep isz N r p h1 h2) as EI.
  destruct (too_large isz N r p h1) as [[b1 h1']|] eqn:E1;
    destruct (too_large isz N r p h2) as [[b2 h2']|] eqn:E2;
    cbn in EI; try discriminate.
  - assert (b2 = b1) by congruence. subst b2. destruct b1.
    + unfold Key_with. rewrite !decide_False by exact Hg.
      unfold bind. rewrite E1, E2. reflexivity.
    + destruct (too_large_false isz N r p h1 h1' E1) as (Hr & Hp & Hgc).
      assert (HN : 1 <= N) by (destruct (decide (N <= Nmin)); [tauto|lia]).
      destruct (guard_conditions_false N r p HN Hr Hp Hgc)
        as (Hr1 & Hp1 & B1 & B2 & B3).
      rewrite !(Key_with_outcome isz blockMix blockMix_ok pbkdf2) by assumption.
      reflexivity.
  - unfold Key_with. rewrite !decide_False by exact Hg.
    unfold bind. rewrite E1, E2. reflexivity.
Qed.
End KeyFacts.

(** ** The claims of the specification *)

(** The primitive used in the examples honours the contract. *)
Lemma pbkdf2_zeros_contract : pbkdf2_contract pbkdf2_zeros.
Proof.
  intros password salt iter dkLen H. unfold pbkdf2_zeros.
  rewrite decide_True by exact H. eexists. split; [reflexivity|].
  split; [apply length_replicate|].
  apply Forall_replicate. unfold Spec.is_byte. lia.
Qed.

Lemma power_of_two_2 : Spec.power_of_two 2.
Proof. exists 1. split; [lia|reflexivity]. Qed.

Lemma valid_params_2_1_1 : valid_params 2 1 1.
Proof.
  split; [lia|]. split; [exact power_of_two_2|]. split; [lia|]. split; [lia|].
  apply guard_conditions_valid; lia.
Qed.

Lemma in_int64_2 : in_int Int64 2.
Proof. unfold in_int. vm_compute. split; discriminate. Qed.

(** *** The mixing functions *)

(** C3: for every 64-byte buffer [b] holding bytes, [salsa] replaces [b]
    by Salsa20/8 of its contents, where [Spec.Salsa20_8] decodes sixteen
    little-endian words, runs 4 double rounds (column step, then row step,
    with the quarter-round pattern on the standard index schedule), adds
    the input words back modulo 2^32 and encodes the words little-endian.
    This holds for the unrolled salsa of scrypt.go, for the rot-helper
    salsa, and (on a 64-byte array [x]) for the array salsa. *)
Theorem C3_salsa_is_Salsa20_8 (isz : IntSize) (h : heap) (b : slice) (x : list Z) :
  slice_ok h b -> (64 <= s_len b)%nat -> Forall Spec.is_byte (view h b 64) ->
  length x = 64%nat -> Forall Spec.is_byte x ->
  ScryptGo.salsa isz b h =
    Some (tt, put h (s_arr b) (s_off b) (Spec.Salsa20_8 (view h b 64))) /\
  RotVariant.salsa isz b h =
    Some (tt, put h (s_arr b) (s_off b) (Spec.Salsa20_8 (view h b 64))) /\
  ArrayVariant.salsa x = Spec.Salsa20_8 x.
Proof.
  intros Hok Hlen Hb Hx HxB.
  assert (HL : length (view h b 64) = 64%nat)
    by (apply length_view; [exact Hok|destruct Hok as (_ & ? & _); lia]).
  rewrite <- (Salsa_code_spec (view h b 64)) by assumption.
  rewrite <- (Salsa_code_spec x) by assumption.
  split; [apply scryptgo_salsa_eq; assumption|].
  split; [apply rot_salsa_eq; assumption|].
  apply array_salsa_code, Hx.
Qed.

Lemma C3_salsa_witness :
  ScryptGo.salsa Int64 (Slice 0 0 64 64) [replicate 64 0] =
    Some (tt, put [replicate 64 0] 0 0
                (Spec.Salsa20_8 (view [replicate 64 0] (Slice 0 0 64 64) 64))) /\
  RotVariant.salsa Int64 (Slice 0 0 64 64) [replicate 64 0] =
    Some (tt, put [replicate 64 0] 0 0
                (Spec.Salsa20_8 (view [replicate 64 0] (Slice 0 0 64 64) 64))) /\
  ArrayVariant.salsa (replicate 64 0) = Spec.Salsa20_8 (replicate 64 0).
Proof.
  apply (C3_salsa_is_Salsa20_8 Int64 [replicate 64 0] (Slice 0 0 64 64)
           (replicate 64 0)).
  - unfold slice_ok. simpl. lia.
  - simpl. lia.
  - refine (bool_decide_unpack _ _). vm_compute. exact I.
  - reflexivity.
  - refine (bool_decide_unpack _ _). vm_compute. exact I.
Defined.

(** C2: for every [r >= 1] and every buffer [b] whose first [128 r]
    bytes are [B], with a separate scratch [y] of [128 r] bytes,
    [blockMix] replaces [B] by BlockMix(B): [Spec.BlockMix] seeds X with
    the last 64-byte sub-block, chains XOR and Salsa20/8 over the [2 r]
    sub-blocks, and outputs the even-indexed results followed by the
    odd-indexed ones.  Nothing outside [b] and [y] changes.  All three
    variants. *)
Theorem C2_blockMix_is_BlockMix (isz : IntSize) (h : heap) (b y : slice) (r : nat) :
  (1 <= r)%nat -> 128 * Z.of_nat r <= max_int isz ->
  slice_ok h b -> slice_ok h y ->
  (128 * r <= s_len b)%nat -> (128 * r <= s_len y)%nat ->
  sep b (128 * r) y (128 * r) ->
  Forall Spec.is_byte (view h b (128 * r)) ->
  let W := loc_union (span b (128 * r)) (span y (128 * r)) in
  let out := Spec.BlockMix r (view h b (128 * r)) in
  replaces (ScryptGo.blockMix isz b y (Z.of_nat r)) h b (128 * r) out W /\
  replaces (ArrayVariant.blockMix isz b y (Z.of_nat r)) h b (128 * r) out W /\
  replaces (RotVariant.blockMix isz b y (Z.of_nat r)) h b (128 * r) out W.
Proof.
  intros Hr1 Hr Hb Hy Hlb Hly Hsep HB W out.
  assert (HL : length (view h b (128 * r)) = (128 * r)%nat)
    by (apply length_view; [exact Hb|destruct Hb as (_ & ? & _); lia]).
  unfold out. rewrite <- (BlockMix_code_spec r) by assumption.
  split; [|split].
  - apply (blockMix_scryptgo_refines isz); assumption.
  - apply (blockMix_array_refines isz); assumption.
  - apply (blockMix_rot_refines isz); assumption.
Qed.

Lemma C2_blockMix_witness :
  let h := [replicate 128 0; replicate 128 0] in
  let b := Slice 0 0 128 128 in
  let y := Slice 1 0 128 128 in
  let W := loc_union (span b 128) (span y 128) in
  let out := Spec.BlockMix 1 (view h b 128) in
  replaces (ScryptGo.blockMix Int64 b y 1) h b 128 out W /\
  replaces (ArrayVariant.blockMix Int64 b y 1) h b 128 out W /\
  replaces (RotVariant.blockMix Int64 b y 1) h b 128 out W.
Proof.
  intros h b y.
  apply (C2_blockMix_is_BlockMix Int64 h b y 1).
  - lia.
  - vm_compute. discriminate.
  - unfold slice_ok. simpl. lia.
  - unfold slice_ok. simpl. lia.
  - simpl. lia.
  - simpl. lia.
  - left. simpl. lia.
  - refine (bool_decide_unpack _ _). vm_compute. exact I.
Defined.

(** C1: for every mix block [B] of [128 r] bytes ([r >= 1]) held by [b],
    every [N >= 1] (in particular every power of two [N >= 2]) and
    separate scratch buffers [v] ([128 r N] bytes) and [xy] ([256 r]
    bytes), [smix] replaces [B] by SMix(B): [Spec.SMix] fills the table
    V with X, BlockMix(X), ..., then [N] times takes [j] as the
    little-endian 64-bit reading of the first eight bytes of the last
    sub-block of X masked with [N - 1], XORs V[j] into X and applies
    BlockMix; the result is copied back.  Nothing outside the three
    buffers changes.  All three variants. *)
Theorem C1_smix_is_SMix (isz : IntSize) (h : heap) (b v xy : slice) (r : nat) (N : Z) :
  (1 <= r)%nat -> 1 <= N -> 128 * Z.of_nat r * N <= max_int isz ->
  slice_ok h b -> slice_ok h v -> slice_ok h xy ->
  (128 * r <= s_len b)%nat -> (Z.to_nat N * (128 * r) <= s_len v)%nat ->
  (256 * r <= s_len xy)%nat ->
  sep b (128 * r) v (Z.to_nat N * (128 * r)) ->
  sep b (128 * r) xy (256 * r) ->
  sep v (Z.to_nat N * (128 * r)) xy (256 * r) ->
  Forall Spec.is_byte (view h b (128 * r)) ->
  let W := loc_union (span b (128 * r))
             (loc_union (span v (Z.to_nat N * (128 * r))) (span xy (256 * r))) in
  let out := Spec.SMix r N (view h b (128 * r)) in
  replaces (ScryptGo.smix isz b (Z.of_nat r) N v xy) h b (128 * r) out W /\
  replaces (ArrayVariant.smix isz b (Z.of_nat r) N v xy) h b (128 * r) out W /\
  replaces (RotVariant.smix isz b (Z.of_nat r) N v xy) h b (128 * r) out W.
Proof.
  intros Hr1 HN Hbound Hb Hv Hxy Hlb Hlv Hlxy S1 S2 S3 HB W out.
  assert (HL : length (view h b (128 * r)) = (128 * r)%nat)
    by (apply length_view; [exact Hb|destruct Hb as (_ & ? & _); lia]).
  unfold out. rewrite <- (SMix_code_spec r N) by assumption.
  split; [|split].
  - apply (smix_with_ok isz _ (blockMix_scryptgo_refines isz)); assumption.
  - apply (smix_with_ok isz _ (blockMix_array_refines isz)); assumption.
  - apply (smix_with_ok isz _ (blockMix_rot_refines isz)); assumption.
Qed.

Lemma C1_smix_witness :
  let h := [replicate 128 0; replicate 256 0; replicate 256 0] in
  let b := Slice 0 0 128 128 in
  let v := Slice 1 0 256 256 in
  let xy := Slice 2 0 256 256 in
  let W := loc_union (span b 128) (loc_union (span v 256) (span xy 256)) in
  let out := Spec.SMix 1 2 (view h b 128) in
  replaces (ScryptGo.smix Int64 b 1 2 v xy) h b 128 out W /\
  replaces (ArrayVariant.smix Int64 b 1 2 v xy) h b 128 out W /\
  replaces (RotVariant.smix Int64 b 1 2 v xy) h b 128 out W.
Proof.
  intros h b v xy.
  apply (C1_smix_is_SMix Int64 h b v xy 1 2).
  - lia.
  - lia.
  - vm_compute. discriminate.
  - unfold slice_ok. simpl. lia.
  - unfold slice_ok. simpl. lia.
  - unfold slice_ok. simpl. lia.
  - simpl. lia.
  - simpl. lia.
  - simpl. lia.
  - left. simpl. lia.
  - left. simpl. lia.
  - left. simpl. lia.
  - refine (bool_decide_unpack _ _). vm_compute. exact I.
Defined.

(** *** The validator *)

(** The first guard, as the doc comment of [Key] states it: the variant
    of scrypt.go and the array variant reject every [N] that is not a
    power of two greater than 1; the rot variant rejects them all but
    [N = 1]. *)
Lemma first_guard_rejects (isz : IntSize) pbkdf2 password salt N r p keyLen h :
  in_int isz N -> ~ (2 <= N /\ Spec.power_of_two N) ->
  rejects_with err_N (ScryptGo.Key isz pbkdf2 password salt N r p keyLen) h /\
  rejects_with err_N (ArrayVariant.Key isz pbkdf2 password salt N r p keyLen) h /\
  (N <> 1 ->
   rejects_with err_N (RotVariant.Key isz pbkdf2 password salt N r p keyLen) h).
Proof.
  intros HI HN.
  pose proof (first_guard_fails isz 1 N ltac:(lia) HI HN) as Hg.
  split; [apply Key_with_rejects_N, Hg|].
  split; [apply Key_with_rejects_N, Hg|].
  intros H1. apply Key_with_rejects_N.
  destruct Hg as [Hg|Hg]; [left; lia|right; exact Hg].
Qed.

(** C4, at the input where the code departs from it: with [N = 1] the
    rot variant of [Key] (guard [N <= 0]) passes both guards and returns
    a key, here the 32 bytes of the stand-in primitive, where the other
    two variants return the error. *)
Theorem C4_rot_variant_accepts_N_1 :
  outcome (RotVariant.Key Int64 pbkdf2_zeros [] [] 1 1 1 32 []) =
    Some (success (replicate 32 0)) /\
  rejects_with err_N (ScryptGo.Key Int64 pbkdf2_zeros [] [] 1 1 1 32) [] /\
  rejects_with err_N (ArrayVariant.Key Int64 pbkdf2_zeros [] [] 1 1 1 32) [].
Proof.
  split; [vm_compute; reflexivity|].
  split; reflexivity.
Qed.

(** C5, as stated, fails at [N = 2], [r = 2^24], [p = 0]: the third
    condition holds, but the second one is evaluated first and divides by
    [p]; the call panics instead of returning the error. *)
Lemma C5_counterexample_p_zero :
  guard_conditions 2 16777216 0 /\
  ScryptGo.Key Int64 pbkdf2_zeros [] [] 2 16777216 0 32 [] = None /\
  ArrayVariant.Key Int64 pbkdf2_zeros [] [] 2 16777216 0 32 [] = None /\
  RotVariant.Key Int64 pbkdf2_zeros [] [] 2 16777216 0 32 [] = None.
Proof.
  split; [right; right; left; reflexivity|].
  split; [|split]; vm_compute; reflexivity.
Qed.

(** C5, amended: when [N] is a power of two at least 2 and neither [r]
    nor [p] is zero, each of the four conditions makes [Key] return nil
    and the error "parameters are too large" with the heap untouched; and
    when none holds (with [r >= 1], [p >= 1]) the three products fit in a
    signed 32-bit integer. *)
Theorem C5_too_large_rejected (isz : IntSize) pbkdf2 password salt N r p keyLen h :
  in_int isz N -> 2 <= N -> Spec.power_of_two N -> r <> 0 -> p <> 0 ->
  (guard_conditions N r p ->
   rejects_with err_large (ScryptGo.Key isz pbkdf2 password salt N r p keyLen) h /\
   rejects_with err_large (ArrayVariant.Key isz pbkdf2 password salt N r p keyLen) h /\
   rejects_with err_large (RotVariant.Key isz pbkdf2 password salt N r p keyLen) h) /\
  (~ guard_conditions N r p -> 1 <= r -> 1 <= p ->
   fits_int32 (256 * r) /\ fits_int32 (128 * r * N) /\ fits_int32 (p * 128 * r)).
Proof.
  intros HI HN HP Hr Hp. split.
  - intros Hg.
    split; [|split]; apply Key_with_too_large; try assumption;
      apply first_guard_passes; solve [assumption | lia].
  - intros Hg Hr1 Hp1.
    destruct (guard_conditions_false N r p ltac:(lia) Hr Hp Hg)
      as (_ & _ & B1 & B2 & B3).
    unfold fits_int32. change (2 ^ 31) with 2147483648. repeat split; nia.
Qed.

Lemma C5_too_large_witness :
  (rejects_with err_large (ScryptGo.Key Int64 pbkdf2_zeros [] [] 2 16777216 1 32) [] /\
   rejects_with err_large (ArrayVariant.Key Int64 pbkdf2_zeros [] [] 2 16777216 1 32) [] /\
   rejects_with err_large (RotVariant.Key Int64 pbkdf2_zeros [] [] 2 16777216 1 32) []) /\
  (fits_int32 (256 * 1) /\ fits_int32 (128 * 1 * 2) /\ fits_int32 (1 * 128 * 1)).
Proof.
  split.
  - apply (C5_too_large_rejected Int64 pbkdf2_zeros [] [] 2 16777216 1 32 []).
    + exact in_int64_2.
    + lia.
    + exact power_of_two_2.
    + lia.
    + lia.
    + right. left. reflexivity.
  - apply (C5_too_large_rejected Int64 pbkdf2_zeros [] [] 2 1 1 32 []).
    + exact in_int64_2.
    + lia.
    + exact power_of_two_2.
    + lia.
    + lia.
    + apply guard_conditions_valid; lia.
    + lia.
    + lia.
Defined.

(** C8, as stated, fails at [r = 0] and at [p = 0]: the validation
    expression divides by [p], then by [r], and the call panics; and a
    negative [keyLen] is never examined, so that with it the call goes
    on to the primitive and returns no error of its own. *)
Lemma C8_counterexample_zero :
  ScryptGo.Key Int64 pbkdf2_zeros [] [] 2 0 1 32 [] = None /\
  ScryptGo.Key Int64 pbkdf2_zeros [] [] 2 1 0 32 [] = None /\
  RotVariant.Key Int64 pbkdf2_zeros [] [] 2 0 1 32 [] = None /\
  RotVariant.Key Int64 pbkdf2_zeros [] [] 2 1 0 32 [] = None /\
  outcome (ScryptGo.Key Int64 pbkdf2_zeros [] [] 2 1 1 (-1) []) = None.
Proof.
  repeat split; vm_compute; reflexivity.
Qed.

(** C8, amended: when [r] or [p] is negative and neither is zero, [Key]
    returns nil and an error (the one on [N], or "parameters are too
    large") with the heap untouched, whatever [N] and [keyLen] are. *)
Theorem C8_negative_rejected (isz : IntSize) pbkdf2 password salt N r p keyLen h :
  r <> 0 -> p <> 0 -> r < 0 \/ p < 0 ->
  (exists err,
     rejects_with err (ScryptGo.Key isz pbkdf2 password salt N r p keyLen) h) /\
  (exists err,
     rejects_with err (ArrayVariant.Key isz pbkdf2 password salt N r p keyLen) h) /\
  (exists err,
     rejects_with err (RotVariant.Key isz pbkdf2 password salt N r p keyLen) h).
Proof.
  intros Hr Hp Hneg.
  assert (G : forall blockMix Nmin, 0 <= Nmin ->
            exists err, rejects_with err
              (Key_with isz blockMix pbkdf2 Nmin password salt N r p keyLen) h).
  { intros blockMix Nmin Hm.
    destruct (decide (N <= Nmin \/ Z.land N (int_sub isz N 1) <> 0)) as [Hg|Hg].
    - exists err_N. apply Key_with_rejects_N, Hg.
    - exists err_large. apply Key_with_too_large; try assumption.
      apply negative_is_too_large; try assumption.
      destruct (decide (N <= Nmin)); [tauto|lia]. }
  split; [apply G; lia|]. split; apply G; lia.
Qed.

Lemma C8_negative_witness :
  (exists err,
     rejects_with err (ScryptGo.Key Int64 pbkdf2_zeros [] [] 2 (-1) 1 32) []) /\
  (exists err,
     rejects_with err (ArrayVariant.Key Int64 pbkdf2_zeros [] [] 2 (-1) 1 32) []) /\
  (exists err,
     rejects_with err (RotVariant.Key Int64 pbkdf2_zeros [] [] 2 (-1) 1 32) []).
Proof.
  apply (C8_negative_rejected Int64 pbkdf2_zeros [] [] 2 (-1) 1 32 []).
  - lia.
  - lia.
  - left. lia.
Defined.

(** *** The derivation *)

(** C6: on parameters accepted by the validator, the key returned by
    [Key] is the composition of the specification: PBKDF2 of the
    password and salt to [p * 128 * r] bytes, SMix on each of the [p]
    blocks, PBKDF2 of the password and the mixed buffer to [keyLen]
    bytes.  All three variants; the primitive is any function that
    honours its contract. *)
Theorem C6_Key_is_derive_key (isz : IntSize) pbkdf2 password salt N r p keyLen h :
  pbkdf2_contract pbkdf2 -> in_int isz N -> valid_params N r p ->
  outcome (ScryptGo.Key isz pbkdf2 password salt N r p keyLen h) =
    success <$> Spec.derive_key pbkdf2 password salt N r p keyLen /\
  outcome (ArrayVariant.Key isz pbkdf2 password salt N r p keyLen h) =
    success <$> Spec.derive_key pbkdf2 password salt N r p keyLen /\
  outcome (RotVariant.Key isz pbkdf2 password salt N r p keyLen h) =
    success <$> Spec.derive_key pbkdf2 password salt N r p keyLen.
Proof.
  intros Hc HI HV. split; [|split].
  - apply (Key_with_valid isz _ (blockMix_scryptgo_refines isz)); solve [assumption|lia].
  - apply (Key_with_valid isz _ (blockMix_array_refines isz)); solve [assumption|lia].
  - apply (Key_with_valid isz _ (blockMix_rot_refines isz)); solve [assumption|lia].
Qed.

Lemma C6_Key_witness :
  outcome (ScryptGo.Key Int64 pbkdf2_zeros [] [] 2 1 1 32 []) =
    success <$> Spec.derive_key pbkdf2_zeros [] [] 2 1 1 32 /\
  outcome (ArrayVariant.Key Int64 pbkdf2_zeros [] [] 2 1 1 32 []) =
    success <$> Spec.derive_key pbkdf2_zeros [] [] 2 1 1 32 /\
  outcome (RotVariant.Key Int64 pbkdf2_zeros [] [] 2 1 1 32 []) =
    success <$> Spec.derive_key pbkdf2_zeros [] [] 2 1 1 32.
Proof.
  apply (C6_Key_is_derive_key Int64 pbkdf2_zeros [] [] 2 1 1 32 []).
  - exact pbkdf2_zeros_contract.
  - exact in_int64_2.
  - exact valid_params_2_1_1.
Defined.

Lemma derive_key_length pbkdf2 password salt N r p keyLen :
  pbkdf2_contract pbkdf2 -> 1 <= r -> 1 <= p -> 0 <= keyLen ->
  exists key, Spec.derive_key pbkdf2 password salt N r p keyLen = Some key /\
              length key = Z.to_nat keyLen.
Proof.
  intros Hc Hr Hp Hk. unfold Spec.derive_key.
  destruct (Hc password salt 1 (p * 128 * r) ltac:(nia)) as (d & -> & _).
  destruct (Hc password
              (Spec.mix_all Spec.Salsa20_8 Spec.Integerify (Z.to_nat r) N
                 (Z.to_nat p) d) 1 keyLen Hk) as (key & -> & HL & _).
  exists key. split; [reflexivity|exact HL].
Qed.

Section KeyLength.
Variable isz : IntSize.
Variable blockMix : slice -> slice -> Z -> M unit.
Hypothesis blockMix_ok : blockMix_refines isz blockMix.
Variable pbkdf2 : list Z -> list Z -> Z -> Z -> option (list Z).

Lemma Key_with_returns Nmin password salt N r p keyLen h :
  Nmin <= 1 -> pbkdf2_contract pbkdf2 -> in_int isz N -> valid_params N r p ->
  0 <= keyLen ->
  returns_key (Z.to_nat keyLen)
    (Key_with isz blockMix pbkdf2 Nmin password salt N r p keyLen) h.
Proof.
  intros Hm Hc HI HV Hk.
  pose proof (Key_with_valid isz blockMix blockMix_ok pbkdf2 Nmin password salt
                N r p keyLen h Hm Hc HI HV) as E.
  destruct HV as (_ & _ & Hr & Hp & _).
  destruct (derive_key_length pbkdf2 password salt N r p keyLen Hc Hr Hp Hk)
    as (key & Ek & HL).
  rewrite Ek in E. apply outcome_Some in E. destruct E as (h' & E).
  exists key, h'. split; [exact E|exact HL].
Qed.

(** [keyLen] plays no part in the guards: a run on valid parameters
    never ends in an error, whatever [keyLen] is. *)
Lemma Key_with_no_error Nmin password salt N r p keyLen h err :
  Nmin <= 1 -> in_int isz N -> valid_params N r p ->
  outcome (Key_with isz blockMix pbkdf2 Nmin password salt N r p keyLen h) <>
  Some (failure err).
Proof.
  intros Hm HI HV.
  destruct (valid_params_bounds N r p HV) as (HN & Hr & Hp & B1 & B2 & B3).
  destruct HV as (HN2 & HP & _).
  rewrite (Key_with_outcome isz blockMix blockMix_ok pbkdf2); try assumption.
  - unfold Key_result. repeat case_match; discriminate.
  - apply first_guard_passes; assumption.
Qed.
End KeyLength.

(** C7: for every valid parameter tuple ([N] a power of two at least 2;
    [r], [p] positive and within the bounds; [keyLen >= 0]) and every
    password and salt, [Key] succeeds and returns exactly [keyLen]
    bytes.  All three variants; the primitive honours its contract. *)
Theorem C7_Key_returns_keyLen_bytes (isz : IntSize) pbkdf2 password salt N r p keyLen h :
  pbkdf2_contract pbkdf2 -> in_int isz N -> valid_params N r p -> 0 <= keyLen ->
  returns_key (Z.to_nat keyLen) (ScryptGo.Key isz pbkdf2 password salt N r p keyLen) h /\
  returns_key (Z.to_nat keyLen) (ArrayVariant.Key isz pbkdf2 password salt N r p keyLen) h /\
  returns_key (Z.to_nat keyLen) (RotVariant.Key isz pbkdf2 password salt N r p keyLen) h.
Proof.
  intros Hc HI HV Hk. split; [|split].
  - apply (Key_with_returns isz _ (blockMix_scryptgo_refines isz)); solve [assumption|lia].
  - apply (Key_with_returns isz _ (blockMix_array_refines isz)); solve [assumption|lia].
  - apply (Key_with_returns isz _ (blockMix_rot_refines isz)); solve [assumption|lia].
Qed.

Lemma C7_Key_length_witness :
  returns_key (Z.to_nat 32) (ScryptGo.Key Int64 pbkdf2_zeros [] [] 2 1 1 32) [] /\
  returns_key (Z.to_nat 32) (ArrayVariant.Key Int64 pbkdf2_zeros [] [] 2 1 1 32) [] /\
  returns_key (Z.to_nat 32) (RotVariant.Key Int64 pbkdf2_zeros [] [] 2 1 1 32) [].
Proof.
  apply (C7_Key_returns_keyLen_bytes Int64 pbkdf2_zeros [] [] 2 1 1 32 []).
  - exact pbkdf2_zeros_contract.
  - exact in_int64_2.
  - exact valid_params_2_1_1.
  - lia.
Defined.

(** C9: on every input with [N] a power of two at least 2, [r >= 1],
    [p >= 1] and the bounds satisfied, the three variants of [Key]
    return the same result, from whatever heaps they start; [keyLen] and
    the primitive are arbitrary. *)
Theorem C9_variants_agree (isz : IntSize) pbkdf2 password salt N r p keyLen h1 h2 h3 :
  in_int isz N -> valid_params N r p ->
  outcome (ScryptGo.Key isz pbkdf2 password salt N r p keyLen h1) =
    outcome (ArrayVariant.Key isz pbkdf2 password salt N r p keyLen h2) /\
  outcome (ArrayVariant.Key isz pbkdf2 password salt N r p keyLen h2) =
    outcome (RotVariant.Key isz pbkdf2 password salt N r p keyLen h3).
Proof.
  intros HI HV.
  destruct (valid_params_bounds N r p HV) as (HN & Hr & Hp & B1 & B2 & B3).
  destruct HV as (HN2 & HP & _).
  unfold ScryptGo.Key, ArrayVariant.Key, RotVariant.Key.
  rewrite (Key_with_outcome isz _ (blockMix_scryptgo_refines isz) pbkdf2 1)
    by (try assumption; apply first_guard_passes; solve [assumption|lia]).
  rewrite (Key_with_outcome isz _ (blockMix_array_refines isz) pbkdf2 1)
    by (try assumption; apply first_guard_passes; solve [assumption|lia]).
  rewrite (Key_with_outcome isz _ (blockMix_rot_refines isz) pbkdf2 0)
    by (try assumption; apply first_guard_passes; solve [assumption|lia]).
  split; reflexivity.
Qed.

Lemma C9_variants_witness :
  outcome (ScryptGo.Key Int64 pbkdf2_zeros [] [] 2 1 1 32 []) =
    outcome (ArrayVariant.Key Int64 pbkdf2_zeros [] [] 2 1 1 32 [[1]]) /\
  outcome (ArrayVariant.Key Int64 pbkdf2_zeros [] [] 2 1 1 32 [[1]]) =
    outcome (RotVariant.Key Int64 pbkdf2_zeros [] [] 2 1 1 32 [[2]; [3]]).
Proof.
  apply (C9_variants_agree Int64 pbkdf2_zeros [] [] 2 1 1 32 [] [[1]] [[2]; [3]]).
  - exact in_int64_2.
  - exact valid_params_2_1_1.
Defined.

(** C10: [Key] is deterministic.  The primitive is a function of its
    arguments; the only other thing a call can read is the memory it
    runs in, and two calls with the same password, salt, [N], [r], [p]
    and [keyLen] return the same result (the same key, the same error,
    or the same panic) from any two heaps.  All three variants, all
    arguments. *)
Theorem C10_Key_deterministic (isz : IntSize) pbkdf2 password salt N r p keyLen h1 h2 :
  outcome (ScryptGo.Key isz pbkdf2 password salt N r p keyLen h1) =
    outcome (ScryptGo.Key isz pbkdf2 password salt N r p keyLen h2) /\
  outcome (ArrayVariant.Key isz pbkdf2 password salt N r p keyLen h1) =
    outcome (ArrayVariant.Key isz pbkdf2 password salt N r p keyLen h2) /\
  outcome (RotVariant.Key isz pbkdf2 password salt N r p keyLen h1) =
    outcome (RotVariant.Key isz pbkdf2 password salt N r p keyLen h2).
Proof.
  split; [|split].
  - apply (Key_with_indep isz _ (blockMix_scryptgo_refines isz)). lia.
  - apply (Key_with_indep isz _ (blockMix_array_refines isz)). lia.
  - apply (Key_with_indep isz _ (blockMix_rot_refines isz)). lia.
Qed.

(** ** Further properties of the code *)

(** *** blockCopy and blockXOR *)

Section BlockHelpers.
Implicit Types (h : heap) (s dst src : slice).
Local Open Scope nat_scope.

Lemma splice_same_length off d1 d2 l :
  length d1 = length d2 -> off + length d1 <= length l ->
  splice off d2 (splice off d1 l) = splice off d2 l.
Proof.
  intros HL H. apply list_eq. intros i.
  assert (H1 : length (splice off d1 l) = length l) by (apply length_splice; lia).
  destruct (decide (off <= i < off + length d2)) as [Hi|Hi].
  - rewrite !lookup_splice_in by lia. reflexivity.
  - rewrite !lookup_splice_out by lia. reflexivity.
Qed.

Lemma splice_self off n l :
  off + n <= length l -> splice off (take n (drop off l)) l = l.
Proof.
  intros H. apply list_eq. intros i.
  assert (HL : length (take n (drop off l)) = n)
    by (rewrite length_take, length_drop; lia).
  destruct (decide (off <= i < off + n)) as [Hi|Hi].
  - rewrite lookup_splice_in by lia.
    rewrite lookup_take_lt by lia. rewrite lookup_drop. f_equal. lia.
  - rewrite lookup_splice_out by lia. reflexivity.
Qed.

Lemma put_overwrite h a off d1 d2 :
  a < length h -> length d1 = length d2 -> off + length d1 <= length (h !!! a) ->
  put (put h a off d1) a off d2 = put h a off d2.
Proof.
  intros Ha HL H. unfold put at 1. rewrite put_same by exact Ha.
  rewrite splice_same_length by assumption.
  unfold put. apply list_insert_insert_eq.
Qed.

Lemma put_self h a off n :
  a < length h -> off + n <= length (h !!! a) ->
  put h a off (bytes_at h a off n) = h.
Proof.
  intros Ha H. unfold put, bytes_at. rewrite splice_self by exact H.
  apply list_insert_id, heap_lookup, Ha.
Qed.

(** [copy] through a destination shorter than the data writes only
    [len(dst)] bytes. *)
Lemma write_bytes_min h s d :
  slice_ok h s ->
  write_bytes s d h =
    Some (Z.of_nat (Nat.min (s_len s) (length d)),
          put h (s_arr s) (s_off s) (take (Nat.min (s_len s) (length d)) d)).
Proof.
  intros (Ha & Hl & Hc). unfold write_bytes.
  rewrite (heap_lookup _ _ Ha). rewrite decide_True by lia. reflexivity.
Qed.

Lemma blockCopy_min h dst src (n : nat) :
  slice_ok h dst -> slice_ok h src -> n <= s_cap src ->
  blockCopy dst src (Z.of_nat n) h =
    Some (tt, put h (s_arr dst) (s_off dst)
                (view h src (Nat.min n (s_len dst)))).
Proof.
  intros Hd Hs Hn. unfold blockCopy.
  rewrite (bind_Some _ _ _ _ _ (slice_to_eq src n h Hn)).
  unfold copy.
  assert (Hs' : slice_ok h (sto src n)) by (apply sto_ok; assumption).
  erewrite bind_Some; [|erewrite bind_Some; [|apply slice_bytes_eq, Hs']].
  2:{ apply write_bytes_min, Hd. }
  unfold ret. change (s_len (sto src n)) with n. rewrite view_sto.
  rewrite length_view by assumption.
  unfold view. rewrite bytes_at_take by lia.
  rewrite (Nat.min_comm (s_len dst) n). reflexivity.
Qed.

Lemma xor_bytes_twice D S :
  length D <= length S ->
  Spec.xor_bytes (Spec.xor_bytes D S) S = D.
Proof.
  revert S. induction D as [|x D IH]; intros [|y S] HL; simpl in *; try lia.
  - reflexivity.
  - reflexivity.
  - f_equal.
    + rewrite Z.lxor_assoc, Z.lxor_nilpotent, Z.lxor_0_r. reflexivity.
    + apply IH. lia.
Qed.

(** The loop of [blockXOR] runs through as long as both indexings are
    in range, whatever the slices share. *)
Lemma blockXOR_runs h dst src (n : nat) :
  slice_ok h dst -> slice_ok h src -> n <= s_cap src -> n <= s_len dst ->
  exists h', blockXOR dst src (Z.of_nat n) h = Some (tt, h').
Proof.
  intros Hd Hs Hn Hl. unfold blockXOR.
  rewrite (bind_Some _ _ _ _ _ (slice_to_eq src n h Hn)).
  change (s_len (sto src n)) with n.
  destruct (for_range_inv
    (fun (_ : Z) h' => slice_ok h' dst /\ slice_ok h' (sto src n))
    (fun i =>
      let* v := index_get (sto src n) i in
      let* d := index_get dst i in
      index_set dst i (Z.lxor d v)) 0%Z (Z.of_nat n) h) as (h' & E & _).
  - lia.
  - split; [exact Hd|apply sto_ok; assumption].
  - intros i h0 Hi [Hd0 Hs0].
    set (k := Z.to_nat i). replace i with (Z.of_nat k) by lia.
    rewrite (bind_Some _ _ _ _ _ (index_get_eq h0 (sto src n) k Hs0 ltac:(simpl; lia))).
    rewrite (bind_Some _ _ _ _ _ (index_get_eq h0 dst k Hd0 ltac:(lia))).
    rewrite index_set_eq by (auto; lia).
    eexists. split; [reflexivity|].
    destruct Hd0 as (Ha & Hlc & Hc).
    split; apply slice_ok_put; simpl; try lia; try assumption.
    repeat split; assumption.
  - exists h'. exact E.
Qed.

(** It panics at the first index past [len(dst)]. *)
Lemma blockXOR_short_dst h dst src (n : nat) :
  slice_ok h dst -> slice_ok h src -> n <= s_cap src -> s_len dst < n ->
  blockXOR dst src (Z.of_nat n) h = None.
Proof.
  intros Hd Hs Hn Hl. unfold blockXOR.
  rewrite (bind_Some _ _ _ _ _ (slice_to_eq src n h Hn)).
  change (s_len (sto src n)) with n.
  apply (for_range_panics
    (fun (_ : Z) h' => slice_ok h' dst /\ slice_ok h' (sto src n))
    _ 0%Z (Z.of_nat n) (Z.of_nat (s_len dst))).
  - lia.
  - split; [exact Hd|apply sto_ok; assumption].
  - intros i h0 Hi [Hd0 Hs0].
    set (k := Z.to_nat i). replace i with (Z.of_nat k) by lia.
    rewrite (bind_Some _ _ _ _ _ (index_get_eq h0 (sto src n) k Hs0 ltac:(simpl; lia))).
    rewrite (bind_Some _ _ _ _ _ (index_get_eq h0 dst k Hd0 ltac:(lia))).
    rewrite index_set_eq by (auto; lia).
    eexists. split; [reflexivity|].
    destruct Hd0 as (Ha & Hlc & Hc).
    split; apply slice_ok_put; simpl; try lia; try assumption.
    repeat split; assumption.
  - intros h0 [Hd0 Hs0].
    rewrite (bind_Some _ _ _ _ _
      (index_get_eq h0 (sto src n) (s_len dst) Hs0 ltac:(simpl; lia))).
    apply bind_None, index_get_panics. lia.
Qed.
End BlockHelpers.

Lemma put_replaces h s (n : nat) d :
  slice_ok h s -> (n <= s_cap s)%nat -> length d = n ->
  view (put h (s_arr s) (s_off s) d) s n = d /\
  unchanged_except (span s n) h (put h (s_arr s) (s_off s) d).
Proof.
  intros (Ha & Hl & Hc) Hn HL. split.
  - unfold view. apply bytes_at_put_same'; [exact Ha|lia|exact HL].
  - apply unchanged_put; [exact Ha|lia|].
    intros i Hi. split; [reflexivity|lia].
Qed.

(** X1: [blockCopy(dst, src, n)] copies [min(n, len(dst))] bytes from the
    start of [src] to the start of [dst] and changes nothing else; [n]
    may exceed [len(src)] up to [cap(src)], and a short [dst] truncates
    the copy without a panic. *)
Theorem X1_blockCopy_copies (h : heap) (dst src : slice) (n : nat) :
  slice_ok h dst -> slice_ok h src -> (n <= s_cap src)%nat ->
  replaces (blockCopy dst src (Z.of_nat n)) h dst (Nat.min n (s_len dst))
    (view h src (Nat.min n (s_len dst))) (span dst (Nat.min n (s_len dst))).
Proof.
  intros Hd Hs Hn. eexists. split; [apply blockCopy_min; assumption|].
  apply put_replaces; [exact Hd|destruct Hd as (_ & ? & _); lia|].
  apply length_view; [exact Hs|lia].
Qed.

Lemma X1_blockCopy_witness :
  replaces (blockCopy (Slice 1 0 2 2) (Slice 0 0 2 4) 3)
    [[1; 2; 3; 4]; [0; 0]] (Slice 1 0 2 2) (Nat.min 3 2)
    (view [[1; 2; 3; 4]; [0; 0]] (Slice 0 0 2 4) (Nat.min 3 2))
    (span (Slice 1 0 2 2) (Nat.min 3 2)).
Proof.
  apply (X1_blockCopy_copies [[1; 2; 3; 4]; [0; 0]] (Slice 1 0 2 2)
           (Slice 0 0 2 4) 3).
  - unfold slice_ok. simpl. lia.
  - unfold slice_ok. simpl. lia.
  - simpl. lia.
Defined.

(** X2: on well-formed slices [blockCopy(dst, src, n)] panics exactly
    when [n] is negative or exceeds [cap(src)]. *)
Theorem X2_blockCopy_panics_iff (h : heap) (dst src : slice) (n : Z) :
  slice_ok h dst -> slice_ok h src ->
  (blockCopy dst src n h = None <-> ~ (0 <= n <= Z.of_nat (s_cap src))).
Proof.
  intros Hd Hs. split.
  - intros E Hn. replace n with (Z.of_nat (Z.to_nat n)) in E by lia.
    rewrite blockCopy_min in E by (assumption || lia). discriminate.
  - apply blockCopy_panics.
Qed.

Lemma X2_blockCopy_panics_witness :
  blockCopy (Slice 1 0 2 2) (Slice 0 0 2 4) 5 [[1; 2; 3; 4]; [0; 0]] = None.
Proof.
  apply (X2_blockCopy_panics_iff [[1; 2; 3; 4]; [0; 0]] (Slice 1 0 2 2)
           (Slice 0 0 2 4) 5).
  - unfold slice_ok. simpl. lia.
  - unfold slice_ok. simpl. lia.
  - simpl. lia.
Defined.

(** X3: on separate slices with [n <= cap(src)] and [n <= len(dst)],
    [blockXOR(dst, src, n)] replaces the first [n] bytes of [dst] by
    their XOR with the first [n] bytes of [src] and changes nothing
    else. *)
Theorem X3_blockXOR_xors (h : heap) (dst src : slice) (n : nat) :
  slice_ok h dst -> slice_ok h src ->
  (n <= s_cap src)%nat -> (n <= s_len dst)%nat -> sep dst n src n ->
  replaces (blockXOR dst src (Z.of_nat n)) h dst n
    (Spec.xor_bytes (view h dst n) (view h src n)) (span dst n).
Proof.
  intros Hd Hs Hn Hl Hsep. eexists. split; [apply blockXOR_eq; assumption|].
  assert (Hc : (s_len dst <= s_cap dst)%nat) by apply Hd.
  apply put_replaces; [exact Hd|lia|].
  rewrite length_xor_bytes, !length_view by (assumption || lia). lia.
Qed.

Lemma X3_blockXOR_witness :
  replaces (blockXOR (Slice 1 0 2 2) (Slice 0 0 2 4) 2)
    [[1; 2; 3; 4]; [5; 6]] (Slice 1 0 2 2) 2
    (Spec.xor_bytes (view [[1; 2; 3; 4]; [5; 6]] (Slice 1 0 2 2) 2)
       (view [[1; 2; 3; 4]; [5; 6]] (Slice 0 0 2 4) 2))
    (span (Slice 1 0 2 2) 2).
Proof.
  apply (X3_blockXOR_xors [[1; 2; 3; 4]; [5; 6]] (Slice 1 0 2 2)
           (Slice 0 0 2 4) 2).
  - unfold slice_ok. simpl. lia.
  - unfold slice_ok. simpl. lia.
  - simpl. lia.
  - simpl. lia.
  - left. simpl. lia.
Defined.

(** X4: on well-formed slices [blockXOR(dst, src, n)] panics exactly
    when [n] is negative, exceeds [cap(src)], or exceeds [len(dst)]; the
    slices may overlap. *)
Theorem X4_blockXOR_panics_iff (h : heap) (dst src : slice) (n : Z) :
  slice_ok h dst -> slice_ok h src ->
  (blockXOR dst src n h = None <->
   ~ (0 <= n <= Z.of_nat (s_cap src)) \/ Z.of_nat (s_len dst) < n).
Proof.
  intros Hd Hs. split.
  - intros E.
    destruct (decide (0 <= n <= Z.of_nat (s_cap src))) as [Hn|Hn]; [|left; exact Hn].
    destruct (decide (Z.of_nat (s_len dst) < n)) as [Hl|Hl]; [right; exact Hl|].
    exfalso. replace n with (Z.of_nat (Z.to_nat n)) in E by lia.
    destruct (blockXOR_runs h dst src (Z.to_nat n) Hd Hs ltac:(lia) ltac:(lia))
      as (h' & E').
    congruence.
  - intros [Hn|Hl]; [apply blockXOR_panics, Hn|].
    destruct (decide (0 <= n <= Z.of_nat (s_cap src))) as [Hn|Hn];
      [|apply blockXOR_panics, Hn].
    replace n with (Z.of_nat (Z.to_nat n)) by lia.
    apply blockXOR_short_dst; (assumption || lia).
Qed.

Lemma X4_blockXOR_panics_witness :
  blockXOR (Slice 1 0 2 2) (Slice 0 0 2 4) 3 [[1; 2; 3; 4]; [5; 6]] = None.
Proof.
  apply (X4_blockXOR_panics_iff [[1; 2; 3; 4]; [5; 6]] (Slice 1 0 2 2)
           (Slice 0 0 2 4) 3).
  - unfold slice_ok. simpl. lia.
  - unfold slice_ok. simpl. lia.
  - right. simpl. lia.
Defined.

(** X5: XORing the same source twice restores the heap: under the
    conditions of X3, two calls of [blockXOR(dst, src, n)] in sequence
    end in the heap they started from. *)
Theorem X5_blockXOR_twice (h : heap) (dst src : slice) (n : nat) :
  slice_ok h dst -> slice_ok h src ->
  (n <= s_cap src)%nat -> (n <= s_len dst)%nat -> sep dst n src n ->
  (blockXOR dst src (Z.of_nat n) ;;; blockXOR dst src (Z.of_nat n)) h =
    Some (tt, h).
Proof.
  intros Hd Hs Hn Hl Hsep.
  assert (Ha : (s_arr dst < length h)%nat) by apply Hd.
  assert (Hlc : (s_len dst <= s_cap dst)%nat) by apply Hd.
  assert (Hc : (s_off dst + s_cap dst <= length (h !!! s_arr dst))%nat) by apply Hd.
  set (D := view h dst n). set (S0 := view h src n).
  assert (HD : length D = n) by (apply length_view; [exact Hd|lia]).
  assert (HS : length S0 = n) by (apply length_view; [exact Hs|lia]).
  assert (HX : length (Spec.xor_bytes D S0) = n)
    by (rewrite length_xor_bytes; lia).
  rewrite (bind_Some _ _ _ _ _ (blockXOR_eq h dst src n Hd Hs Hn Hl Hsep)).
  fold D S0. set (h1 := put h (s_arr dst) (s_off dst) (Spec.xor_bytes D S0)).
  assert (Hd1 : slice_ok h1 dst) by (apply slice_ok_put; [exact Ha|lia|exact Hd]).
  assert (Hs1 : slice_ok h1 src) by (apply slice_ok_put; [exact Ha|lia|exact Hs]).
  rewrite (blockXOR_eq h1 dst src n Hd1 Hs1 Hn Hl Hsep).
  assert (E1 : view h1 dst n = Spec.xor_bytes D S0).
  { unfold view, h1. apply bytes_at_put_same'; [exact Ha|lia|exact HX]. }
  assert (E2 : view h1 src n = S0).
  { unfold view, h1. apply bytes_at_put_out; [exact Ha|lia|]. rewrite HX.
    destruct Hsep as [?|[?|?]]; [left; congruence|right; right; lia|right; left; lia]. }
  rewrite E1, E2, xor_bytes_twice by lia.
  unfold h1. rewrite put_overwrite by (try exact Ha; lia).
  unfold D, view. rewrite put_self by (try exact Ha; lia). reflexivity.
Qed.

Lemma X5_blockXOR_twice_witness :
  (blockXOR (Slice 1 0 2 2) (Slice 0 0 2 4) 2 ;;;
   blockXOR (Slice 1 0 2 2) (Slice 0 0 2 4) 2) [[1; 2; 3; 4]; [5; 6]] =
    Some (tt, [[1; 2; 3; 4]; [5; 6]]).
Proof.
  apply (X5_blockXOR_twice [[1; 2; 3; 4]; [5; 6]] (Slice 1 0 2 2)
           (Slice 0 0 2 4) 2).
  - unfold slice_ok. simpl. lia.
  - unfold slice_ok. simpl. lia.
  - simpl. lia.
  - simpl. lia.
  - left. simpl. lia.
Defined.

(** *** integerify *)

Lemma list8 (l : list Z) :
  length l = 8%nat ->
  l = [l !!! 0%nat; l !!! 1%nat; l !!! 2%nat; l !!! 3%nat;
       l !!! 4%nat; l !!! 5%nat; l !!! 6%nat; l !!! 7%nat].
Proof.
  intros H.
  destruct l as [|b0 [|b1 [|b2 [|b3 [|b4 [|b5 [|b6 [|b7 [|b8 l]]]]]]]]];
    try discriminate.
  reflexivity.
Qed.

Lemma le_decode_bound (l : list Z) :
  Forall Spec.is_byte l -> 0 <= Spec.le_decode l < 256 ^ Z.of_nat (length l).
Proof.
  induction 1 as [|b l Hb _ IH]; [simpl; lia|].
  cbn [Spec.le_decode length]. rewrite Nat2Z.inj_succ, Z.pow_succ_r by lia.
  unfold Spec.is_byte in Hb. lia.
Qed.

Section Integerify.
Variable isz : IntSize.

Lemma integerify_index (r : Z) :
  in_int isz ((2 * r - 1) * 64) ->
  int_mul isz (int_sub isz (int_mul isz 2 r) 1) 64 = (2 * r - 1) * 64.
Proof.
  unfold in_int. intros H.
  rewrite (int_mul_small isz 2 r) by int_bound.
  rewrite (int_sub_small isz (2 * r) 1) by int_bound.
  rewrite int_mul_small by int_bound. reflexivity.
Qed.

(** The word read at byte [(2r-1)*64], whatever the bytes are. *)
Lemma integerify_runs h b (r : Z) :
  slice_ok h b -> 1 <= r -> in_int isz ((2 * r - 1) * 64) ->
  (2 * r - 1) * 64 + 8 <= Z.of_nat (s_len b) ->
  integerify isz b r h =
    Some (let l := view h (sfrom b (Z.to_nat ((2 * r - 1) * 64))) 8 in
          Z.lor (Z.lor (Z.lor (Z.lor (Z.lor (Z.lor (Z.lor
            (l !!! 0%nat) (u64_shl (l !!! 1%nat) 8)) (u64_shl (l !!! 2%nat) 16))
            (u64_shl (l !!! 3%nat) 24)) (u64_shl (l !!! 4%nat) 32))
            (u64_shl (l !!! 5%nat) 40)) (u64_shl (l !!! 6%nat) 48))
            (u64_shl (l !!! 7%nat) 56), h).
Proof.
  intros Hb Hr HI HL. unfold integerify. rewrite integerify_index by exact HI.
  set (k := Z.to_nat ((2 * r - 1) * 64)).
  replace ((2 * r - 1) * 64) with (Z.of_nat k) by lia.
  rewrite (bind_Some _ _ _ _ _ (slice_from_eq b k h ltac:(lia))).
  apply Uint64_eq; [apply sfrom_ok; [exact Hb|lia]|].
  cbn [s_len sfrom]. lia.
Qed.

Lemma integerify_panics h b (r : Z) :
  slice_ok h b -> in_int isz ((2 * r - 1) * 64) ->
  r <= 0 \/ Z.of_nat (s_len b) < (2 * r - 1) * 64 + 8 ->
  integerify isz b r h = None.
Proof.
  intros Hb HI Hbad. unfold integerify. rewrite integerify_index by exact HI.
  destruct (decide (0 <= (2 * r - 1) * 64 <= Z.of_nat (s_len b))) as [Hin|Hout].
  - set (k := Z.to_nat ((2 * r - 1) * 64)).
    replace ((2 * r - 1) * 64) with (Z.of_nat k) by lia.
    rewrite (bind_Some _ _ _ _ _ (slice_from_eq b k h ltac:(lia))).
    unfold LittleEndian_Uint64. apply bind_None, index_get_panics.
    cbn [s_len sfrom]. lia.
  - apply bind_None, slice_from_panics, Hout.
Qed.
End Integerify.

(** X6: for [r >= 1] and a buffer of at least [(2r-1)*64 + 8] bytes,
    [integerify(b, r)] returns the little-endian value of the eight bytes
    at offset [(2r-1)*64] (the start of the last 64-byte sub-block of a
    [128 r]-byte buffer), a number below 2^64, and leaves the heap as it
    is. *)
Theorem X6_integerify_value (isz : IntSize) (h : heap) (b : slice) (r : Z) :
  slice_ok h b -> 1 <= r -> (2 * r - 1) * 64 <= max_int isz ->
  (2 * r - 1) * 64 + 8 <= Z.of_nat (s_len b) ->
  Forall Spec.is_byte (view h (sfrom b (Z.to_nat ((2 * r - 1) * 64))) 8) ->
  integerify isz b r h =
    Some (Spec.le_decode (view h (sfrom b (Z.to_nat ((2 * r - 1) * 64))) 8), h) /\
  0 <= Spec.le_decode (view h (sfrom b (Z.to_nat ((2 * r - 1) * 64))) 8) < 2 ^ 64.
Proof.
  intros Hb Hr Hmax HL HB.
  assert (HI : in_int isz ((2 * r - 1) * 64)).
  { unfold in_int. pose proof (min_int_le isz). lia. }
  set (l := view h (sfrom b (Z.to_nat ((2 * r - 1) * 64))) 8) in *.
  assert (Hl : length l = 8%nat).
  { apply length_view; [apply sfrom_ok; [exact Hb|lia]|].
    destruct Hb as (_ & ? & _). cbn [s_cap sfrom]. lia. }
  split.
  - rewrite integerify_runs by assumption. fold l. cbv zeta.
    rewrite (list8 l Hl) at 9. f_equal. f_equal.
    apply le_decode8; apply Forall_is_byte_lookup; (exact HB || lia).
  - pose proof (le_decode_bound l HB) as B. rewrite Hl in B.
    change (256 ^ Z.of_nat 8) with (2 ^ 64) in B. exact B.
Qed.

Lemma X6_integerify_witness :
  integerify Int64 (Slice 0 0 128 128) 1 [replicate 128 1] =
    Some (Spec.le_decode
            (view [replicate 128 1]
               (sfrom (Slice 0 0 128 128) (Z.to_nat ((2 * 1 - 1) * 64))) 8),
          [replicate 128 1]) /\
  0 <= Spec.le_decode
         (view [replicate 128 1]
            (sfrom (Slice 0 0 128 128) (Z.to_nat ((2 * 1 - 1) * 64))) 8) < 2 ^ 64.
Proof.
  apply (X6_integerify_value Int64 [replicate 128 1] (Slice 0 0 128 128) 1).
  - unfold slice_ok. simpl. lia.
  - lia.
  - vm_compute. discriminate.
  - simpl. lia.
  - refine (bool_decide_unpack _ _). vm_compute. exact I.
Defined.

(** X7: on a well-formed slice, and as long as the index [(2r-1)*64]
    does not overflow [int], [integerify(b, r)] panics exactly when
    [r <= 0] or [b] has fewer than [(2r-1)*64 + 8] bytes. *)
Theorem X7_integerify_panics_iff (isz : IntSize) (h : heap) (b : slice) (r : Z) :
  slice_ok h b -> in_int isz ((2 * r - 1) * 64) ->
  (integerify isz b r h = None <->
   r <= 0 \/ Z.of_nat (s_len b) < (2 * r - 1) * 64 + 8).
Proof.
  intros Hb HI. split.
  - intros E.
    destruct (decide (r <= 0)) as [?|Hr]; [left; assumption|].
    destruct (decide (Z.of_nat (s_len b) < (2 * r - 1) * 64 + 8)) as [?|HL];
      [right; assumption|].
    rewrite integerify_runs in E by (assumption || lia). discriminate.
  - apply integerify_panics; assumption.
Qed.

Lemma X7_integerify_panics_witness :
  integerify Int64 (Slice 0 0 128 128) 0 [replicate 128 1] = None.
Proof.
  apply (X7_integerify_panics_iff Int64 [replicate 128 1] (Slice 0 0 128 128) 0).
  - unfold slice_ok. simpl. lia.
  - unfold in_int. vm_compute. split; discriminate.
  - left. lia.
Defined.

(** *** rot *)





(** *** The array helpers of the array variant *)

(** X9: copying a 64-byte array into a slice of at least 64 bytes with
    [blockCopyFromArr] and reading it back with [blockCopyToArr] returns
    the array; the heap holds the array at the start of the slice. *)
Theorem X9_array_copy_round_trip (h : heap) (dst : slice) (x y : list Z) :
  slice_ok h dst -> (64 <= s_len dst)%nat ->
  length x = 64%nat -> length y = 64%nat ->
  (ArrayVariant.blockCopyFromArr dst x ;;; ArrayVariant.blockCopyToArr y dst) h =
    Some (x, put h (s_arr dst) (s_off dst) x).
Proof.
  intros Hd Hl Hx Hy.
  assert (Ha : (s_arr dst < length h)%nat) by apply Hd.
  assert (Hlc : (s_len dst <= s_cap dst)%nat) by apply Hd.
  assert (Hc : (s_off dst + s_cap dst <= length (h !!! s_arr dst))%nat) by apply Hd.
  rewrite (bind_Some _ _ _ _ _ (blockCopyFromArr_eq h dst x Hd ltac:(lia))).
  set (h1 := put h (s_arr dst) (s_off dst) x).
  assert (Hd1 : slice_ok h1 dst) by (apply slice_ok_put; [exact Ha|lia|exact Hd]).
  rewrite (blockCopyToArr_eq h1 y dst Hd1 Hy Hl).
  f_equal. f_equal. unfold view, h1.
  apply bytes_at_put_same'; [exact Ha|lia|exact Hx].
Qed.

Lemma X9_array_copy_witness :
  (ArrayVariant.blockCopyFromArr (Slice 0 0 64 64) (replicate 64 7) ;;;
   ArrayVariant.blockCopyToArr (replicate 64 0) (Slice 0 0 64 64))
    [replicate 64 1] =
    Some (replicate 64 7, put [replicate 64 1] 0 0 (replicate 64 7)).
Proof.
  apply (X9_array_copy_round_trip [replicate 64 1] (Slice 0 0 64 64)
           (replicate 64 7) (replicate 64 0)).
  - unfold slice_ok. simpl. lia.
  - simpl. lia.
  - reflexivity.
  - reflexivity.
Defined.

(** X10: on a well-formed slice, [blockXORToArr(dst, src)] returns the
    XOR of the array with the first 64 bytes of [src] and leaves the heap
    as it is when [cap(src) >= 64] (the length of [src] plays no part),
    and panics otherwise. *)
Theorem X10_blockXORToArr (h : heap) (x : list Z) (src : slice) :
  slice_ok h src -> length x = 64%nat ->
  ArrayVariant.blockXORToArr x src h =
    if decide (64 <= s_cap src)%nat
    then Some (Spec.xor_bytes x (view h src 64), h)
    else None.
Proof.
  intros Hs Hx. case_decide as Hc.
  - apply blockXORToArr_eq; assumption.
  - unfold ArrayVariant.blockXORToArr. apply bind_None, slice_to_panics. lia.
Qed.

Lemma X10_blockXORToArr_witness :
  ArrayVariant.blockXORToArr (replicate 64 7) (Slice 0 0 2 64) [replicate 64 1] =
    if decide (64 <= s_cap (Slice 0 0 2 64))%nat
    then Some (Spec.xor_bytes (replicate 64 7)
                 (view [replicate 64 1] (Slice 0 0 2 64) 64), [replicate 64 1])
    else None.
Proof.
  apply (X10_blockXORToArr [replicate 64 1] (replicate 64 7) (Slice 0 0 2 64)).
  - unfold slice_ok. simpl. lia.
  - reflexivity.
Defined.

(** *** More on the guards of Key *)

Lemma power_of_two_1 : Spec.power_of_two 1.
Proof. exists 0. split; [lia|reflexivity]. Qed.

Lemma rot_guard_iff isz N :
  in_int isz N ->
  (N <= 0 \/ Z.land N (int_sub isz N 1) <> 0) <-> ~ (1 <= N /\ Spec.power_of_two N).
Proof.
  intros HI. destruct (decide (N = 1)) as [->|H1].
  - split.
    + intros [H|H]; [lia|]. exfalso. apply H.
      unfold int_sub. rewrite int_wrap_id; [reflexivity|].
      apply in_int_small. lia.
    + intros H. exfalso. apply H. split; [lia|exact power_of_two_1].
  - pose proof (first_guard_iff isz N HI) as G. split.
    + intros [H|H] [HN HP]; [lia|]. apply (proj1 G); [right; exact H|].
      split; [lia|exact HP].
    + intros H. destruct (proj2 G) as [G1|G2].
      * intros [HN HP]. apply H. split; [lia|exact HP].
      * destruct (decide (N <= 0)); [left; assumption|]. exfalso. lia.
      * right. exact G2.
Qed.

Lemma int_quot_any isz1 isz2 a b :
  0 <= a <= 2147483647 -> int_quot isz1 a b = int_quot isz2 a b.
Proof.
  intros Ha. destruct (decide (b = 0)) as [->|Hb].
  - unfold int_quot. rewrite !decide_True by reflexivity. reflexivity.
  - rewrite !int_quot_eq by assumption. reflexivity.
Qed.

Lemma too_large_any isz1 isz2 N r p h1 h2 :
  outcome (too_large isz1 N r p h1) = outcome (too_large isz2 N r p h2).
Proof.
  unfold too_large. rewrite maxInt_quot_128.
  rewrite (int_quot_any isz1 isz2 16777215 p) by lia.
  rewrite (int_quot_any isz1 isz2 16777215 r) by lia.
  repeat (case_decide || case_match); reflexivity.
Qed.

(** The second guard at [r = 0]. *)
Lemma too_large_zero_r isz N p h :
  too_large isz N 0 p h =
    if decide (-16777215 <= p < 0) then Some (true, h) else None.
Proof.
  destruct (Z.lt_trichotomy p 0) as [Hp|[->|Hp]].
  - unfold too_large. rewrite maxInt_quot_128, maxInt_quot_256.
    change (u64_mul (to_uint64 0) (to_uint64 p)) with 0.
    rewrite decide_False by (change (Z.shiftl 1 30) with 1073741824; lia).
    rewrite int_quot_eq by lia.
    assert (Hq : Z.quot 16777215 p = - (16777215 / - p)).
    { replace p with (- (- p)) at 1 by lia. rewrite Z.quot_opp_r by lia.
      rewrite Z.quot_div_nonneg by lia. reflexivity. }
    rewrite Hq.
    destruct (decide (-16777215 <= p < 0)) as [Hin|Hout].
    + assert (1 <= 16777215 / - p) by (apply Z.div_le_lower_bound; lia).
      rewrite decide_True by lia. reflexivity.
    + assert (16777215 / - p = 0) by (apply Z.div_small; lia).
      rewrite decide_False by lia. rewrite decide_False by lia.
      unfold int_quot. rewrite decide_True by reflexivity. reflexivity.
  - rewrite too_large_panics_p. rewrite decide_False by lia. reflexivity.
  - rewrite too_large_panics_r by exact Hp. rewrite decide_False by lia. reflexivity.
Qed.

Section KeyGuards.
Variable isz : IntSize.
Variable blockMix : slice -> slice -> Z -> M unit.
Hypothesis blockMix_ok : blockMix_refines isz blockMix.
Variable pbkdf2 : list Z -> list Z -> Z -> Z -> option (list Z).

(** Past the first guard no run ends in the error on [N]. *)
Lemma Key_with_not_err_N Nmin password salt N r p keyLen h :
  0 <= Nmin -> ~ (N <= Nmin \/ Z.land N (int_sub isz N 1) <> 0) ->
  ~ rejects_with err_N
      (Key_with isz blockMix pbkdf2 Nmin password salt N r p keyLen) h.
Proof.
  intros Hm Hg Hrej. unfold rejects_with in Hrej.
  destruct (too_large isz N r p h) as [[b h1]|] eqn:E.
  - destruct b.
    + unfold Key_with in Hrej. rewrite decide_False in Hrej by exact Hg.
      unfold bind in Hrej. rewrite E in Hrej. discriminate.
    + destruct (too_large_false isz N r p h h1 E) as (Hr & Hp & Hgc).
      assert (HN : 1 <= N) by (destruct (decide (N <= Nmin)); [tauto|lia]).
      destruct (guard_conditions_false N r p HN Hr Hp Hgc)
        as (Hr1 & Hp1 & B1 & B2 & B3).
      pose proof (Key_with_outcome isz blockMix blockMix_ok pbkdf2 Nmin password
                    salt N r p keyLen h Hg HN Hr1 Hp1 B1 B2 B3) as EO.
      rewrite Hrej in EO. cbn in EO. unfold Key_result in EO.
      repeat case_match; discriminate.
  - unfold Key_with in Hrej. rewrite decide_False in Hrej by exact Hg.
    unfold bind in Hrej. rewrite E in Hrej. discriminate.
Qed.

Lemma Key_with_zero Nmin password salt N r p keyLen h :
  ~ (N <= Nmin \/ Z.land N (int_sub isz N 1) <> 0) ->
  p = 0 \/ r = 0 ->
  Key_with isz blockMix pbkdf2 Nmin password salt N r p keyLen h =
    if decide (r = 0 /\ -16777215 <= p < 0)
    then Some (failure err_large, h) else None.
Proof.
  intros Hg Hz. unfold Key_with. rewrite decide_False by exact Hg.
  unfold bind. destruct (decide (r = 0)) as [->|Hr].
  - rewrite too_large_zero_r.
    destruct (decide (-16777215 <= p < 0)) as [Hp|Hp].
    + rewrite decide_True by (split; [reflexivity|exact Hp]). reflexivity.
    + rewrite decide_False by tauto. reflexivity.
  - assert (p = 0) as -> by tauto. rewrite too_large_panics_p.
    rewrite decide_False by tauto. reflexivity.
Qed.
End KeyGuards.

(** Across the widths of [int]. *)
Lemma Key_with_any_width (isz1 isz2 : IntSize) blockMix1 blockMix2 pbkdf2
    Nmin password salt N r p keyLen h1 h2 :
  blockMix_refines isz1 blockMix1 -> blockMix_refines isz2 blockMix2 ->
  0 <= Nmin -> in_int isz1 N -> in_int isz2 N ->
  outcome (Key_with isz1 blockMix1 pbkdf2 Nmin password salt N r p keyLen h1) =
  outcome (Key_with isz2 blockMix2 pbkdf2 Nmin password salt N r p keyLen h2).
Proof.
  intros Hb1 Hb2 Hm HI1 HI2.
  destruct (decide (N <= Nmin)) as [HN|HN].
  { unfold Key_with. rewrite !decide_True by (left; exact HN). reflexivity. }
  assert (Es : forall isz, in_int isz N -> int_sub isz N 1 = N - 1).
  { intros isz HI. unfold int_sub. apply int_wrap_id.
    unfold in_int in *. pose proof (min_int_le isz). lia. }
  destruct (decide (Z.land N (N - 1) <> 0)) as [HL|HL].
  { unfold Key_with. rewrite !decide_True by (right; rewrite Es; assumption).
    reflexivity. }
  assert (Hg : forall isz, in_int isz N ->
            ~ (N <= Nmin \/ Z.land N (int_sub isz N 1) <> 0)).
  { intros isz HI. rewrite (Es isz HI). tauto. }
  pose proof (too_large_any isz1 isz2 N r p h1 h2) as EI.
  destruct (too_large isz1 N r p h1) as [[b1 h1']|] eqn:E1;
    destruct (too_large isz2 N r p h2) as [[b2 h2']|] eqn:E2;
    cbn in EI; try discriminate.
  - assert (b2 = b1) by congruence. subst b2. destruct b1.
    + unfold Key_with. rewrite !decide_False by (apply Hg; assumption).
      unfold bind. rewrite E1, E2. reflexivity.
    + destruct (too_large_false isz1 N r p h1 h1' E1) as (Hr & Hp & Hgc).
      destruct (guard_conditions_false N r p ltac:(lia) Hr Hp Hgc)
        as (Hr1 & Hp1 & B1 & B2 & B3).
      rewrite (Key_with_outcome isz1 blockMix1 Hb1 pbkdf2)
        by (try apply Hg; assumption || lia).
      rewrite (Key_with_outcome isz2 blockMix2 Hb2 pbkdf2)
        by (try apply Hg; assumption || lia).
      reflexivity.
  - unfold Key_with. rewrite !decide_False by (apply Hg; assumption).
    unfold bind. rewrite E1, E2. reflexivity.
Qed.

(** X11: in the variant of scrypt.go and in the array variant, [Key]
    returns nil and the error "N must be > 1 and a power of 2", with the
    heap untouched, exactly when [N] is not a power of two greater than
    1; [r], [p] and [keyLen] play no part. *)
Theorem X11_first_guard_exact (isz : IntSize) pbkdf2 password salt N r p keyLen h :
  in_int isz N ->
  (rejects_with err_N (ScryptGo.Key isz pbkdf2 password salt N r p keyLen) h <->
   ~ (2 <= N /\ Spec.power_of_two N)) /\
  (rejects_with err_N (ArrayVariant.Key isz pbkdf2 password salt N r p keyLen) h <->
   ~ (2 <= N /\ Spec.power_of_two N)).
Proof.
  intros HI. pose proof (first_guard_iff isz N HI) as G. split; split.
  - intros Hrej Hv. revert Hrej.
    apply (Key_with_not_err_N isz _ (blockMix_scryptgo_refines isz)); [lia|tauto].
  - intros Hv. apply Key_with_rejects_N. tauto.
  - intros Hrej Hv. revert Hrej.
    apply (Key_with_not_err_N isz _ (blockMix_array_refines isz)); [lia|tauto].
  - intros Hv. apply Key_with_rejects_N. tauto.
Qed.

Lemma X11_first_guard_witness :
  (rejects_with err_N (ScryptGo.Key Int64 pbkdf2_zeros [] [] 6 1 1 32) [] <->
   ~ (2 <= 6 /\ Spec.power_of_two 6)) /\
  (rejects_with err_N (ArrayVariant.Key Int64 pbkdf2_zeros [] [] 6 1 1 32) [] <->
   ~ (2 <= 6 /\ Spec.power_of_two 6)).
Proof.
  apply (X11_first_guard_exact Int64 pbkdf2_zeros [] [] 6 1 1 32 []).
  unfold in_int. vm_compute. split; discriminate.
Defined.

(** X12: the rot variant of [Key] (guard [N <= 0]) returns nil and the
    error on [N], with the heap untouched, exactly when [N] is not a
    power of two greater than 0: unlike the other two variants it lets
    [N = 1] through. *)
Theorem X12_rot_guard_exact (isz : IntSize) pbkdf2 password salt N r p keyLen h :
  in_int isz N ->
  (rejects_with err_N (RotVariant.Key isz pbkdf2 password salt N r p keyLen) h <->
   ~ (1 <= N /\ Spec.power_of_two N)).
Proof.
  intros HI. pose proof (rot_guard_iff isz N HI) as G. split.
  - intros Hrej Hv. revert Hrej.
    apply (Key_with_not_err_N isz _ (blockMix_rot_refines isz)); [lia|tauto].
  - intros Hv. apply Key_with_rejects_N. tauto.
Qed.

Lemma X12_rot_guard_witness :
  rejects_with err_N (RotVariant.Key Int64 pbkdf2_zeros [] [] 1 1 1 32) [] <->
  ~ (1 <= 1 /\ Spec.power_of_two 1).
Proof.
  apply (X12_rot_guard_exact Int64 pbkdf2_zeros [] [] 1 1 1 32 []).
  unfold in_int. vm_compute. split; discriminate.
Defined.

(** X13: with [N = 1] the rot variant of [Key] computes the same
    composition as for larger [N]: for [r, p >= 1] within the bounds of
    the second guard its result is [derive_key] at [N = 1]. *)
Theorem X13_rot_variant_at_N_1 (isz : IntSize) pbkdf2 password salt r p keyLen h :
  pbkdf2_contract pbkdf2 -> 1 <= r -> 1 <= p -> ~ guard_conditions 1 r p ->
  outcome (RotVariant.Key isz pbkdf2 password salt 1 r p keyLen h) =
    success <$> Spec.derive_key pbkdf2 password salt 1 r p keyLen.
Proof.
  intros Hc Hr Hp Hg.
  destruct (guard_conditions_false 1 r p ltac:(lia) ltac:(lia) ltac:(lia) Hg)
    as (_ & _ & B1 & B2 & B3).
  unfold RotVariant.Key.
  rewrite (Key_with_outcome isz _ (blockMix_rot_refines isz) pbkdf2 0);
    try assumption; try lia.
  - apply Key_result_contract; assumption.
  - intros G. apply (proj1 (rot_guard_iff isz 1 ltac:(apply in_int_small; lia)) G).
    split; [lia|exact power_of_two_1].
Qed.

Lemma X13_rot_variant_witness :
  outcome (RotVariant.Key Int64 pbkdf2_zeros [] [] 1 1 1 32 []) =
    success <$> Spec.derive_key pbkdf2_zeros [] [] 1 1 1 32.
Proof.
  apply (X13_rot_variant_at_N_1 Int64 pbkdf2_zeros [] [] 1 1 32 []).
  - exact pbkdf2_zeros_contract.
  - lia.
  - lia.
  - apply guard_conditions_valid; lia.
Defined.

(** X14: when [N] passes the first guard and [r] or [p] is zero, [Key]
    never derives a key: it panics on the division by zero of the second
    guard, except for [r = 0] with [-16777215 <= p < 0], where
    [r > maxInt/128/p] holds first and the "too large" error is returned.
    All three variants. *)
Theorem X14_Key_zero_divisor (isz : IntSize) pbkdf2 password salt N r p keyLen h :
  in_int isz N -> 2 <= N -> Spec.power_of_two N -> p = 0 \/ r = 0 ->
  let res := if decide (r = 0 /\ -16777215 <= p < 0)
             then Some (failure err_large, h) else None in
  ScryptGo.Key isz pbkdf2 password salt N r p keyLen h = res /\
  ArrayVariant.Key isz pbkdf2 password salt N r p keyLen h = res /\
  RotVariant.Key isz pbkdf2 password salt N r p keyLen h = res.
Proof.
  intros HI HN HP Hz res.
  split; [|split]; apply Key_with_zero; try exact Hz;
    apply first_guard_passes; assumption || lia.
Qed.

Lemma X14_Key_zero_witness :
  let res := if decide (1 = 0 /\ -16777215 <= 0 < 0)
             then Some (failure err_large, []) else None in
  ScryptGo.Key Int64 pbkdf2_zeros [] [] 2 1 0 32 [] = res /\
  ArrayVariant.Key Int64 pbkdf2_zeros [] [] 2 1 0 32 [] = res /\
  RotVariant.Key Int64 pbkdf2_zeros [] [] 2 1 0 32 [] = res.
Proof.
  apply (X14_Key_zero_divisor Int64 pbkdf2_zeros [] [] 2 1 0 32 []).
  - exact in_int64_2.
  - lia.
  - exact power_of_two_2.
  - left. reflexivity.
Defined.

(** X15: the result of [Key] does not depend on the width of [int]: for
    every [N] that fits in 32 bits and all other arguments, a 32-bit and
    a 64-bit platform return the same key, the same error or the same
    panic.  All three variants. *)
Theorem X15_Key_same_on_32_and_64_bits pbkdf2 password salt N r p keyLen h1 h2 :
  in_int Int32 N ->
  outcome (ScryptGo.Key Int32 pbkdf2 password salt N r p keyLen h1) =
    outcome (ScryptGo.Key Int64 pbkdf2 password salt N r p keyLen h2) /\
  outcome (ArrayVariant.Key Int32 pbkdf2 password salt N r p keyLen h1) =
    outcome (ArrayVariant.Key Int64 pbkdf2 password salt N r p keyLen h2) /\
  outcome (RotVariant.Key Int32 pbkdf2 password salt N r p keyLen h1) =
    outcome (RotVariant.Key Int64 pbkdf2 password salt N r p keyLen h2).
Proof.
  intros HI.
  assert (HI' : in_int Int64 N).
  { unfold in_int in *.
    change (min_int Int32) with (-2147483648) in HI.
    change (max_int Int32) with 2147483647 in HI.
    change (min_int Int64) with (-9223372036854775808).
    change (max_int Int64) with 9223372036854775807. lia. }
  split; [|split].
  - apply Key_with_any_width; try assumption; try lia.
    + apply blockMix_scryptgo_refines.
    + apply blockMix_scryptgo_refines.
  - apply Key_with_any_width; try assumption; try lia.
    + apply blockMix_array_refines.
    + apply blockMix_array_refines.
  - apply Key_with_any_width; try assumption; try lia.
    + apply blockMix_rot_refines.
    + apply blockMix_rot_refines.
Qed.

Lemma X15_Key_widths_witness :
  outcome (ScryptGo.Key Int32 pbkdf2_zeros [] [] 2 1 1 32 []) =
    outcome (ScryptGo.Key Int64 pbkdf2_zeros [] [] 2 1 1 32 []) /\
  outcome (ArrayVariant.Key Int32 pbkdf2_zeros [] [] 2 1 1 32 []) =
    outcome (ArrayVariant.Key Int64 pbkdf2_zeros [] [] 2 1 1 32 []) /\
  outcome (RotVariant.Key Int32 pbkdf2_zeros [] [] 2 1 1 32 []) =
    outcome (RotVariant.Key Int64 pbkdf2_zeros [] [] 2 1 1 32 []).
Proof.
  apply (X15_Key_same_on_32_and_64_bits pbkdf2_zeros [] [] 2 1 1 32 [] []).
  unfold in_int. vm_compute. split; discriminate.
Defined.

(** *** Allocation and footprint *)

Section Effects.
Local Open Scope nat_scope.
Implicit Types (A : nat -> Prop) (h : heap).

Lemma effect_mono {T} A A' n (c : M T) :
  (forall a, A a -> A' a) -> effect A n c -> effect A' n c.
Proof.
  intros Hsub Hc h x h' E. destruct (Hc h x h' E) as [L F].
  split; [exact L|]. intros a Ha. destruct (F a Ha) as [F1 F2].
  split; [exact F1|]. intros Hn. apply F2. intros HA. apply Hn, Hsub, HA.
Qed.

Lemma effect_count {T} A n n' (c : M T) : n = n' -> effect A n c -> effect A n' c.
Proof. intros ->. exact id. Qed.

Lemma effect_ret {T} A (x : T) : effect A 0 (ret x).
Proof.
  intros h y h' E. unfold ret in E. injection E as _ <-.
  split; [lia|]. intros a _. split; reflexivity.
Qed.

Lemma effect_panic {T} A n : effect A n (@panic T).
Proof. intros h y h' E. discriminate. Qed.

Lemma reads_effect {T} A (P : T -> Prop) (c : M T) : reads P c -> effect A 0 c.
Proof.
  intros Hc h x h' E. destruct (Hc h x h' E) as [-> _].
  split; [lia|]. intros a _. split; reflexivity.
Qed.

Lemma effect_bind_gen {T U} A n m (c : M T) (k : T -> M U) :
  effect A n c ->
  (forall h x h1, c h = Some (x, h1) ->
     effect (fun a => A a \/ length h <= a) m (k x)) ->
  effect A (n + m) (bind c k).
Proof.
  intros Hc Hk h y h' E. unfold bind in E.
  destruct (c h) as [[x h1]|] eqn:E1; [|discriminate].
  destruct (Hc h x h1 E1) as [L1 F1].
  destruct (Hk h x h1 E1 h1 y h' E) as [L2 F2].
  split; [lia|]. intros a Ha.
  destruct (F1 a Ha) as [S1 C1]. destruct (F2 a ltac:(lia)) as [S2 C2].
  split; [congruence|]. intros Hn. rewrite C2, C1; [reflexivity|exact Hn|].
  intros [HA|HL]; [exact (Hn HA)|lia].
Qed.

Lemma effect_bind {T U} A n m (c : M T) (k : T -> M U) :
  effect A n c -> (forall x, effect A m (k x)) -> effect A (n + m) (bind c k).
Proof.
  intros Hc Hk. apply effect_bind_gen; [exact Hc|].
  intros h x h1 _. apply (effect_mono A); [tauto|apply Hk].
Qed.

Lemma effect_bind_reads {T U} A m (P : T -> Prop) (c : M T) (k : T -> M U) :
  reads P c -> (forall x, P x -> effect A m (k x)) -> effect A m (bind c k).
Proof.
  intros Hc Hk h y h' E. unfold bind in E.
  destruct (c h) as [[x h1]|] eqn:E1; [|discriminate].
  destruct (Hc h x h1 E1) as [-> HP]. exact (Hk x HP h y h' E).
Qed.

Lemma reads_bind {T U} (P : T -> Prop) (Q : U -> Prop) (c : M T) (k : T -> M U) :
  reads P c -> (forall x, P x -> reads Q (k x)) -> reads Q (bind c k).
Proof.
  intros Hc Hk h y h' E. unfold bind in E.
  destruct (c h) as [[x h1]|] eqn:E1; [|discriminate].
  destruct (Hc h x h1 E1) as [-> HP]. exact (Hk x HP h y h' E).
Qed.

Lemma reads_ret {T} (P : T -> Prop) (x : T) : P x -> reads P (ret x).
Proof. intros HP h y h' E. unfold ret in E. injection E as <- <-. auto. Qed.

Lemma reads_weaken {T} (P Q : T -> Prop) (c : M T) :
  (forall x, P x -> Q x) -> reads P c -> reads Q c.
Proof. intros HPQ Hc h x h' E. destruct (Hc h x h' E). auto. Qed.

(** A fresh array, then a continuation that may write to it. *)
Lemma effect_bind_make {U} A m (n : Z) (k : slice -> M U) :
  (forall L s, s_arr s = L -> effect (fun a => A a \/ L <= a) m (k s)) ->
  effect A (S m) (bind (make_bytes n) k).
Proof.
  intros Hk h y h' E. unfold bind, make_bytes in E.
  case_decide; [|discriminate].
  destruct (Hk (length h) (Slice (length h) 0 (Z.to_nat n) (Z.to_nat n)) eq_refl
              _ y h' E) as [L F].
  rewrite length_app in L. simpl in L. split; [lia|].
  intros a Ha. destruct (F a) as [S1 C1]; [rewrite length_app; lia|].
  rewrite lookup_total_app_l in S1, C1 by exact Ha.
  split; [exact S1|]. intros Hn. apply C1. intros [HA|HL]; [exact (Hn HA)|lia].
Qed.
End Effects.

Section Loops.
Local Open Scope nat_scope.
Implicit Types (A : nat -> Prop).

Lemma effect_for_loop {St} A k (body : Z -> St -> M St) cnt :
  (forall i s, effect A k (body i s)) ->
  forall lo s, effect A (cnt * k) (for_loop cnt lo body s).
Proof.
  intros Hb. induction cnt as [|cnt IH]; intros lo s.
  - apply effect_ret.
  - cbn [for_loop]. apply (effect_count A (k + cnt * k)); [lia|].
    apply effect_bind; [apply Hb|]. intros s'. apply IH.
Qed.

Lemma effect_for_state {St} A k (body : Z -> St -> M St) lo hi s :
  (forall i s, effect A k (body i s)) ->
  effect A (Z.to_nat (hi - lo) * k) (for_state lo hi body s).
Proof. intros Hb. apply effect_for_loop, Hb. Qed.

Lemma effect_for_range A k (body : Z -> M unit) lo hi :
  (forall i, effect A k (body i)) ->
  effect A (Z.to_nat (hi - lo) * k) (for_range lo hi body).
Proof. intros Hb. apply effect_for_state. intros i _. apply Hb. Qed.

Lemma effect_range_array {E St} A (body : Z -> E -> St -> M St) (l : list E) :
  (forall i v s, effect A 0 (body i v s)) ->
  forall i s, effect A 0 (range_array l i body s).
Proof.
  intros Hb. induction l as [|v l IH]; intros i s.
  - apply effect_ret.
  - cbn [range_array]. apply (effect_bind A 0 0); [apply Hb|]. intros s'. apply IH.
Qed.

Lemma reads_for_loop {St} (body : Z -> St -> M St) cnt :
  (forall i s, reads (fun _ => True) (body i s)) ->
  forall lo s, reads (fun _ => True) (for_loop cnt lo body s).
Proof.
  intros Hb. induction cnt as [|cnt IH]; intros lo s.
  - apply reads_ret. exact I.
  - cbn [for_loop]. apply (reads_bind (fun _ => True)); [apply Hb|].
    intros s' _. apply IH.
Qed.
End Loops.

Section PrimitiveEffects.
Implicit Types (A : nat -> Prop) (h : heap) (s dst src b : slice).

Lemma reads_slice_from s i :
  reads (fun s' => s_arr s' = s_arr s) (slice_from s i).
Proof.
  intros h x h' E. unfold slice_from in E. case_decide; [|discriminate].
  unfold ret in E. injection E as <- <-. auto.
Qed.

Lemma reads_slice_to s n :
  reads (fun s' => s_arr s' = s_arr s) (slice_to s n).
Proof.
  intros h x h' E. unfold slice_to in E. case_decide; [|discriminate].
  unfold ret in E. injection E as <- <-. auto.
Qed.

Lemma reads_index_get s i : reads (fun _ => True) (index_get s i).
Proof.
  intros h x h' E. unfold index_get in E.
  repeat (case_decide || case_match); try discriminate.
  injection E as _ <-. auto.
Qed.

Lemma reads_slice_bytes s : reads (fun _ => True) (slice_bytes s).
Proof.
  intros h x h' E. unfold slice_bytes in E.
  repeat (case_decide || case_match); try discriminate.
  injection E as _ <-. auto.
Qed.

Lemma effect_insert h a (l : list Z) :
  length l = length (h !!! a) ->
  (length (<[a := l]> h) = length h + 0)%nat /\
  forall a', (a' < length h)%nat ->
    length (<[a := l]> h !!! a') = length (h !!! a') /\
    (~ a' = a -> <[a := l]> h !!! a' = h !!! a').
Proof.
  intros HL. split; [rewrite length_insert; lia|]. intros a' Ha'.
  destruct (decide (a' = a)) as [->|Hne].
  - rewrite list_lookup_total_insert_eq by exact Ha'. split; [exact HL|tauto].
  - rewrite list_lookup_total_insert_ne by congruence. split; reflexivity.
Qed.

Lemma effect_index_set s i v : effect (fun a => a = s_arr s) 0 (index_set s i v).
Proof.
  intros h x h' E. unfold index_set in E.
  case_decide; [|discriminate].
  destruct (h !! s_arr s) as [l|] eqn:El; [|discriminate].
  case_decide; [|discriminate]. injection E as _ <-.
  apply effect_insert. rewrite length_insert.
  rewrite (list_lookup_total_correct _ _ _ El). reflexivity.
Qed.

Lemma effect_write_bytes dst d :
  effect (fun a => a = s_arr dst) 0 (write_bytes dst d).
Proof.
  intros h x h' E. unfold write_bytes in E.
  destruct (h !! s_arr dst) as [l|] eqn:El; [|discriminate].
  case_decide as Hc; [|discriminate]. injection E as _ <-.
  apply effect_insert. rewrite (list_lookup_total_correct _ _ _ El).
  apply length_splice. rewrite length_take. lia.
Qed.

Lemma effect_copy dst src : effect (fun a => a = s_arr dst) 0 (copy dst src).
Proof.
  unfold copy. apply (effect_bind_reads _ _ (fun _ => True));
    [apply reads_slice_bytes|].
  intros d _. apply effect_write_bytes.
Qed.

Lemma effect_blockCopy dst src n :
  effect (fun a => a = s_arr dst) 0 (blockCopy dst src n).
Proof.
  unfold blockCopy. apply (effect_bind_reads _ _ _ _ _ (reads_slice_to src n)).
  intros s _. apply (effect_bind _ 0 0); [apply effect_copy|].
  intros _. apply effect_ret.
Qed.

Lemma effect_for_range0 A (body : Z -> M unit) lo hi :
  (forall i, effect A 0 (body i)) -> effect A 0 (for_range lo hi body).
Proof.
  intros Hb. apply (effect_count A (Z.to_nat (hi - lo) * 0)); [lia|].
  apply effect_for_range, Hb.
Qed.

Lemma effect_for_state0 {St} A (body : Z -> St -> M St) lo hi (st0 : St) :
  (forall i st, effect A 0 (body i st)) -> effect A 0 (for_state lo hi body st0).
Proof.
  intros Hb. apply (effect_count A (Z.to_nat (hi - lo) * 0)); [lia|].
  apply effect_for_state, Hb.
Qed.

Lemma effect_blockXOR dst src n :
  effect (fun a => a = s_arr dst) 0 (blockXOR dst src n).
Proof.
  unfold blockXOR. apply (effect_bind_reads _ _ _ _ _ (reads_slice_to src n)).
  intros s _. apply effect_for_range0. intros i.
  apply (effect_bind_reads _ _ _ _ _ (reads_index_get s i)). intros v _.
  apply (effect_bind_reads _ _ _ _ _ (reads_index_get dst i)). intros d _.
  apply effect_index_set.
Qed.

Lemma reads_Uint32 b : reads (fun _ => True) (LittleEndian_Uint32 b).
Proof.
  unfold LittleEndian_Uint32.
  repeat (apply (reads_bind _ _ _ _ (reads_index_get b _)); intros ? _).
  apply reads_ret. exact I.
Qed.

Lemma reads_Uint64 b : reads (fun _ => True) (LittleEndian_Uint64 b).
Proof.
  unfold LittleEndian_Uint64.
  repeat (apply (reads_bind _ _ _ _ (reads_index_get b _)); intros ? _).
  apply reads_ret. exact I.
Qed.

Lemma effect_PutUint32 b v :
  effect (fun a => a = s_arr b) 0 (LittleEndian_PutUint32 b v).
Proof.
  unfold LittleEndian_PutUint32.
  apply (effect_bind_reads _ _ _ _ _ (reads_index_get b 3)). intros _ _.
  repeat (apply (effect_bind _ 0 0); [apply effect_index_set|intros _]).
  apply effect_index_set.
Qed.

Lemma reads_integerify isz b r : reads (fun _ => True) (integerify isz b r).
Proof.
  unfold integerify. apply (reads_bind _ _ _ _ (reads_slice_from b _)).
  intros s _. apply reads_Uint64.
Qed.

(** An effect on a slice of the same array. *)
Lemma effect_same_array {T} A (s s' : slice) (c : M T) :
  s_arr s' = s_arr s -> A (s_arr s) ->
  effect (fun a => a = s_arr s') 0 c -> effect A 0 c.
Proof.
  intros Hs HA. apply effect_mono. intros a ->. rewrite Hs. exact HA.
Qed.
End PrimitiveEffects.

Section SalsaEffects.
Variable isz : IntSize.

Lemma effect_scryptgo_salsa b :
  effect (fun a => a = s_arr b) 0 (ScryptGo.salsa isz b).
Proof.
  unfold ScryptGo.salsa.
  apply (effect_bind _ 0 0).
  - apply (reads_effect _ (fun _ => True)). apply reads_for_loop.
    intros i w.
    repeat (apply (reads_bind _ _ _ _ (reads_index_get b _)); intros ? _).
    apply reads_ret. exact I.
  - intros w. cbv zeta. apply (effect_bind _ 0 0); [|intros _; apply effect_ret].
    apply effect_range_array. intros i v j.
    repeat (apply (effect_bind _ 0 0); [apply effect_index_set|intros _]).
    apply effect_ret.
Qed.

Lemma effect_rot_salsa b :
  effect (fun a => a = s_arr b) 0 (RotVariant.salsa isz b).
Proof.
  unfold RotVariant.salsa.
  apply (effect_bind _ 0 0).
  - apply (reads_effect _ (fun _ => True)). apply reads_for_loop.
    intros i w.
    apply (reads_bind _ _ _ _ (reads_slice_from b _)). intros s _.
    apply (reads_bind _ _ _ _ (reads_Uint32 s)). intros v _.
    apply reads_ret. exact I.
  - intros w. cbv zeta. apply effect_range_array. intros i v j.
    apply (effect_bind_reads _ _ _ _ _ (reads_slice_from b _)). intros s Hs.
    apply (effect_same_array _ b s); [exact Hs|reflexivity|].
    apply effect_PutUint32.
Qed.
End SalsaEffects.

Lemma effect_count_r {T} (A : nat -> Prop) (n n' : nat) (c : M T) :
  effect A n c -> n = n' -> effect A n' c.
Proof. intros H <-. exact H. Qed.

Section MixEffects.
Variable isz : IntSize.
Implicit Types (b y v xy : slice).

(** [blockMix] of scrypt.go and of the rot variant: one temporary of 64
    bytes from [make], writes to [b] and [y] only. *)
Lemma effect_blockMix_with (salsa : slice -> M unit) b y r :
  (forall s, effect (fun a => a = s_arr s) 0 (salsa s)) ->
  effect (fun a => a = s_arr b \/ a = s_arr y) 1 (blockMix_with isz salsa b y r).
Proof.
  intros Hsalsa. unfold blockMix_with.
  apply effect_bind_make. intros L x Hx.
  set (A := fun a : nat => (a = s_arr b \/ a = s_arr y) \/ (L <= a)%nat).
  assert (Ax : A (s_arr x)) by (right; lia).
  assert (Ab : A (s_arr b)) by (left; left; reflexivity).
  assert (Ay : A (s_arr y)) by (left; right; reflexivity).
  apply (effect_bind_reads _ _ _ _ _ (reads_slice_from b _)). intros bl _.
  apply (effect_bind _ 0 0).
  { apply (effect_same_array A x x); [reflexivity|exact Ax|apply effect_blockCopy]. }
  intros _. apply (effect_bind _ 0 0).
  { apply effect_for_range0. intros i.
    apply (effect_bind_reads _ _ _ _ _ (reads_slice_from b _)). intros bi _.
    apply (effect_bind _ 0 0).
    { apply (effect_same_array A x x); [reflexivity|exact Ax|apply effect_blockXOR]. }
    intros _. apply (effect_bind _ 0 0).
    { apply (effect_same_array A x x); [reflexivity|exact Ax|apply Hsalsa]. }
    intros _. apply (effect_bind_reads _ _ _ _ _ (reads_slice_from y _)).
    intros yi Hyi.
    apply (effect_same_array A y yi); [exact Hyi|exact Ay|apply effect_blockCopy]. }
  intros _. apply (effect_bind _ 0 0).
  { apply effect_for_range0. intros i.
    apply (effect_bind_reads _ _ _ _ _ (reads_slice_from b _)). intros bi Hbi.
    apply (effect_bind_reads _ _ _ _ _ (reads_slice_from y _)). intros yi _.
    apply (effect_same_array A b bi); [exact Hbi|exact Ab|apply effect_blockCopy]. }
  intros _. apply effect_for_range0. intros i.
  apply (effect_bind_reads _ _ _ _ _ (reads_slice_from b _)). intros bi Hbi.
  apply (effect_bind_reads _ _ _ _ _ (reads_slice_from y _)). intros yi _.
  apply (effect_same_array A b bi); [exact Hbi|exact Ab|apply effect_blockCopy].
Qed.

(** [blockMix] of the array variant: no allocation at all. *)
Lemma effect_array_blockMix b y r :
  effect (fun a => a = s_arr b \/ a = s_arr y) 0 (ArrayVariant.blockMix isz b y r).
Proof.
  unfold ArrayVariant.blockMix. cbv zeta.
  set (A := fun a : nat => a = s_arr b \/ a = s_arr y).
  assert (Ab : A (s_arr b)) by (left; reflexivity).
  assert (Ay : A (s_arr y)) by (right; reflexivity).
  assert (RC : forall x s, reads (fun _ : list Z => True)
                             (ArrayVariant.blockCopyToArr x s)).
  { intros x s. unfold ArrayVariant.blockCopyToArr, copy_to_array.
    apply (reads_bind _ _ _ _ (reads_slice_bytes s)). intros d _.
    apply reads_ret. exact I. }
  assert (RX : forall x s, reads (fun _ : list Z => True)
                             (ArrayVariant.blockXORToArr x s)).
  { intros x s. unfold ArrayVariant.blockXORToArr.
    apply (reads_bind _ _ _ _ (reads_slice_to s _)). intros s' _.
    apply reads_for_loop. intros i x'.
    apply (reads_bind _ _ _ _ (reads_index_get s' _)). intros v _.
    apply reads_ret. exact I. }
  apply (effect_bind_reads _ _ _ _ _ (reads_slice_from b _)). intros bl _.
  apply (effect_bind_reads _ _ _ _ _ (RC _ bl)). intros x0 _.
  apply (effect_bind _ 0 0).
  { apply effect_for_state0. intros i x.
    apply (effect_bind_reads _ _ _ _ _ (reads_slice_from b _)). intros bi _.
    apply (effect_bind_reads _ _ _ _ _ (RX x bi)). intros x1 _.
    apply (effect_bind_reads _ _ _ _ _ (reads_slice_from y _)). intros yi Hyi.
    apply (effect_bind _ 0 0); [|intros _; apply effect_ret].
    apply (effect_same_array A y yi); [exact Hyi|exact Ay|].
    unfold ArrayVariant.blockCopyFromArr.
    apply (effect_bind _ 0 0); [apply effect_write_bytes|].
    intros _. apply effect_ret. }
  intros _. apply (effect_bind _ 0 0).
  { apply effect_for_range0. intros i.
    apply (effect_bind_reads _ _ _ _ _ (reads_slice_from b _)). intros bi Hbi.
    apply (effect_bind_reads _ _ _ _ _ (reads_slice_from y _)). intros yi _.
    apply (effect_same_array A b bi); [exact Hbi|exact Ab|apply effect_blockCopy]. }
  intros _. apply effect_for_range0. intros i.
  apply (effect_bind_reads _ _ _ _ _ (reads_slice_from b _)). intros bi Hbi.
  apply (effect_bind_reads _ _ _ _ _ (reads_slice_from y _)). intros yi _.
  apply (effect_same_array A b bi); [exact Hbi|exact Ab|apply effect_blockCopy].
Qed.

(** [smix] calls [blockMix] [2 N] times and allocates nothing itself. *)
Lemma effect_smix_with (blockMix : slice -> slice -> Z -> M unit) (k : nat)
    b r N v xy :
  (forall b y r, effect (fun a => a = s_arr b \/ a = s_arr y) k (blockMix b y r)) ->
  effect (fun a => a = s_arr b \/ a = s_arr v \/ a = s_arr xy)
    (2 * Z.to_nat N * k) (smix_with isz blockMix b r N v xy).
Proof.
  intros Hbm. unfold smix_with. cbv zeta.
  set (A := fun a : nat => a = s_arr b \/ a = s_arr v \/ a = s_arr xy).
  assert (Ab : A (s_arr b)) by (left; reflexivity).
  assert (Av : A (s_arr v)) by (right; left; reflexivity).
  assert (Axy : A (s_arr xy)) by (right; right; reflexivity).
  apply (effect_bind_reads _ _ _ _ _ (reads_slice_from xy _)). intros y Hy.
  assert (Hmix : effect A k (blockMix xy y r)).
  { apply (effect_mono (fun a => a = s_arr xy \/ a = s_arr y)); [|apply Hbm].
    intros a [->| ->]; [exact Axy|rewrite Hy; exact Axy]. }
  apply (effect_count_r A (0 + (Z.to_nat (N - 0) * k + (Z.to_nat (N - 0) * k + 0))));
    [|rewrite Z.sub_0_r; lia].
  apply effect_bind.
  { apply (effect_same_array A xy xy); [reflexivity|exact Axy|apply effect_blockCopy]. }
  intros _. apply effect_bind.
  { apply effect_for_range. intros i.
    apply (effect_bind_reads _ _ _ _ _ (reads_slice_from v _)). intros vi Hvi.
    apply (effect_bind _ 0 k); [|intros _; exact Hmix].
    apply (effect_same_array A v vi); [exact Hvi|exact Av|apply effect_blockCopy]. }
  intros _. apply effect_bind.
  { apply effect_for_range. intros i.
    apply (effect_bind_reads _ _ _ _ _ (reads_integerify isz xy r)). intros j _.
    cbv zeta.
    apply (effect_bind_reads _ _ _ _ _ (reads_slice_from v _)). intros vj _.
    apply (effect_bind _ 0 k); [|intros _; exact Hmix].
    apply (effect_same_array A xy xy); [reflexivity|exact Axy|apply effect_blockXOR]. }
  intros _.
  apply (effect_same_array A b b); [reflexivity|exact Ab|apply effect_blockCopy].
Qed.
End MixEffects.

(** *** The memory a call of Key leaves behind *)

Lemma heap_split3 (h' : heap) (L : nat) :
  (L + 3 <= length h')%nat ->
  h' = take L h' ++ [h' !!! L; h' !!! (L + 1)%nat; h' !!! (L + 2)%nat] ++
       drop (L + 3) h'.
Proof.
  intros HL. rewrite <- (take_drop L h') at 1. f_equal.
  rewrite (drop_S h' (h' !!! L) L)
    by (apply list_lookup_lookup_total_lt; lia).
  rewrite (drop_S h' (h' !!! (L + 1)%nat) (S L))
    by (replace (S L) with (L + 1)%nat by lia;
        apply list_lookup_lookup_total_lt; lia).
  rewrite (drop_S h' (h' !!! (L + 2)%nat) (S (S L)))
    by (replace (S (S L)) with (L + 2)%nat by lia;
        apply list_lookup_lookup_total_lt; lia).
  replace (S (S (S L))) with (L + 3)%nat by lia. reflexivity.
Qed.

Section KeyFootprint.
Variable isz : IntSize.
Variable blockMix : slice -> slice -> Z -> M unit.
Variable k : nat.
Hypothesis blockMix_effect :
  forall b y r, effect (fun a => a = s_arr b \/ a = s_arr y) k (blockMix b y r).
Variable pbkdf2 : list Z -> list Z -> Z -> Z -> option (list Z).

Lemma Key_with_footprint Nmin password salt (N r p : Z) keyLen h res h' :
  ~ (N <= Nmin \/ Z.land N (int_sub isz N 1) <> 0) ->
  1 <= N -> 1 <= r -> 1 <= p ->
  128 * r * p <= 2147483647 -> 256 * r <= 2147483647 -> 128 * r * N <= 2147483647 ->
  Key_with isz blockMix pbkdf2 Nmin password salt N r p keyLen h = Some (res, h') ->
  exists xy v b tmp d,
    pbkdf2 password salt 1 (p * 128 * r) = Some d /\
    h' = h ++ [xy; v; b] ++ tmp /\
    length xy = Z.to_nat (256 * r) /\ length v = Z.to_nat (128 * r * N) /\
    length b = length d /\
    length tmp = (Z.to_nat p * (2 * Z.to_nat N * k))%nat.
Proof.
  intros Hg HN Hr1 Hp1 Hbp Hbr HbN E.
  unfold Key_with in E. rewrite decide_False in E by exact Hg.
  rewrite (bind_Some _ _ _ _ _ (too_large_eq isz N r p h ltac:(lia) ltac:(lia))) in E.
  rewrite bool_decide_eq_false_2 in E by (apply guard_conditions_valid; lia).
  rewrite (int_mul_small isz 256) in E by int_bound.
  rewrite (int_mul_small isz 128 r) in E by int_bound.
  rewrite (int_mul_small isz (128 * r) N) in E by int_bound.
  rewrite (int_mul_small isz p 128) in E by int_bound.
  rewrite (int_mul_small isz (p * 128) r) in E by int_bound.
  set (n1 := Z.to_nat (256 * r)). set (n2 := Z.to_nat (128 * r * N)).
  replace (256 * r) with (Z.of_nat n1) in E by lia.
  replace (128 * r * N) with (Z.of_nat n2) in E by lia.
  rewrite (bind_Some _ _ _ _ _ (make_bytes_eq n1 h)) in E.
  set (xy := Slice (length h) 0 n1 n1) in E.
  set (h1 := h ++ [replicate n1 0]) in E.
  rewrite (bind_Some _ _ _ _ _ (make_bytes_eq n2 h1)) in E.
  set (v := Slice (length h1) 0 n2 n2) in E.
  set (h2 := h1 ++ [replicate n2 0]) in E.
  unfold bind at 1 in E. unfold pbkdf2_alloc in E.
  destruct (pbkdf2 password salt 1 (p * 128 * r)) as [d|]; [|discriminate].
  set (b := Slice (length h2) 0 (length d) (length d)) in E.
  set (h3 := h2 ++ [d]) in E.
  set (L := length h).
  assert (L1 : length h1 = S L) by (unfold h1; rewrite length_app; cbn; lia).
  assert (L2 : length h2 = S (S L)) by (unfold h2; rewrite length_app; cbn; lia).
  assert (L3 : length h3 = S (S (S L))) by (unfold h3; rewrite length_app; cbn; lia).
  set (A := fun a : nat => a = s_arr b \/ a = s_arr v \/ a = s_arr xy).
  assert (Heff : forall rest : M (option (list Z) * option string),
            rest = (for_range 0 p (fun i =>
                      let* bi := slice_from b
                                   (int_mul isz (int_mul isz i 128) r) in
                      smix_with isz blockMix bi r N v xy) ;;;
                    let* salt2 := slice_bytes b in
                    match pbkdf2 password salt2 1 keyLen with
                    | Some key => ret (Some key, None)
                    | None => panic
                    end) ->
            effect A (Z.to_nat (p - 0) * (2 * Z.to_nat N * k) + 0) rest).
  { intros rest ->. apply effect_bind.
    - apply effect_for_range. intros i.
      apply (effect_bind_reads _ _ _ _ _ (reads_slice_from b _)). intros bi Hbi.
      apply (effect_mono (fun a => a = s_arr bi \/ a = s_arr v \/ a = s_arr xy)).
      + unfold A. rewrite Hbi. tauto.
      + apply effect_smix_with, blockMix_effect.
    - intros _. apply (effect_bind_reads _ _ _ _ _ (reads_slice_bytes b)).
      intros salt2 _. destruct (pbkdf2 password salt2 1 keyLen).
      + apply effect_ret.
      + apply effect_panic. }
  destruct (Heff _ eq_refl h3 res h' E) as [HL HF].
  rewrite Z.sub_0_r, Nat.add_0_r in HL.
  exists (h' !!! L), (h' !!! (L + 1)%nat), (h' !!! (L + 2)%nat), (drop (L + 3) h'), d.
  split; [reflexivity|].
  assert (Hold : take L h' = h).
  { apply list_eq. intros i. destruct (decide (i < L)%nat) as [Hi|Hi].
    - rewrite lookup_take_lt by exact Hi.
      rewrite (list_lookup_lookup_total_lt h') by lia.
      rewrite (list_lookup_lookup_total_lt h i) by exact Hi. f_equal.
      destruct (HF i ltac:(lia)) as [_ C]. rewrite C.
      + unfold h3, h2, h1. rewrite <- !app_assoc.
        apply lookup_total_app_l. exact Hi.
      + unfold A. cbn [s_arr b v xy]. fold L. lia.
    - rewrite lookup_take_ge by lia. symmetry. apply lookup_ge_None. fold L. lia. }
  split.
  { etransitivity; [apply (heap_split3 h' L); lia|]. rewrite Hold. reflexivity. }
  assert (E0 : h3 !!! L = replicate n1 0).
  { unfold h3, h2, h1. rewrite <- !app_assoc. rewrite lookup_total_app_r by (fold L; lia).
    fold L. rewrite Nat.sub_diag. reflexivity. }
  assert (E1 : h3 !!! (L + 1)%nat = replicate n2 0).
  { unfold h3, h2, h1. rewrite <- !app_assoc. rewrite lookup_total_app_r by (fold L; lia).
    fold L. replace (L + 1 - L)%nat with 1%nat by lia. reflexivity. }
  assert (E2 : h3 !!! (L + 2)%nat = d).
  { unfold h3, h2, h1. rewrite <- !app_assoc. rewrite lookup_total_app_r by (fold L; lia).
    fold L. replace (L + 2 - L)%nat with 2%nat by lia. reflexivity. }
  destruct (HF L ltac:(lia)) as [S0 _].
  destruct (HF (L + 1)%nat ltac:(lia)) as [S1 _].
  destruct (HF (L + 2)%nat ltac:(lia)) as [S2 _].
  rewrite S0, S1, S2, E0, E1, E2, !length_replicate, length_drop.
  repeat split; lia.
Qed.
End KeyFootprint.

Section KeyMemory.
Variable isz : IntSize.
Variable blockMix : slice -> slice -> Z -> M unit.
Variable k : nat.
Hypothesis blockMix_ok : blockMix_refines isz blockMix.
Hypothesis blockMix_effect :
  forall b y r, effect (fun a => a = s_arr b \/ a = s_arr y) k (blockMix b y r).
Variable pbkdf2 : list Z -> list Z -> Z -> Z -> option (list Z).

Lemma Key_with_key_footprint Nmin password salt N r p keyLen h :
  Nmin <= 1 -> pbkdf2_contract pbkdf2 -> in_int isz N -> valid_params N r p ->
  0 <= keyLen ->
  key_footprint N r p keyLen (Z.to_nat p * (2 * Z.to_nat N * k))
    (Key_with isz blockMix pbkdf2 Nmin password salt N r p keyLen) h.
Proof.
  intros Hm Hc HI HV Hk.
  destruct (Key_with_returns isz blockMix blockMix_ok pbkdf2 Nmin password salt
              N r p keyLen h Hm Hc HI HV Hk) as (key & h' & E & HL).
  destruct (valid_params_bounds N r p HV) as (HN & Hr & Hp & B1 & B2 & B3).
  destruct HV as (HN2 & HP & _).
  destruct (Key_with_footprint isz blockMix k blockMix_effect pbkdf2 Nmin password
              salt N r p keyLen h (success key) h')
    as (xy & v & b & tmp & d & Ed & -> & Lxy & Lv & Lb & Lt);
    try assumption.
  { apply first_guard_passes; assumption. }
  destruct (Hc password salt 1 (p * 128 * r) ltac:(nia)) as (d' & Ed' & Ld & _).
  assert (d' = d) by congruence. subst d'.
  exists key, xy, v, b, tmp. repeat split; try assumption. congruence.
Qed.
End KeyMemory.

(** X16: whenever it returns, [blockMix] has left every array that
    existed before at its size and has written only into the arrays
    behind [b] and [y]; the variant of scrypt.go and the rot variant have
    allocated exactly one array (the 64-byte [x] from [make]), the array
    variant none. *)
Theorem X16_blockMix_effect (isz : IntSize) (b y : slice) (r : Z) :
  effect (fun a => a = s_arr b \/ a = s_arr y) 1 (ScryptGo.blockMix isz b y r) /\
  effect (fun a => a = s_arr b \/ a = s_arr y) 1 (RotVariant.blockMix isz b y r) /\
  effect (fun a => a = s_arr b \/ a = s_arr y) 0 (ArrayVariant.blockMix isz b y r).
Proof.
  split; [|split].
  - apply effect_blockMix_with, effect_scryptgo_salsa.
  - apply effect_blockMix_with, effect_rot_salsa.
  - apply effect_array_blockMix.
Qed.

(** X17: whenever it returns, [smix] has left every array that existed
    before at its size and has written only into the arrays behind [b],
    [v] and [xy]; it has allocated [2 N] arrays in the variant of
    scrypt.go and in the rot variant (one per call of [blockMix]) and
    none in the array variant. *)
Theorem X17_smix_effect (isz : IntSize) (b v xy : slice) (r N : Z) :
  effect (fun a => a = s_arr b \/ a = s_arr v \/ a = s_arr xy)
    (2 * Z.to_nat N) (ScryptGo.smix isz b r N v xy) /\
  effect (fun a => a = s_arr b \/ a = s_arr v \/ a = s_arr xy)
    (2 * Z.to_nat N) (RotVariant.smix isz b r N v xy) /\
  effect (fun a => a = s_arr b \/ a = s_arr v \/ a = s_arr xy)
    0 (ArrayVariant.smix isz b r N v xy).
Proof.
  split; [|split].
  - apply (effect_count_r _ (2 * Z.to_nat N * 1)); [|lia].
    apply effect_smix_with. intros b0 y0 r0.
    apply effect_blockMix_with, effect_scryptgo_salsa.
  - apply (effect_count_r _ (2 * Z.to_nat N * 1)); [|lia].
    apply effect_smix_with. intros b0 y0 r0.
    apply effect_blockMix_with, effect_rot_salsa.
  - apply (effect_count_r _ (2 * Z.to_nat N * 0)); [|lia].
    apply effect_smix_with. intros b0 y0 r0. apply effect_array_blockMix.
Qed.

(** X18: on valid parameters, with a primitive that honours its
    contract, [Key] returns a key of [keyLen] bytes and leaves the heap
    it started from extended by [xy] (256 r bytes), [v] (128 r N bytes)
    and [b] (p 128 r bytes), followed by [2 N p] temporaries in the
    variant of scrypt.go and in the rot variant and by nothing in the
    array variant; every array that existed before is as it was. *)
Theorem X18_Key_memory (isz : IntSize) pbkdf2 password salt N r p keyLen h :
  pbkdf2_contract pbkdf2 -> in_int isz N -> valid_params N r p -> 0 <= keyLen ->
  key_footprint N r p keyLen (Z.to_nat (2 * N * p))
    (ScryptGo.Key isz pbkdf2 password salt N r p keyLen) h /\
  key_footprint N r p keyLen (Z.to_nat (2 * N * p))
    (RotVariant.Key isz pbkdf2 password salt N r p keyLen) h /\
  key_footprint N r p keyLen 0
    (ArrayVariant.Key isz pbkdf2 password salt N r p keyLen) h.
Proof.
  intros Hc HI HV Hk.
  assert (HN : 1 <= N /\ 1 <= p) by (destruct HV as (? & _ & _ & ? & _); lia).
  split; [|split].
  - replace (Z.to_nat (2 * N * p)) with (Z.to_nat p * (2 * Z.to_nat N * 1))%nat by nia.
    apply (Key_with_key_footprint isz _ 1 (blockMix_scryptgo_refines isz));
      try assumption; try lia.
    intros b0 y0 r0. apply effect_blockMix_with, effect_scryptgo_salsa.
  - replace (Z.to_nat (2 * N * p)) with (Z.to_nat p * (2 * Z.to_nat N * 1))%nat by nia.
    apply (Key_with_key_footprint isz _ 1 (blockMix_rot_refines isz));
      try assumption; try lia.
    intros b0 y0 r0. apply effect_blockMix_with, effect_rot_salsa.
  - replace 0%nat with (Z.to_nat p * (2 * Z.to_nat N * 0))%nat by lia.
    apply (Key_with_key_footprint isz _ 0 (blockMix_array_refines isz));
      try assumption; try lia.
    intros b0 y0 r0. apply effect_array_blockMix.
Qed.

Lemma X18_Key_memory_witness :
  key_footprint 2 1 1 32 (Z.to_nat (2 * 2 * 1))
    (ScryptGo.Key Int64 pbkdf2_zeros [] [] 2 1 1 32) [] /\
  key_footprint 2 1 1 32 (Z.to_nat (2 * 2 * 1))
    (RotVariant.Key Int64 pbkdf2_zeros [] [] 2 1 1 32) [] /\
  key_footprint 2 1 1 32 0
    (ArrayVariant.Key Int64 pbkdf2_zeros [] [] 2 1 1 32) [].
Proof.
  apply (X18_Key_memory Int64 pbkdf2_zeros [] [] 2 1 1 32 []).
  - exact pbkdf2_zeros_contract.
  - exact in_int64_2.
  - exact valid_params_2_1_1.
  - lia.
Defined.

(** X19: [smix] panics whenever [b] has capacity for fewer than [128 r]
    bytes, whatever the heap and the other arguments are: its first copy
    reslices [b] to [128 r] bytes.  All three variants. *)
Theorem X19_smix_short_block (isz : IntSize) (h : heap) (b v xy : slice) (r N : Z) :
  0 <= 128 * r <= max_int isz -> Z.of_nat (s_cap b) < 128 * r ->
  ScryptGo.smix isz b r N v xy h = None /\
  ArrayVariant.smix isz b r N v xy h = None /\
  RotVariant.smix isz b r N v xy h = None.
Proof.
  intros Hr Hc.
  assert (E : Z.of_nat (s_cap b) < int_mul isz 128 r).
  { rewrite int_mul_small by int_bound. exact Hc. }
  split; [|split]; apply smix_short_panics; exact E.
Qed.

Lemma X19_smix_short_witness :
  ScryptGo.smix Int64 (Slice 0 0 64 64) 1 2 (Slice 1 0 256 256) (Slice 2 0 256 256)
    [replicate 64 0; replicate 256 0; replicate 256 0] = None /\
  ArrayVariant.smix Int64 (Slice 0 0 64 64) 1 2 (Slice 1 0 256 256) (Slice 2 0 256 256)
    [replicate 64 0; replicate 256 0; replicate 256 0] = None /\
  RotVariant.smix Int64 (Slice 0 0 64 64) 1 2 (Slice 1 0 256 256) (Slice 2 0 256 256)
    [replicate 64 0; replicate 256 0; replicate 256 0] = None.
Proof.
  apply (X19_smix_short_block Int64
           [replicate 64 0; replicate 256 0; replicate 256 0]
           (Slice 0 0 64 64) (Slice 1 0 256 256) (Slice 2 0 256 256) 1 2).
  - vm_compute. split; discriminate.
  - simpl. lia.
Defined.

(** *** The three salsa, and what a derived key implies *)

(** X20: on every well-formed slice of at least 64 bytes the salsa of
    scrypt.go and the salsa of the rot variant have the same effect, on
    either width of [int]: both write into the first 64 bytes of [b] what
    the array salsa computes from them, and touch nothing else.  No
    assumption is made on the bytes. *)
Theorem X20_three_salsa_agree (isz isz' : IntSize) (h : heap) (b : slice) :
  slice_ok h b -> (64 <= s_len b)%nat ->
  ScryptGo.salsa isz b h =
    Some (tt, put h (s_arr b) (s_off b) (ArrayVariant.salsa (view h b 64))) /\
  RotVariant.salsa isz' b h =
    Some (tt, put h (s_arr b) (s_off b) (ArrayVariant.salsa (view h b 64))).
Proof.
  intros Hok Hlen.
  assert (HL : length (view h b 64) = 64%nat)
    by (apply length_view; [exact Hok|destruct Hok as (_ & ? & _); lia]).
  rewrite (array_salsa_code _ HL).
  split; [apply scryptgo_salsa_eq|apply rot_salsa_eq]; assumption.
Qed.

Lemma X20_three_salsa_witness :
  ScryptGo.salsa Int32 (Slice 0 0 64 64) [replicate 64 300] =
    Some (tt, put [replicate 64 300] 0 0
                (ArrayVariant.salsa (view [replicate 64 300] (Slice 0 0 64 64) 64))) /\
  RotVariant.salsa Int64 (Slice 0 0 64 64) [replicate 64 300] =
    Some (tt, put [replicate 64 300] 0 0
                (ArrayVariant.salsa (view [replicate 64 300] (Slice 0 0 64 64) 64))).
Proof.
  apply (X20_three_salsa_agree Int32 Int64 [replicate 64 300] (Slice 0 0 64 64)).
  - unfold slice_ok. simpl. lia.
  - simpl. lia.
Defined.

Section KeySuccess.
Variable isz : IntSize.
Variable blockMix : slice -> slice -> Z -> M unit.
Variable pbkdf2 : list Z -> list Z -> Z -> Z -> option (list Z).

(** A derived key means both guards were passed. *)
Lemma Key_with_success Nmin password salt N r p keyLen h key :
  0 <= Nmin ->
  outcome (Key_with isz blockMix pbkdf2 Nmin password salt N r p keyLen h) =
    Some (success key) ->
  ~ (N <= Nmin \/ Z.land N (int_sub isz N 1) <> 0) /\
  1 <= r /\ 1 <= p /\ ~ guard_conditions N r p /\
  r * p <= 16777215 /\ r * N <= 16777215.
Proof.
  intros Hm E.
  destruct (decide (N <= Nmin \/ Z.land N (int_sub isz N 1) <> 0)) as [Hg|Hg].
  { unfold Key_with in E. rewrite decide_True in E by exact Hg. discriminate. }
  split; [exact Hg|].
  unfold Key_with in E. rewrite decide_False in E by exact Hg.
  unfold bind at 1 in E.
  destruct (too_large isz N r p h) as [[[|] h1]|] eqn:Et; try discriminate.
  destruct (too_large_false isz N r p h h1 Et) as (Hr & Hp & Hgc).
  assert (HN : 1 <= N) by (destruct (decide (N <= Nmin)); [tauto|lia]).
  destruct (guard_conditions_false N r p HN Hr Hp Hgc) as (Hr1 & Hp1 & B1 & B2 & B3).
  repeat split; try assumption; lia.
Qed.
End KeySuccess.

(** X21: [Key] derives a key only from valid parameters: when a call
    returns a key, [N] is a power of two (at least 2 in the variant of
    scrypt.go and in the array variant, at least 1 in the rot variant),
    [r] and [p] are positive, none of the four conditions of the second
    guard holds, and [r p <= 2^24 - 1] and [r N <= 2^24 - 1]. *)
Theorem X21_key_implies_valid (isz : IntSize) pbkdf2 password salt N r p keyLen h key :
  in_int isz N ->
  (outcome (ScryptGo.Key isz pbkdf2 password salt N r p keyLen h) =
     Some (success key) ->
   valid_params N r p /\ r * p <= 16777215 /\ r * N <= 16777215) /\
  (outcome (ArrayVariant.Key isz pbkdf2 password salt N r p keyLen h) =
     Some (success key) ->
   valid_params N r p /\ r * p <= 16777215 /\ r * N <= 16777215) /\
  (outcome (RotVariant.Key isz pbkdf2 password salt N r p keyLen h) =
     Some (success key) ->
   1 <= N /\ Spec.power_of_two N /\ 1 <= r /\ 1 <= p /\
   ~ guard_conditions N r p /\ r * p <= 16777215 /\ r * N <= 16777215).
Proof.
  intros HI.
  assert (Es : forall Nmin, 0 <= Nmin ->
            ~ (N <= Nmin \/ Z.land N (int_sub isz N 1) <> 0) ->
            Nmin < N /\ Spec.power_of_two N).
  { intros Nmin Hm Hg.
    assert (HN : Nmin < N) by (destruct (decide (N <= Nmin)); [tauto|lia]).
    split; [exact HN|]. apply land_pred_zero_pow2; [lia|].
    destruct (Z.eq_dec (Z.land N (N - 1)) 0) as [E|E]; [exact E|].
    exfalso. apply Hg. right. unfold int_sub. rewrite int_wrap_id; [exact E|].
    unfold in_int in *. pose proof (min_int_le isz). lia. }
  split; [|split]; intros E.
  - destruct (Key_with_success isz _ pbkdf2 1 password salt N r p keyLen h key
                ltac:(lia) E) as (Hg & Hr & Hp & Hgc & B1 & B2).
    destruct (Es 1 ltac:(lia) Hg) as [HN HP].
    split; [|split; assumption].
    split; [lia|]. split; [exact HP|]. split; [exact Hr|]. split; assumption.
  - destruct (Key_with_success isz _ pbkdf2 1 password salt N r p keyLen h key
                ltac:(lia) E) as (Hg & Hr & Hp & Hgc & B1 & B2).
    destruct (Es 1 ltac:(lia) Hg) as [HN HP].
    split; [|split; assumption].
    split; [lia|]. split; [exact HP|]. split; [exact Hr|]. split; assumption.
  - destruct (Key_with_success isz _ pbkdf2 0 password salt N r p keyLen h key
                ltac:(lia) E) as (Hg & Hr & Hp & Hgc & B1 & B2).
    destruct (Es 0 ltac:(lia) Hg) as [HN HP].
    repeat split; try assumption; lia.
Qed.

Lemma X21_key_implies_valid_witness :
  valid_params 2 1 1 /\ 1 * 1 <= 16777215 /\ 1 * 2 <= 16777215.
Proof.
  apply (X21_key_implies_valid Int64 pbkdf2_zeros [] [] 2 1 1 32 []
           (replicate 32 0)).
  - exact in_int64_2.
  - vm_compute. reflexivity.
Defined.

(** *** Slices that are too short *)

Lemma for_state_panics {St} (I : Z -> St -> heap -> Prop) (body : Z -> St -> M St)
    lo hi k st h :
  lo <= k < hi ->
  I lo st h ->
  (forall i st h, lo <= i < k -> I i st h ->
     exists st' h', body i st h = Some (st', h') /\ I (i + 1) st' h') ->
  (forall st h, I k st h -> body k st h = None) ->
  for_state lo hi body st h = None.
Proof.
  intros Hk HI Hstep Hpanic. unfold for_state.
  remember (Z.to_nat (hi - lo)) as n eqn:Hn.
  assert (Hn' : k < lo + Z.of_nat n) by lia. clear Hn.
  destruct Hk as [Hk _]. revert lo st h Hk HI Hstep Hn'.
  induction n as [|n IH]; intros lo st h Hk HI Hstep Hn'; [lia|].
  simpl. destruct (decide (lo = k)) as [->|Hne].
  - rewrite bind_None; [reflexivity|]. apply Hpanic, HI.
  - destruct (Hstep lo st h) as (st1 & h1 & Hb & HI1); [lia|exact HI|].
    rewrite (bind_Some _ _ _ _ _ Hb). apply IH; [lia|exact HI1| |lia].
    intros i st0 h0 Hi. apply Hstep. lia.
Qed.

Section ShortSlices.
Variable isz : IntSize.
Implicit Types (h : heap) (b y : slice).

Lemma scryptgo_salsa_short h b :
  slice_ok h b -> (s_len b < 64)%nat -> ScryptGo.salsa isz b h = None.
Proof.
  intros Hok Hlen. unfold ScryptGo.salsa. apply bind_None.
  set (k := (s_len b / 4)%nat).
  assert (Hk : (4 * k <= s_len b < 4 * k + 4)%nat).
  { unfold k. pose proof (Nat.div_mod_eq (s_len b) 4).
    pose proof (Nat.mod_upper_bound (s_len b) 4). lia. }
  apply (for_state_panics (fun _ _ h' => h' = h) _ 0 16 (Z.of_nat k)).
  - lia.
  - reflexivity.
  - intros i w h0 Hi ->.
    set (j := Z.to_nat i). replace i with (Z.of_nat j) by lia.
    cbv zeta. rewrite int_mul_small by int_bound.
    rewrite !int_add_small by int_bound.
    replace (Z.of_nat j * 4) with (Z.of_nat (4 * j)) by lia.
    replace (Z.of_nat (4 * j) + 1) with (Z.of_nat (4 * j + 1)) by lia.
    replace (Z.of_nat (4 * j) + 2) with (Z.of_nat (4 * j + 2)) by lia.
    replace (Z.of_nat (4 * j) + 3) with (Z.of_nat (4 * j + 3)) by lia.
    rewrite (bind_Some _ _ _ _ _ (index_get_eq h b (4 * j) Hok ltac:(lia))).
    rewrite (bind_Some _ _ _ _ _ (index_get_eq h b (4 * j + 1) Hok ltac:(lia))).
    rewrite (bind_Some _ _ _ _ _ (index_get_eq h b (4 * j + 2) Hok ltac:(lia))).
    rewrite (bind_Some _ _ _ _ _ (index_get_eq h b (4 * j + 3) Hok ltac:(lia))).
    eexists _, _. split; reflexivity.
  - intros w h0 ->. cbv zeta. rewrite int_mul_small by int_bound.
    rewrite !int_add_small by int_bound.
    replace (Z.of_nat k * 4) with (Z.of_nat (4 * k)) by lia.
    replace (Z.of_nat (4 * k) + 1) with (Z.of_nat (4 * k + 1)) by lia.
    replace (Z.of_nat (4 * k) + 2) with (Z.of_nat (4 * k + 2)) by lia.
    replace (Z.of_nat (4 * k) + 3) with (Z.of_nat (4 * k + 3)) by lia.
    destruct (decide (4 * k < s_len b)%nat) as [H0|H0];
      [|apply bind_None, index_get_panics; lia].
    rewrite (bind_Some _ _ _ _ _ (index_get_eq h b (4 * k) Hok H0)).
    destruct (decide (4 * k + 1 < s_len b)%nat) as [H1|H1];
      [|apply bind_None, index_get_panics; lia].
    rewrite (bind_Some _ _ _ _ _ (index_get_eq h b (4 * k + 1) Hok H1)).
    destruct (decide (4 * k + 2 < s_len b)%nat) as [H2|H2];
      [|apply bind_None, index_get_panics; lia].
    rewrite (bind_Some _ _ _ _ _ (index_get_eq h b (4 * k + 2) Hok H2)).
    apply bind_None, index_get_panics. lia.
Qed.

Lemma rot_salsa_short h b :
  slice_ok h b -> (s_len b < 64)%nat -> RotVariant.salsa isz b h = None.
Proof.
  intros Hok Hlen. unfold RotVariant.salsa. apply bind_None.
  set (k := (s_len b / 4)%nat).
  assert (Hk : (4 * k <= s_len b < 4 * k + 4)%nat).
  { unfold k. pose proof (Nat.div_mod_eq (s_len b) 4).
    pose proof (Nat.mod_upper_bound (s_len b) 4). lia. }
  apply (for_state_panics (fun _ _ h' => h' = h) _ 0 16 (Z.of_nat k)).
  - lia.
  - reflexivity.
  - intros i w h0 Hi ->.
    set (j := Z.to_nat i). replace i with (Z.of_nat j) by lia.
    rewrite int_mul_small by int_bound.
    replace (Z.of_nat j * 4) with (Z.of_nat (4 * j)) by lia.
    rewrite (bind_Some _ _ _ _ _ (slice_from_eq b (4 * j) h ltac:(lia))).
    rewrite (bind_Some _ _ _ _ _ (Uint32_eq h b j Hok ltac:(lia))).
    eexists _, _. split; reflexivity.
  - intros w h0 ->. rewrite int_mul_small by int_bound.
    replace (Z.of_nat k * 4) with (Z.of_nat (4 * k)) by lia.
    rewrite (bind_Some _ _ _ _ _ (slice_from_eq b (4 * k) h ltac:(lia))).
    apply bind_None. unfold LittleEndian_Uint32.
    apply bind_None, index_get_panics. cbn [s_len sfrom]. lia.
Qed.

Lemma blockMix_with_bad_r salsa h b y r :
  r <= 0 -> in_int isz ((2 * r - 1) * 64) ->
  blockMix_with isz salsa b y r h = None.
Proof.
  intros Hr HI. unfold blockMix_with.
  rewrite (bind_Some _ _ _ _ _ (make_bytes_eq 64 h)).
  rewrite integerify_index by exact HI.
  apply bind_None, slice_from_panics. lia.
Qed.

Lemma array_blockMix_bad_r h b y r :
  r <= 0 -> in_int isz ((2 * r - 1) * 64) ->
  ArrayVariant.blockMix isz b y r h = None.
Proof.
  intros Hr HI. unfold ArrayVariant.blockMix. cbv zeta.
  rewrite integerify_index by exact HI.
  apply bind_None, slice_from_panics. lia.
Qed.
End ShortSlices.

(** X22: on a well-formed slice the salsa of scrypt.go and the salsa of
    the rot variant panic exactly when the slice has fewer than 64
    bytes. *)
Theorem X22_salsa_panics_iff (isz : IntSize) (h : heap) (b : slice) :
  slice_ok h b ->
  (ScryptGo.salsa isz b h = None <-> (s_len b < 64)%nat) /\
  (RotVariant.salsa isz b h = None <-> (s_len b < 64)%nat).
Proof.
  intros Hok. split; split.
  - intros E. destruct (decide (s_len b < 64)%nat) as [?|Hl]; [assumption|].
    rewrite scryptgo_salsa_eq in E by (assumption || lia). discriminate.
  - apply scryptgo_salsa_short, Hok.
  - intros E. destruct (decide (s_len b < 64)%nat) as [?|Hl]; [assumption|].
    rewrite rot_salsa_eq in E by (assumption || lia). discriminate.
  - apply rot_salsa_short, Hok.
Qed.

Lemma X22_salsa_panics_witness :
  (ScryptGo.salsa Int64 (Slice 0 0 63 64) [replicate 64 0] = None <->
   (s_len (Slice 0 0 63 64) < 64)%nat) /\
  (RotVariant.salsa Int64 (Slice 0 0 63 64) [replicate 64 0] = None <->
   (s_len (Slice 0 0 63 64) < 64)%nat).
Proof.
  apply (X22_salsa_panics_iff Int64 [replicate 64 0] (Slice 0 0 63 64)).
  unfold slice_ok. simpl. lia.
Defined.

(** X23: [blockMix] panics for every [r <= 0] (as long as the index
    [(2r-1)*64] does not overflow [int]): slicing [b] at the negative
    offset of the last sub-block fails.  All three variants. *)
Theorem X23_blockMix_bad_r (isz : IntSize) (h : heap) (b y : slice) (r : Z) :
  r <= 0 -> in_int isz ((2 * r - 1) * 64) ->
  ScryptGo.blockMix isz b y r h = None /\
  ArrayVariant.blockMix isz b y r h = None /\
  RotVariant.blockMix isz b y r h = None.
Proof.
  intros Hr HI. split; [|split].
  - apply blockMix_with_bad_r; assumption.
  - apply array_blockMix_bad_r; assumption.
  - apply blockMix_with_bad_r; assumption.
Qed.

Lemma X23_blockMix_bad_r_witness :
  ScryptGo.blockMix Int64 (Slice 0 0 128 128) (Slice 1 0 128 128) 0
    [replicate 128 0; replicate 128 0] = None /\
  ArrayVariant.blockMix Int64 (Slice 0 0 128 128) (Slice 1 0 128 128) 0
    [replicate 128 0; replicate 128 0] = None /\
  RotVariant.blockMix Int64 (Slice 0 0 128 128) (Slice 1 0 128 128) 0
    [replicate 128 0; replicate 128 0] = None.
Proof.
  apply (X23_blockMix_bad_r Int64 [replicate 128 0; replicate 128 0]
           (Slice 0 0 128 128) (Slice 1 0 128 128) 0).
  - lia.
  - unfold in_int. vm_compute. split; discriminate.
Defined.
